(** * parsefish: the lexer and the AST walker

    A shallow embedding of [internal/yyparse/lex.go] (the scanner that
    feeds the generated parser) and of the AST walker ([Walk], [Inspect],
    [walkStmts], [walkExprs]), with the properties of both that the
    specification states. *)

From Stdlib Require Import Ascii String ZArith List Bool Lia Permutation.
Import ListNotations.

Local Open Scope Z_scope.
Local Set Warnings "-register-all".

(* ------------------------------------------------------------------ *)
(** ** Characters and the character source *)

(** A Go [rune]: a code point, or [EOF] as returned by [Peek] at the end. *)
Definition rune := Z.

Definition r (a : ascii) : rune := Z.of_N (N_of_ascii a).

Definition runes (s : string) : list rune := map r (list_ascii_of_string s).

(** [scanner.EOF] *)
Definition EOF : rune := -1.

Definition backslash : rune := 92.
Definition squote : rune := 39.
Definition dquote : rune := 34.
Definition newline : rune := 10.
Definition tab : rune := 9.

(** [scanner.Position]. The library tracks file name, byte offset, line
    and column; the lexer only copies positions into the fragments it
    builds and never branches on them, so the embedding keeps one number:
    how many runes were consumed before the position. *)
Definition Position := Z.

(** [text/scanner.Scanner] as the lexer uses it: the runes still to be
    read (code points, so never [EOF] itself) and the current position. *)
Record Scanner : Type := mkScanner { src : list rune; offset : Position }.

Definition newScanner (input : list rune) : Scanner :=
  {| src := input; offset := 0 |}.

(** [s.Peek()]: the next rune without consuming it, [EOF] at the end. *)
Definition Peek (s : Scanner) : rune :=
  match src s with
  | [] => EOF
  | c :: _ => c
  end.

(** [s.Next()]: consume one rune; at the end of the input nothing moves. *)
Definition Next (s : Scanner) : Scanner :=
  match src s with
  | [] => s
  | _ :: tl => {| src := tl; offset := offset s + 1 |}
  end.

(** [s.Pos()] *)
Definition Pos (s : Scanner) : Position := offset s.

(* ------------------------------------------------------------------ *)
(** ** The [ast] values the lexer builds *)

(** Modelled from the spec: the declarations of package [ast] are not among
    the sources. A composite word ([ast.StrExpr]) is an ordered sequence of
    fragments, each an [Ident] (literal text), a [VarExpr] (a variable
    reference) or an [FD] (a file descriptor, -1 for "close"). A Go string
    built by [string(ret)] is kept as the rune list [ret]. *)
Inductive Fragment : Type :=
| Ident (pos : Position) (Name : list rune)
| VarExpr (pos : Position) (Name : list rune)
| FD (pos : Position) (N : Z).

Definition StrExpr := list Fragment.

Definition newIdent (pos : Position) (name : list rune) : Fragment := Ident pos name.
Definition newVar (pos : Position) (name : list rune) : Fragment := VarExpr pos name.
Definition newFD (pos : Position) (n : Z) : Fragment := FD pos n.

(** Modelled from the spec: the token constants come from the generated
    parser, which is not among the sources. A token is either a character code
    ([Char c], which is how [mainLex] returns punctuation and [EOF]) or
    one of the named codes, all distinct from each other and from every
    character code. *)
Inductive Token : Type :=
| Char (c : rune)
| STR
| IF | ELSE | BEGIN | END | FUNCTION
| STR_AND_LEFT_PAREN
| RIGHT_PAREN_AND_STR
| RIGHT_PAREN_AND_STR_AND_LEFT_PAREN
| REDIRECT_TO_FD | APPEND_REDIRECT
| ERR_REDIRECT_TO_FD | APPEND_ERR_REDIRECT.

(** Modelled from the spec: [yySymType] is declared by the generated
    parser; [mainLex] writes its fields [str] and [expr]. *)
Record yySymType : Type := mkSym { str : StrExpr; expr : StrExpr }.

Definition set_str (lval : yySymType) (v : StrExpr) : yySymType :=
  {| str := v; expr := expr lval |}.
Definition set_expr (lval : yySymType) (v : StrExpr) : yySymType :=
  {| str := str lval; expr := v |}.

Definition lval0 : yySymType := {| str := []; expr := [] |}.

(* ------------------------------------------------------------------ *)
(** ** Errors, loops and the scanning monad *)

(** The two ways [strconv.Atoi] fails. *)
Inductive NumError : Type := ErrSyntax | ErrRange.

Inductive Error : Type :=
| UnexpectedEOF                 (* fmt.Errorf("unexpected EOF") *)
| ExpectIdentError              (* "expected IDENT" *)
| ExpectVarNameError            (* "expected variable name after $" *)
| AtoiError (e : NumError).     (* the error of strconv.Atoi *)

(** What a scanning routine does on a scanner: it returns a value and
    leaves the scanner advanced, or returns an error, or is still inside
    one of its [for] loops when the iteration budget is used up. *)
Inductive Res (A : Type) : Type :=
| Done (a : A) (s : Scanner)
| Fail (e : Error)
| Timeout.
Arguments Done {A} a s.
Arguments Fail {A} e.
Arguments Timeout {A}.

Definition M (A : Type) : Type := Scanner -> Res A.

Definition ret {A} (a : A) : M A := fun s => Done a s.
Definition fail {A} (e : Error) : M A := fun _ => Fail e.
Definition bind {A B} (c : M A) (k : A -> M B) : M B :=
  fun s => match c s with
           | Done a s' => k a s'
           | Fail e => Fail e
           | Timeout => Timeout
           end.
Definition peek : M rune := fun s => Done (Peek s) s.
Definition next : M unit := fun s => Done tt (Next s).
Definition getPos : M Position := fun s => Done (Pos s) s.

Notation "x <- c ;; k" := (bind c (fun x => k))
  (at level 61, c at next level, right associativity).
Notation "c ;;; k" := (bind c (fun _ => k))
  (at level 61, right associativity).

(* ------------------------------------------------------------------ *)
(** ** Character classes *)

Definition singleQuotedSpecials : list rune := [-1; backslash; squote].
Definition doubleQuotedSpecials : list rune := [-1; backslash; dquote; r "$"].
Definition specials : list rune :=
  [-1; tab; newline; r "$"; r "?"; r "*"; r "~"; r "#"; r "("; r ")";
   r "{"; r "}"; r "["; r "]"; r "<"; r ">"; r "^"; r "&"; r ";";
   squote; dquote; backslash; r " "].

Definition isSpecialChar (c : rune) : bool :=
  existsb (fun sc => sc =? c) specials.
Definition isDoubleQuotedSpecialChar (c : rune) : bool :=
  existsb (fun sc => sc =? c) doubleQuotedSpecials.
Definition isSingleQuotedSpecialChar (c : rune) : bool :=
  existsb (fun sc => sc =? c) singleQuotedSpecials.

Definition isSingleQuotedIdentChar (c : rune) : bool := negb (isSingleQuotedSpecialChar c).
Definition isDoubleQuotedIdentChar (c : rune) : bool := negb (isDoubleQuotedSpecialChar c).
Definition isIdentChar (c : rune) : bool := negb (isSpecialChar c).

Definition isNumber (c : rune) : bool := (r "0" <=? c) && (c <=? r "9").
Definition isLetter (c : rune) : bool :=
  (r "a" <=? c) && (c <=? r "z") || (r "A" <=? c) && (c <=? r "Z").
Definition isBrank (c : rune) : bool := (c =? r " ") || (c =? tab).
Definition isVarChar (c : rune) : bool := isLetter c || isNumber c || (c =? r "_").

(* ------------------------------------------------------------------ *)
(** ** The scanning routines *)

(** The loop the five run scanners share:
    [for p(s.Peek()) { ret = append(ret, s.Peek()); s.Next() }]. *)
Fixpoint scanRun (p : rune -> bool) (fuel : nat) (acc : list rune) : M (list rune) :=
  fun s =>
    match fuel with
    | O => Timeout
    | S n => if p (Peek s) then scanRun p n (acc ++ [Peek s]) (Next s)
             else Done acc s
    end.

(** The loop of [skipBrank] and [skipComment]: [for p(s.Peek()) { s.Next() }]. *)
Fixpoint skipRun (p : rune -> bool) (fuel : nat) : M unit :=
  fun s =>
    match fuel with
    | O => Timeout
    | S n => if p (Peek s) then skipRun p n (Next s) else Done tt s
    end.

Definition scanDoubleQuotedIdent (fuel : nat) : M Fragment :=
  pos <- getPos ;;
  run <- scanRun isDoubleQuotedIdentChar fuel [] ;;
  if (length run =? 0)%nat then fail ExpectIdentError
  else ret (newIdent pos run).

Definition scanSingleQuotedIdent (fuel : nat) : M Fragment :=
  pos <- getPos ;;
  run <- scanRun isSingleQuotedIdentChar fuel [] ;;
  if (length run =? 0)%nat then fail ExpectIdentError
  else ret (newIdent pos run).

Definition scanVar (fuel : nat) : M Fragment :=
  pos <- getPos ;;
  next ;;;                                   (* The '$' *)
  run <- scanRun isVarChar fuel [] ;;
  if (length run =? 0)%nat then fail ExpectVarNameError
  else ret (newVar pos run).

Definition scanIdent (fuel : nat) : M Fragment :=
  pos <- getPos ;;
  run <- scanRun isIdentChar fuel [] ;;
  if (length run =? 0)%nat then fail ExpectIdentError
  else ret (newIdent pos run).

(** The [for] loop of [scanSingleQuoted]. *)
Fixpoint scanSingleQuoted_loop (fuel : nat) (acc : StrExpr) : M StrExpr :=
  fun s =>
    match fuel with
    | O => Timeout
    | S n =>
        if Peek s =? EOF then Fail UnexpectedEOF
        else if isSingleQuotedIdentChar (Peek s) then
          (ident <- scanSingleQuotedIdent n ;;
           scanSingleQuoted_loop n (acc ++ [ident])) s
        else if Peek s =? squote then
          (next ;;; ret acc) s
        else
          (ident <- scanSingleQuotedIdent n ;;
           scanSingleQuoted_loop n (acc ++ [ident])) s
    end.

Definition scanSingleQuoted (fuel : nat) : M StrExpr :=
  next ;;;                                   (* the opening single quote *)
  scanSingleQuoted_loop fuel [].

(** The [for] loop of [scanDoubleQuoted]. *)
Fixpoint scanDoubleQuoted_loop (fuel : nat) (acc : StrExpr) : M StrExpr :=
  fun s =>
    match fuel with
    | O => Timeout
    | S n =>
        if Peek s =? EOF then Fail UnexpectedEOF
        else if isDoubleQuotedIdentChar (Peek s) then
          (ident <- scanDoubleQuotedIdent n ;;
           scanDoubleQuoted_loop n (acc ++ [ident])) s
        else if Peek s =? r "$" then
          (vare <- scanVar n ;;
           scanDoubleQuoted_loop n (acc ++ [vare])) s
        else if Peek s =? dquote then
          (next ;;; ret acc) s
        else
          (ident <- scanDoubleQuotedIdent n ;;
           scanDoubleQuoted_loop n (acc ++ [ident])) s
    end.

Definition scanDoubleQuoted (fuel : nat) : M StrExpr :=
  next ;;;                                   (* the opening double quote *)
  scanDoubleQuoted_loop fuel [].

(** The [for] loop of [scanStrs], with its two locals. *)
Fixpoint scanStrs_loop (fuel : nat) (withRightParen : bool) (acc : StrExpr)
  : M (Token * StrExpr) :=
  fun s =>
    match fuel with
    | O => Timeout
    | S n =>
        if Peek s =? r "$" then
          (vare <- scanVar n ;;
           scanStrs_loop n withRightParen (acc ++ [vare])) s
        else if Peek s =? dquote then
          (quotedStr <- scanDoubleQuoted n ;;
           scanStrs_loop n withRightParen (acc ++ quotedStr)) s
        else if Peek s =? squote then
          (quotedStr <- scanSingleQuoted n ;;
           scanStrs_loop n withRightParen (acc ++ quotedStr)) s
        else if Peek s =? r ")" then
          if (0 <? length acc)%nat then Done (STR, acc) s
          else if withRightParen then
            if (length acc =? 0)%nat then Done (Char (r ")"), acc) s
            else Done (RIGHT_PAREN_AND_STR, acc) s
          else scanStrs_loop n true acc (Next s)
        else if Peek s =? r "(" then
          let s1 := Next s in
          if (length acc =? 0)%nat && negb withRightParen then Done (Char (r "("), acc) s1
          else if withRightParen then Done (RIGHT_PAREN_AND_STR_AND_LEFT_PAREN, acc) s1
          else Done (STR_AND_LEFT_PAREN, acc) s1
        else if isSpecialChar (Peek s) then
          if withRightParen then Done (RIGHT_PAREN_AND_STR, acc) s
          else Done (STR, acc) s
        else
          (ident <- scanIdent n ;;
           scanStrs_loop n withRightParen (acc ++ [ident])) s
    end.

Definition scanStrs (fuel : nat) : M (Token * StrExpr) :=
  scanStrs_loop fuel false [].

Definition skipBrank (fuel : nat) : M unit := skipRun isBrank fuel.

Definition skipComment (fuel : nat) : M unit :=
  skipRun (fun c => negb (c =? newline)) fuel.

(** [strconv.Atoi] on a 64-bit target: an optional sign, then at least
    one decimal digit and nothing else ([ErrSyntax] otherwise); the value
    has to fit in an [int] ([ErrRange] otherwise). *)
Definition maxUint64 : Z := 2 ^ 64 - 1.
Definition maxInt : Z := 2 ^ 63 - 1.

Fixpoint parseDigits (acc : Z) (l : list rune) : NumError + Z :=
  match l with
  | [] => inr acc
  | c :: tl =>
      if isNumber c then
        let acc' := acc * 10 + (c - r "0") in
        if acc' >? maxUint64 then inl ErrRange else parseDigits acc' tl
      else inl ErrSyntax
  end.

Definition Atoi (l : list rune) : NumError + Z :=
  match l with
  | [] => inl ErrSyntax
  | c :: tl =>
      let neg := c =? r "-" in
      let digits := if neg || (c =? r "+") then tl else l in
      match digits with
      | [] => inl ErrSyntax
      | _ =>
          match parseDigits 0 digits with
          | inl e => inl e
          | inr un =>
              if neg then (if un >? maxInt + 1 then inl ErrRange else inr (- un))
              else (if un >? maxInt then inl ErrRange else inr un)
          end
      end
  end.

Definition scanFD (fuel : nat) : M Fragment :=
  pos <- getPos ;;
  next ;;;                                   (* '&' *)
  c <- peek ;;
  if c =? r "-" then ret (newFD pos (-1))
  else
    run <- scanRun isNumber fuel [] ;;
    match Atoi run with
    | inl e => fail (AtoiError e)
    | inr n => ret (newFD pos n)
    end.

(** The [keywords] table. A Go map has no iteration order; the texts are
    pairwise distinct, so the first match is the only one. *)
Definition keywords : list (Token * list rune) :=
  [ (IF, runes "if"); (ELSE, runes "else"); (BEGIN, runes "begin");
    (END, runes "end"); (FUNCTION, runes "function") ].

Definition rune_list_eqb (a b : list rune) : bool :=
  if list_eq_dec Z.eq_dec a b then true else false.

(** The first loop of [tokenOf]: [None] as soon as a fragment is no [Ident]. *)
Fixpoint identLit (lit : list rune) (e : StrExpr) : option (list rune) :=
  match e with
  | [] => Some lit
  | Ident _ name :: tl => identLit (lit ++ name) tl
  | _ :: _ => None
  end.

(** The second loop of [tokenOf]. *)
Fixpoint lookupKeyword (kw : list (Token * list rune)) (lit : list rune) : option Token :=
  match kw with
  | [] => None
  | (tok, l) :: tl => if rune_list_eqb l lit then Some tok else lookupKeyword tl lit
  end.

Definition tokenOf (e : StrExpr) : option Token :=
  match identLit [] e with
  | None => None
  | Some lit => lookupKeyword keywords lit
  end.

(** [mainLex]: one token per call; [lval] is the parser's value cell,
    returned as the call leaves it. The recursive call is [goto RETRY]. *)
Fixpoint mainLex (fuel : nat) (lval : yySymType) : M (Token * yySymType) :=
  match fuel with
  | O => fun _ => Timeout
  | S n =>
      skipBrank n ;;;
      c <- peek ;;
      if c =? EOF then ret (Char c, lval)
      else if c =? r "#" then
        skipComment n ;;;
        mainLex n lval
      else if c =? r ">" then
        next ;;;
        c1 <- peek ;;
        if c1 =? r "&" then
          fd <- scanFD n ;;
          ret (REDIRECT_TO_FD, set_expr lval [fd])
        else if c1 =? r ">" then ret (APPEND_REDIRECT, lval)
        else ret (Char (r ">"), lval)
      else if c =? r "^" then
        next ;;;
        c1 <- peek ;;
        if c1 =? r "&" then
          fd <- scanFD n ;;
          ret (ERR_REDIRECT_TO_FD, set_expr lval [fd])
        else if c1 =? r "^" then ret (APPEND_ERR_REDIRECT, lval)
        else ret (Char (r "^"), lval)
      else if (c =? r ";") || (c =? newline) || (c =? r "|") || (c =? r "<") then
        next ;;;
        ret (Char c, lval)
      else
        tv <- scanStrs n ;;
        let (tok, v) := tv in
        match tok with
        | STR =>
            match tokenOf v with
            | Some kw => ret (kw, lval)
            | None => ret (STR, set_str lval v)
            end
        | _ => ret (tok, set_str lval v)
        end
  end.

(** The generated parser calls [Lex] once per token until it is handed
    the end-of-input token. [lexStream calls] is that loop, cut after
    [calls] tokens: every token with the value cell as the call left it. *)
Fixpoint lexStream (calls fuel : nat) (lval : yySymType) (s : Scanner)
  : Res (list (Token * yySymType)) :=
  match calls with
  | O => Done [] s
  | S k =>
      match mainLex fuel lval s with
      | Done (tok, lval') s' =>
          match tok with
          | Char (-1) => Done [(tok, lval')] s'
          | _ =>
              match lexStream k fuel lval' s' with
              | Done toks s'' => Done ((tok, lval') :: toks) s''
              | Fail e => Fail e
              | Timeout => Timeout
              end
          end
      | Fail e => Fail e
      | Timeout => Timeout
      end
  end.

(* ------------------------------------------------------------------ *)
(** ** The AST and its walker *)

(** Modelled from the spec: the node declarations are not among the
    sources. A [Node] is a Go interface value: [Nil] is the nil
    interface, the other constructors are the node kinds of [Walk]'s type
    switch, with the fields [Walk] reads; [Leaf] stands for every node
    kind the switch has no case for (a composite word and its
    fragments). A nil slice and an empty slice both have length 0, so
    both are the empty list. *)
Inductive Node : Type :=
| Nil
| Leaf (e : StrExpr)
| Exprs (n : list Node)
| Stmts (n : list Node)
| CmdStmt (Cmd : Node) (Args : list Node)
| BeginStmt (Body : list Node)
| IfStmt (Cond : Node) (Body : list Node) (Else : list Node)
| FunctionStmt (Args : list Node) (Body : list Node)
| PipeStmt (Lhs : Node) (Rhs : Node)
| RedirectStmt (Lhs : Node) (Rhs : Node).

Section Walker.

(** Whatever the callbacks read and write besides their argument. *)
Variable St : Type.

(** [type Visitor func(Node) Visitor]: the non-nil visitors are the
    elements of [V], [call v node] is the Go call [v(node)], which may
    change the state and returns the next visitor; [None] is the nil
    [Visitor]. *)
Variable V : Type.
Variable call : V -> Node -> St -> St * option V.

(** The state of a walk: the callbacks' state and, for the properties,
    the argument of every callback invocation so far, oldest first (the
    exit marker is the argument [Nil]). *)
Record World : Type := mkWorld { user : St; trace : list Node }.

(** A walk returns, or panics on the call of a nil function value. *)
Inductive WRes (A : Type) : Type :=
| Ret (a : A) (w : World)
| Panic (w : World).
Arguments Ret {A} a w.
Arguments Panic {A} w.

Definition W (A : Type) : Type := World -> WRes A.

Definition retW {A} (a : A) : W A := fun w => Ret a w.
Definition bindW {A B} (c : W A) (k : A -> W B) : W B :=
  fun w => match c w with
           | Ret a w' => k a w'
           | Panic w' => Panic w'
           end.

(** The Go call [v(node)]. *)
Definition invoke (v : option V) (node : Node) : W (option V) :=
  fun w =>
    match v with
    | None => Panic w
    | Some c =>
        let (st', f) := call c node (user w) in
        Ret f {| user := st'; trace := trace w ++ [node] |}
    end.

(** [for _, e := range n { Walk(f, e) }] *)
Definition forEach (walk : option V -> Node -> W unit) (f : option V)
  : list Node -> W unit :=
  fix each (n : list Node) : W unit :=
    match n with
    | [] => retW tt
    | e :: tl => bindW (walk f e) (fun _ => each tl)
    end.

(** What [Walk(f, box)] does when [box] is the sequence node [Exprs n]
    or [Stmts n]; [Walk] below needs it for the sequences it boxes
    itself with [Exprs(n.Args)] and [Stmts(n.Body)]. *)
Definition walkBox (walk : option V -> Node -> W unit) (f : option V)
  (box : Node) (n : list Node) : W unit :=
  bindW (invoke f box) (fun g =>
  bindW (forEach walk g n) (fun _ =>
  bindW (invoke f Nil) (fun _ => retW tt))).

(** The guard of [walkStmts] and [walkExprs]. *)
Definition ifNonEmpty (n : list Node) (c : W unit) : W unit :=
  if (0 <? length n)%nat then c else retW tt.

Fixpoint Walk (v : option V) (node : Node) {struct node} : W unit :=
  match node with
  | Nil => retW tt
  | _ =>
      bindW (invoke v node) (fun f =>
      bindW
        match node with
        | Exprs n => forEach Walk f n
        | Stmts n => forEach Walk f n
        | CmdStmt cmd args =>
            bindW (Walk f cmd) (fun _ =>
            ifNonEmpty args (walkBox Walk f (Exprs args) args))
        | BeginStmt body =>
            walkBox Walk f (Stmts body) body
        | IfStmt cond body els =>
            bindW (Walk f cond) (fun _ =>
            bindW (ifNonEmpty body (walkBox Walk f (Stmts body) body)) (fun _ =>
            ifNonEmpty els (walkBox Walk f (Stmts els) els)))
        | FunctionStmt args body =>
            bindW (ifNonEmpty args (walkBox Walk f (Exprs args) args)) (fun _ =>
            ifNonEmpty body (walkBox Walk f (Stmts body) body))
        | PipeStmt lhs rhs =>
            bindW (Walk f lhs) (fun _ => Walk f rhs)
        | RedirectStmt lhs rhs =>
            bindW (Walk f lhs) (fun _ => Walk f rhs)
        | _ => retW tt
        end (fun _ =>
      bindW (invoke v Nil) (fun _ => retW tt)))
  end.

Definition walkStmts (f : option V) (stmts : list Node) : W unit :=
  if (0 <? length stmts)%nat then Walk f (Stmts stmts) else retW tt.

Definition walkExprs (f : option V) (exprs : list Node) : W unit :=
  if (0 <? length exprs)%nat then Walk f (Exprs exprs) else retW tt.

End Walker.

Arguments mkWorld {St} user trace.
Arguments user {St} w.
Arguments trace {St} w.
Arguments Ret {St A} a w.
Arguments Panic {St A} w.
Arguments Walk {St V} call v node w.
Arguments walkStmts {St V} call f stmts w.
Arguments walkExprs {St V} call f exprs w.
Arguments invoke {St V} call v node w.
Arguments retW {St A} a w.
Arguments bindW {St A B} c k w.
Arguments forEach {St V} walk f n w : rename.
Arguments walkBox {St V} call walk f box n w.
Arguments ifNonEmpty {St} n c w.

(** [type inspector func(Node) bool], a callback that may also touch the
    state. *)
Definition inspector (St : Type) : Type := Node -> St -> St * bool.

(** [func (f inspector) visit(node Node) Visitor]: the visitor [f.visit]
    is kept as [f] itself, so "return f.visit" is [Some f]. *)
Definition visit {St} (f : inspector St) (node : Node) (st : St)
  : St * option (inspector St) :=
  let (st', descend) := f node st in
  (st', if descend then Some f else None).

Definition Inspect {St} (node : Node) (f : inspector St) : W St unit :=
  Walk visit (Some f) node.

(* ------------------------------------------------------------------ *)
(** ** Vocabulary of the properties *)

(** The longest prefix of [l] whose runes satisfy [p], and what follows it. *)
Fixpoint takeRun (p : rune -> bool) (l : list rune) : list rune :=
  match l with
  | [] => []
  | c :: tl => if p c then c :: takeRun p tl else []
  end.

Fixpoint dropRun (p : rune -> bool) (l : list rune) : list rune :=
  match l with
  | [] => []
  | c :: tl => if p c then dropRun p tl else l
  end.

(** The scanner after a routine consumed the run [run] and left [rest]. *)
Definition after (s : Scanner) (run rest : list rune) : Scanner :=
  {| src := rest; offset := offset s + Z.of_nat (length run) |}.

(** The value of a run of decimal digits, most significant first. *)
Definition decimal (l : list rune) : Z :=
  fold_left (fun acc c => acc * 10 + (c - r "0")) l 0.

Definition isIdent (f : Fragment) : bool :=
  match f with Ident _ _ => true | _ => false end.

(** The text of a word made of literal fragments only. *)
Definition identText (e : StrExpr) : list rune :=
  flat_map (fun f => match f with Ident _ name => name | _ => [] end) e.

Definition fragmentHas (c : rune) (f : Fragment) : Prop :=
  match f with Ident _ name => In c name | _ => False end.

(** No literal fragment of a word holds the rune [c]. *)
Definition lacks (c : rune) (e : StrExpr) : Prop :=
  Forall (fun f => ~ fragmentHas c f) e.

(** A routine returned or failed within its budget, and a routine that
    returned did not move the scanner backwards ([ends]), or moved it
    forward ([advances]). *)
Definition ends {A} (res : Res A) (s : Scanner) : Prop :=
  match res with
  | Done _ s' => (length (src s') <= length (src s))%nat
  | Fail _ => True
  | Timeout => False
  end.

Definition advances {A} (res : Res A) (s : Scanner) : Prop :=
  match res with
  | Done _ s' => (length (src s') < length (src s))%nat
  | Fail _ => True
  | Timeout => False
  end.

(** After the blanks, the input starts a comment that no newline ends. *)
Definition unterminatedComment (s : Scanner) : Prop :=
  exists body, dropRun isBrank (src s) = r "#" :: body /\ ~ In newline body.

(** Text made of empty quoted regions only: two double quotes or two
    single quotes, any number of times. *)
Inductive emptyQuotes : list rune -> Prop :=
| emptyQuotes_nil : emptyQuotes []
| emptyQuotes_double (w : list rune) :
    emptyQuotes w -> emptyQuotes (dquote :: dquote :: w)
| emptyQuotes_single (w : list rune) :
    emptyQuotes w -> emptyQuotes (squote :: squote :: w).

(** The token codes of a lexed stream. *)
Definition tokensOf (res : Res (list (Token * yySymType))) : option (list Token) :=
  match res with
  | Done toks _ => Some (map fst toks)
  | _ => None
  end.

(** The lookahead characters that [mainLex] hands to [scanStrs]. *)
Definition startsWord (c : rune) : bool :=
  negb ((c =? EOF) || (c =? r "#") || (c =? r ">") || (c =? r "^") ||
        (c =? r ";") || (c =? newline) || (c =? r "|") || (c =? r "<")).

(** Entry invocations (the callback applied to a node) and exit
    invocations (the callback applied to the exit marker) of a trace. *)
Definition isExit (n : Node) : bool :=
  match n with Nil => true | _ => false end.

Definition entries (t : list Node) : nat := length (filter (fun n => negb (isExit n)) t).
Definition exits (t : list Node) : nat := length (filter isExit t).

(** Well-formed bracketing of a trace read from [depth] open entries:
    no exit without an open entry, and nothing left open at the end. *)
Fixpoint bracketed (depth : nat) (t : list Node) : bool :=
  match t with
  | [] => (depth =? 0)%nat
  | Nil :: tl => match depth with
                 | O => false
                 | S d => bracketed d tl
                 end
  | _ :: tl => bracketed (S depth) tl
  end.

(** The same as a grammar: a sequence of entry/exit pairs, each around a
    well-bracketed trace. *)
Inductive Bracketed : list Node -> Prop :=
| Bracketed_nil : Bracketed []
| Bracketed_pair (n : Node) (inner rest : list Node) :
    isExit n = false -> Bracketed inner -> Bracketed rest ->
    Bracketed (n :: inner ++ Nil :: rest).

(** A walk step that returns, having appended a well-bracketed trace;
    and one whose trace is the entry of [node], a well-bracketed trace
    and the exit. *)
Definition traced {St} (c : W St unit) : Prop :=
  forall w, exists st' t,
    c w = Ret tt (mkWorld st' (trace w ++ t)) /\ Bracketed t.

Definition paired {St} (node : Node) (c : W St unit) : Prop :=
  forall w, exists st' inner,
    c w = Ret tt (mkWorld st' (trace w ++ node :: inner ++ [Nil])) /\
    Bracketed inner.

Definition walksWell {St V} (call : V -> Node -> St -> St * option V)
  (keeps : V -> Prop) (node : Node) : Prop :=
  forall v,
    keeps v ->
    traced (Walk call (Some v) node) /\
    (isExit node = false -> paired node (Walk call (Some v) node)).

(* ------------------------------------------------------------------ *)
(** ** The rest of the lexer's interface, and more vocabulary *)

(** [Lexer.Lex]: the entry point the generated parser calls. It returns
    the token of [mainLex] and panics with the error [mainLex] returns. *)
Inductive LexRes : Type :=
| Lexed (tok : Token) (lval : yySymType) (s : Scanner)
| LexPanic (e : Error)
| LexTimeout.

Definition Lex (fuel : nat) (lval : yySymType) (s : Scanner) : LexRes :=
  match mainLex fuel lval s with
  | Done (tok, lval') s' => Lexed tok lval' s'
  | Fail err => LexPanic err
  | Timeout => LexTimeout
  end.

(** From [s] to [s'] exactly the runes [pre] were consumed. *)
Definition reads (s : Scanner) (pre : list rune) (s' : Scanner) : Prop :=
  src s = pre ++ src s' /\ offset s' = offset s + Z.of_nat (length pre).

(** [s'] lies ahead of [s] on the same input. *)
Definition ahead (s s' : Scanner) : Prop := exists pre, reads s pre s'.

(** The source text of a fragment inside a double-quoted region, and of
    a sequence of fragments. *)
Definition renderFragment (f : Fragment) : list rune :=
  match f with
  | Ident _ name => name
  | VarExpr _ name => r "$" :: name
  | FD _ _ => []
  end.

Definition render (e : StrExpr) : list rune := flat_map renderFragment e.

(** A fragment as a word holds it: literal text or a variable reference,
    with a name that is not empty, made of name characters for a
    variable. *)
Definition wordFragment (f : Fragment) : Prop :=
  match f with
  | Ident _ name => name <> []
  | VarExpr _ name => name <> [] /\ Forall (fun c => isVarChar c = true) name
  | FD _ _ => False
  end.

(** A fragment of a quoted region or a word whose literal text passes
    the test [p]: an [Ident] with a non-empty name of such runes, or a
    variable reference with a non-empty name of name characters. *)
Definition fragmentOver (p : rune -> bool) (f : Fragment) : Prop :=
  match f with
  | Ident _ name => name <> [] /\ Forall (fun c => p c = true) name
  | VarExpr _ name => name <> [] /\ Forall (fun c => isVarChar c = true) name
  | FD _ _ => False
  end.

(** The fragments of a region whose text between the quotes is [body],
    all literal, scanned from position [pos]. *)
Definition literal (pos : Position) (body : list rune) : StrExpr :=
  match body with
  | [] => []
  | _ => [Ident pos body]
  end.

(** The characters an error of the lexer is raised for. *)
Definition blame (e : Error) (input : list rune) : Prop :=
  match e with
  | UnexpectedEOF => In dquote input \/ In squote input
  | ExpectIdentError =>
      In backslash input /\ (In dquote input \/ In squote input)
  | ExpectVarNameError => In (r "$") input
  | AtoiError _ => In (r "&") input
  end.

(** The special characters at which [scanStrs] ends a word without
    looking further: all of [specials] but [$], the quotes and the
    parentheses. *)
Definition endsWord (c : rune) : bool :=
  isSpecialChar c &&
  negb ((c =? r "$") || (c =? dquote) || (c =? squote) ||
        (c =? r ")") || (c =? r "(")).

(** The tokens [scanStrs] returns. *)
Definition wordToken (tok : Token) : Prop :=
  tok = STR \/ tok = Char (r "(") \/ tok = Char (r ")") \/
  tok = STR_AND_LEFT_PAREN \/ tok = RIGHT_PAREN_AND_STR \/
  tok = RIGHT_PAREN_AND_STR_AND_LEFT_PAREN.

(** What a token says about the value cell that [mainLex] leaves: a
    to-fd redirect has put one file descriptor, the close sentinel -1 or
    a number an [int] holds, into [expr]; a word token has put its word
    into [str], a bare parenthesis an empty word; every other token
    (punctuation, end of input, keywords, the other redirects) has left
    the cell as it was. *)
Definition carries (tok : Token) (lval lval' : yySymType) : Prop :=
  match tok with
  | REDIRECT_TO_FD | ERR_REDIRECT_TO_FD =>
      exists pos n,
        lval' = set_expr lval [FD pos n] /\ (n = -1 \/ 0 <= n <= maxInt)
  | STR | STR_AND_LEFT_PAREN | RIGHT_PAREN_AND_STR
  | RIGHT_PAREN_AND_STR_AND_LEFT_PAREN =>
      exists v, lval' = set_str lval v /\ Forall wordFragment v
  | Char c =>
      (In c [r "("; r ")"] /\ lval' = set_str lval []) \/
      (In c [EOF; r ">"; r "^"; r ";"; newline; r "|"; r "<"] /\ lval' = lval)
  | IF | ELSE | BEGIN | END | FUNCTION
  | APPEND_REDIRECT | APPEND_ERR_REDIRECT => lval' = lval
  end.

(** The callback invocations of a complete walk, read off the tree:
    entry, the children in the order of [Walk]'s cases (a sequence that
    [walkStmts] or [walkExprs] guards only when it is not empty), exit. *)
Fixpoint events (node : Node) : list Node :=
  let box (b : Node) (n : list Node) := b :: flat_map events n ++ [Nil] in
  let guarded (b : Node) (n : list Node) :=
    if (0 <? length n)%nat then box b n else [] in
  match node with
  | Nil => []
  | Leaf _ => [node; Nil]
  | Exprs n => box node n
  | Stmts n => box node n
  | CmdStmt cmd args => node :: (events cmd ++ guarded (Exprs args) args) ++ [Nil]
  | BeginStmt body => node :: box (Stmts body) body ++ [Nil]
  | IfStmt cond body els =>
      node :: (events cond ++ guarded (Stmts body) body
                           ++ guarded (Stmts els) els) ++ [Nil]
  | FunctionStmt args body =>
      node :: (guarded (Exprs args) args ++ guarded (Stmts body) body) ++ [Nil]
  | PipeStmt lhs rhs => node :: (events lhs ++ events rhs) ++ [Nil]
  | RedirectStmt lhs rhs => node :: (events lhs ++ events rhs) ++ [Nil]
  end.

(** A walk step that returns with exactly the trace [t] appended and,
    when every visitor has the effect [step] on the state, with the state
    that [step] gives along [t]. *)
Definition tracedAs {St V} (call : V -> Node -> St -> St * option V)
  (keeps : V -> Prop) (step : Node -> St -> St) (t : list Node)
  (c : W St unit) : Prop :=
  forall w, exists st',
    c w = Ret tt (mkWorld st' (trace w ++ t)) /\
    ((forall v node st, keeps v -> fst (call v node st) = step node st) ->
     st' = fold_left (fun st node => step node st) t (user w)).

(** A node [Walk] has nothing to descend into: no child that is not nil
    and no sequence that is walked. *)
Definition childless (node : Node) : bool :=
  match node with
  | Nil | Leaf _ | Exprs [] | Stmts [] => true
  | CmdStmt Nil [] | IfStmt Nil [] [] | FunctionStmt [] [] => true
  | PipeStmt Nil Nil | RedirectStmt Nil Nil => true
  | _ => false
  end.

(* ------------------------------------------------------------------ *)
(** ** The character source and the run loops *)

Lemma Peek_cons (c : rune) (l : list rune) (o : Position) :
  Peek {| src := c :: l; offset := o |} = c.
Proof. reflexivity. Qed.

Lemma Next_cons (c : rune) (l : list rune) (o : Position) :
  Next {| src := c :: l; offset := o |} = {| src := l; offset := o + 1 |}.
Proof. reflexivity. Qed.

Lemma Next_length (s : Scanner) :
  (length (src (Next s)) <= length (src s))%nat.
Proof. unfold Next; destruct (src s) eqn:E; simpl; rewrite ?E; simpl; lia. Qed.

Lemma take_drop_run (p : rune -> bool) (l : list rune) :
  takeRun p l ++ dropRun p l = l.
Proof.
  induction l as [|c tl IH]; simpl; [reflexivity|].
  destruct (p c); simpl; [now rewrite IH | reflexivity].
Qed.

Lemma takeRun_Forall (p : rune -> bool) (l : list rune) :
  Forall (fun c => p c = true) (takeRun p l).
Proof.
  induction l as [|c tl IH]; simpl; [constructor|].
  destruct (p c) eqn:E; [constructor; assumption | constructor].
Qed.

Lemma dropRun_length (p : rune -> bool) (l : list rune) :
  (length (dropRun p l) <= length l)%nat.
Proof.
  induction l as [|c tl IH]; simpl; [lia|].
  destruct (p c); simpl; lia.
Qed.

(** A run stops at the first rune that fails [p], whatever precedes it. *)
Lemma dropRun_stop (p : rune -> bool) (pre : list rune) (b : rune) (rest : list rune) :
  p b = false ->
  dropRun p (pre ++ b :: rest) = dropRun p pre ++ b :: rest.
Proof.
  intros Hb; induction pre as [|c tl IH]; simpl.
  - now rewrite Hb.
  - destruct (p c); [exact IH | reflexivity].
Qed.

Lemma takeRun_stop (p : rune -> bool) (pre : list rune) (b : rune) (rest : list rune) :
  p b = false ->
  takeRun p (pre ++ b :: rest) = takeRun p pre.
Proof.
  intros Hb; induction pre as [|c tl IH]; simpl.
  - now rewrite Hb.
  - destruct (p c); [now rewrite IH | reflexivity].
Qed.

Lemma dropRun_incl (p : rune -> bool) (l : list rune) (c : rune) :
  In c (dropRun p l) -> In c l.
Proof.
  induction l as [|d tl IH]; simpl; [tauto|].
  destruct (p d); simpl; tauto.
Qed.

(** With more budget than input left, a run loop whose test fails on
    [EOF] returns the run and stops in front of the first other rune. *)
Lemma scanRun_done (p : rune -> bool) :
  p EOF = false ->
  forall fuel acc s,
    (length (src s) < fuel)%nat ->
    scanRun p fuel acc s
    = Done (acc ++ takeRun p (src s))
           (after s (takeRun p (src s)) (dropRun p (src s))).
Proof.
  intros HE; induction fuel as [|n IH]; intros acc [l o] Hlen; simpl in *; [lia|].
  destruct l as [|c tl]; simpl.
  - unfold Peek; simpl. rewrite HE, app_nil_r. unfold after; simpl.
    now rewrite Z.add_0_r.
  - rewrite Peek_cons, Next_cons. destruct (p c) eqn:E.
    + rewrite IH by (simpl in *; lia). simpl. rewrite <- app_assoc. simpl.
      unfold after; simpl. do 2 f_equal. lia.
    + rewrite app_nil_r. unfold after; simpl. now rewrite Z.add_0_r.
Qed.

Lemma skipRun_done (p : rune -> bool) :
  forall fuel s,
    p EOF = false \/ dropRun p (src s) <> [] ->
    (length (src s) < fuel)%nat ->
    skipRun p fuel s
    = Done tt (after s (takeRun p (src s)) (dropRun p (src s))).
Proof.
  induction fuel as [|n IH]; intros [l o] Hstop Hlen; simpl in *; [lia|].
  destruct l as [|c tl]; simpl.
  - unfold Peek; simpl. destruct Hstop as [HE|Hne]; [|now elim Hne].
    rewrite HE. unfold after; simpl. now rewrite Z.add_0_r.
  - rewrite Peek_cons, Next_cons. simpl in Hstop. destruct (p c) eqn:E.
    + rewrite IH by (simpl in *; (assumption || lia)). simpl.
      unfold after; simpl. do 2 f_equal. lia.
    + unfold after; simpl. now rewrite Z.add_0_r.
Qed.

(** Whatever the budget, the runes a run loop collects satisfy its test. *)
Lemma scanRun_Forall (p : rune -> bool) (P : rune -> Prop) :
  (forall c, p c = true -> P c) ->
  forall fuel acc s run s',
    Forall P acc ->
    scanRun p fuel acc s = Done run s' ->
    Forall P run.
Proof.
  intros HP; induction fuel as [|n IH]; intros acc s run s' Hacc H; simpl in H.
  - discriminate.
  - destruct (p (Peek s)) eqn:E.
    + eapply IH; [|exact H]. apply Forall_app; split; [assumption|].
      constructor; [auto | constructor].
    + now inversion H; subst.
Qed.

(** A loop whose test holds on [EOF] never leaves the end of the input. *)
Lemma skipRun_stuck (p : rune -> bool) :
  forall fuel s,
    Forall (fun c => p c = true) (src s) -> p EOF = true ->
    skipRun p fuel s = Timeout.
Proof.
  induction fuel as [|n IH]; intros [l o] Hall HE; simpl; [reflexivity|].
  destruct l as [|c tl].
  - unfold Peek; simpl. rewrite HE. apply IH; [constructor | assumption].
  - rewrite Peek_cons, Next_cons. inversion Hall; subst.
    replace (p c) with true by (symmetry; assumption).
    apply IH; assumption.
Qed.

(* ------------------------------------------------------------------ *)
(** ** The run scanners *)

Ltac run_scanner lem :=
  intros; cbv [bind getPos next ret fail];
  rewrite lem by (try reflexivity; simpl; lia);
  destruct (takeRun _ _) as [|c0 run0] eqn:Erun; simpl;
  [reflexivity | rewrite <- Erun; reflexivity].

Lemma scanSingleQuotedIdent_spec (fuel : nat) (s : Scanner) :
  (length (src s) < fuel)%nat ->
  scanSingleQuotedIdent fuel s
  = match takeRun isSingleQuotedIdentChar (src s) with
    | [] => Fail ExpectIdentError
    | run => Done (Ident (Pos s) run)
                  (after s run (dropRun isSingleQuotedIdentChar (src s)))
    end.
Proof. unfold scanSingleQuotedIdent. run_scanner scanRun_done. Qed.

Lemma scanDoubleQuotedIdent_spec (fuel : nat) (s : Scanner) :
  (length (src s) < fuel)%nat ->
  scanDoubleQuotedIdent fuel s
  = match takeRun isDoubleQuotedIdentChar (src s) with
    | [] => Fail ExpectIdentError
    | run => Done (Ident (Pos s) run)
                  (after s run (dropRun isDoubleQuotedIdentChar (src s)))
    end.
Proof. unfold scanDoubleQuotedIdent. run_scanner scanRun_done. Qed.

Lemma scanIdent_spec (fuel : nat) (s : Scanner) :
  (length (src s) < fuel)%nat ->
  scanIdent fuel s
  = match takeRun isIdentChar (src s) with
    | [] => Fail ExpectIdentError
    | run => Done (Ident (Pos s) run)
                  (after s run (dropRun isIdentChar (src s)))
    end.
Proof. unfold scanIdent. run_scanner scanRun_done. Qed.

Lemma scanVar_spec (fuel : nat) (s : Scanner) :
  (length (src s) < fuel)%nat ->
  scanVar fuel s
  = match takeRun isVarChar (src (Next s)) with
    | [] => Fail ExpectVarNameError
    | run => Done (VarExpr (Pos s) run)
                  (after (Next s) run (dropRun isVarChar (src (Next s))))
    end.
Proof.
  intros H. unfold scanVar. cbv [bind getPos next ret fail].
  rewrite scanRun_done by (try reflexivity; pose proof (Next_length s); lia).
  destruct (takeRun _ _) as [|c0 run0] eqn:Erun; simpl;
    [reflexivity | rewrite <- Erun; reflexivity].
Qed.

Lemma takeRun_Peek_false (p : rune -> bool) (s : Scanner) :
  p (Peek s) = false -> takeRun p (src s) = [].
Proof.
  unfold Peek. destruct (src s) as [|c tl]; simpl; [reflexivity|].
  now intros ->.
Qed.

(* ------------------------------------------------------------------ *)
(** ** Backslash inside quotes *)

Section Backslash.

Variable rest : list rune.

Lemma Peek_app_EOF (pre : list rune) (o : Position) :
  ~ In EOF pre ->
  (Peek {| src := pre ++ backslash :: rest; offset := o |} =? EOF) = false.
Proof.
  intros H. destruct pre as [|c pre']; [reflexivity|].
  apply Z.eqb_neq. intros E. apply H. left. exact E.
Qed.

(** The loop of [scanSingleQuoted] in front of a backslash that no
    closing quote precedes: it ends in the "expected IDENT" error. *)
Lemma scanSingleQuoted_loop_backslash :
  forall fuel pre acc o,
    ~ In squote pre -> ~ In EOF pre ->
    (length (pre ++ backslash :: rest) + 1 < fuel)%nat ->
    scanSingleQuoted_loop fuel acc
      {| src := pre ++ backslash :: rest; offset := o |}
    = Fail ExpectIdentError.
Proof.
  induction fuel as [|n IH]; intros pre acc o Hq He Hlen; [lia|].
  cbn [scanSingleQuoted_loop]. rewrite Peek_app_EOF by exact He.
  set (s := {| src := pre ++ backslash :: rest; offset := o |}) in *.
  assert (Hdefault :
    isSingleQuotedIdentChar (Peek s) = false ->
    (ident <- scanSingleQuotedIdent n ;;
     scanSingleQuoted_loop n (acc ++ [ident])) s = Fail ExpectIdentError).
  { intros E2. unfold bind.
    rewrite scanSingleQuotedIdent_spec by (subst s; cbn [src]; lia).
    now rewrite takeRun_Peek_false. }
  destruct (isSingleQuotedIdentChar (Peek s)) eqn:E2.
  - destruct pre as [|c pre']; [discriminate E2|].
    unfold bind. rewrite scanSingleQuotedIdent_spec by (subst s; cbn [src]; lia).
    subst s. rewrite <- app_comm_cons in *. rewrite Peek_cons in E2.
    cbn [src takeRun]. rewrite E2. unfold after. cbn [dropRun]. rewrite E2.
    rewrite dropRun_stop by reflexivity.
    apply IH.
    + intros Hin. apply Hq. right. eapply dropRun_incl; exact Hin.
    + intros Hin. apply He. right. eapply dropRun_incl; exact Hin.
    + pose proof (dropRun_length isSingleQuotedIdentChar pre') as Hd.
      cbn [length] in *. rewrite !length_app in *. cbn [length] in *. lia.
  - destruct (Peek s =? squote) eqn:E3; [|now apply Hdefault].
    exfalso. apply Z.eqb_eq in E3. destruct pre as [|c pre'].
    + discriminate E3.
    + apply Hq. left. subst s. exact E3.
Qed.

(** The same for the loop of [scanDoubleQuoted], which may also stop
    before the backslash, at a [$] that no variable name follows. *)
Lemma scanDoubleQuoted_loop_backslash :
  forall fuel pre acc o,
    ~ In dquote pre -> ~ In EOF pre ->
    (length (pre ++ backslash :: rest) + 1 < fuel)%nat ->
    let res := scanDoubleQuoted_loop fuel acc
                 {| src := pre ++ backslash :: rest; offset := o |} in
    res = Fail ExpectIdentError \/ res = Fail ExpectVarNameError.
Proof.
  induction fuel as [|n IH]; intros pre acc o Hq He Hlen; [lia|].
  cbn [scanDoubleQuoted_loop]. rewrite Peek_app_EOF by exact He.
  set (s := {| src := pre ++ backslash :: rest; offset := o |}) in *.
  assert (Hdefault :
    isDoubleQuotedIdentChar (Peek s) = false ->
    (ident <- scanDoubleQuotedIdent n ;;
     scanDoubleQuoted_loop n (acc ++ [ident])) s = Fail ExpectIdentError).
  { intros E2. unfold bind.
    rewrite scanDoubleQuotedIdent_spec by (subst s; cbn [src]; lia).
    now rewrite takeRun_Peek_false. }
  destruct (isDoubleQuotedIdentChar (Peek s)) eqn:E2.
  - destruct pre as [|c pre']; [discriminate E2|].
    unfold bind. rewrite scanDoubleQuotedIdent_spec by (subst s; cbn [src]; lia).
    subst s. rewrite <- app_comm_cons in *. rewrite Peek_cons in E2.
    cbn [src takeRun]. rewrite E2. unfold after. cbn [dropRun]. rewrite E2.
    rewrite dropRun_stop by reflexivity.
    apply IH.
    + intros Hin. apply Hq. right. eapply dropRun_incl; exact Hin.
    + intros Hin. apply He. right. eapply dropRun_incl; exact Hin.
    + pose proof (dropRun_length isDoubleQuotedIdentChar pre') as Hd.
      cbn [length] in *. rewrite !length_app in *. cbn [length] in *. lia.
  - destruct (Peek s =? r "$") eqn:E4.
    + destruct pre as [|c pre']; [discriminate E4|].
      unfold bind. rewrite scanVar_spec by (subst s; cbn [src]; lia).
      subst s. rewrite <- app_comm_cons, Next_cons. cbn [src].
      rewrite takeRun_stop, dropRun_stop by reflexivity.
      destruct (takeRun isVarChar pre') as [|v vs]; [now right|].
      apply IH.
      * intros Hin. apply Hq. right. eapply dropRun_incl; exact Hin.
      * intros Hin. apply He. right. eapply dropRun_incl; exact Hin.
      * pose proof (dropRun_length isVarChar pre') as Hd.
        cbn [length] in *. rewrite !length_app in *. cbn [length] in *. lia.
    + destruct (Peek s =? dquote) eqn:E3; [|left; now apply Hdefault].
      exfalso. apply Z.eqb_eq in E3. destruct pre as [|c pre'].
      * discriminate E3.
      * apply Hq. left. subst s. exact E3.
Qed.

End Backslash.

Lemma lacks_snoc (c : rune) (e : StrExpr) (f : Fragment) :
  lacks c e -> ~ fragmentHas c f -> lacks c (e ++ [f]).
Proof.
  intros He Hf. apply Forall_app; split; [exact He|].
  constructor; [exact Hf | constructor].
Qed.

Lemma run_lacks (p : rune -> bool) (c : rune) (fuel : nat) (s s' : Scanner)
  (run : list rune) :
  p c = false ->
  scanRun p fuel [] s = Done run s' ->
  ~ In c run.
Proof.
  intros Hp H Hin.
  assert (HF : Forall (fun d => d <> c) run).
  { eapply scanRun_Forall with (p := p); [| constructor | exact H].
    intros d Hd ->. congruence. }
  rewrite Forall_forall in HF. exact (HF c Hin eq_refl).
Qed.

Ltac ident_lacks :=
  intros ? ? ? ? H; cbv [bind getPos next ret fail] in H;
  match type of H with
  | context [scanRun ?p ?fuel [] ?s] =>
      destruct (scanRun p fuel [] s) as [run s1| |] eqn:Erun; try discriminate H;
      destruct (length run =? 0)%nat; try discriminate H;
      inversion H; subst; simpl;
      eapply run_lacks; [| exact Erun]; reflexivity
  end.

Lemma scanSingleQuotedIdent_lacks :
  forall fuel s f s',
    scanSingleQuotedIdent fuel s = Done f s' -> ~ fragmentHas backslash f.
Proof. unfold scanSingleQuotedIdent. ident_lacks. Qed.

Lemma scanDoubleQuotedIdent_lacks :
  forall fuel s f s',
    scanDoubleQuotedIdent fuel s = Done f s' -> ~ fragmentHas backslash f.
Proof. unfold scanDoubleQuotedIdent. ident_lacks. Qed.

Lemma scanVar_lacks :
  forall fuel s f s' c,
    scanVar fuel s = Done f s' -> ~ fragmentHas c f.
Proof.
  intros fuel s f s' c H. unfold scanVar in H. cbv [bind getPos next ret fail] in H.
  destruct (scanRun _ _ _ _) as [run s1| |]; try discriminate H.
  destruct (length run =? 0)%nat; try discriminate H.
  inversion H; subst; simpl. tauto.
Qed.

Lemma scanSingleQuoted_loop_lacks :
  forall fuel acc s e s',
    lacks backslash acc ->
    scanSingleQuoted_loop fuel acc s = Done e s' ->
    lacks backslash e.
Proof.
  induction fuel as [|n IH]; intros acc s e s' Hacc H; [discriminate H|].
  cbn [scanSingleQuoted_loop] in H.
  assert (Hident :
    (ident <- scanSingleQuotedIdent n ;;
     scanSingleQuoted_loop n (acc ++ [ident])) s = Done e s' ->
    lacks backslash e).
  { unfold bind. destruct (scanSingleQuotedIdent n s) as [f s1| |] eqn:Ef;
      try discriminate. intros H1. eapply IH; [| exact H1].
    apply lacks_snoc; [exact Hacc|]. eapply scanSingleQuotedIdent_lacks; exact Ef. }
  destruct (Peek s =? EOF); [discriminate H|].
  destruct (isSingleQuotedIdentChar (Peek s)); [now apply Hident|].
  destruct (Peek s =? squote); [| now apply Hident].
  cbv [bind next ret] in H. now inversion H; subst.
Qed.

Lemma scanDoubleQuoted_loop_lacks :
  forall fuel acc s e s',
    lacks backslash acc ->
    scanDoubleQuoted_loop fuel acc s = Done e s' ->
    lacks backslash e.
Proof.
  induction fuel as [|n IH]; intros acc s e s' Hacc H; [discriminate H|].
  cbn [scanDoubleQuoted_loop] in H.
  assert (Hident :
    (ident <- scanDoubleQuotedIdent n ;;
     scanDoubleQuoted_loop n (acc ++ [ident])) s = Done e s' ->
    lacks backslash e).
  { unfold bind. destruct (scanDoubleQuotedIdent n s) as [f s1| |] eqn:Ef;
      try discriminate. intros H1. eapply IH; [| exact H1].
    apply lacks_snoc; [exact Hacc|]. eapply scanDoubleQuotedIdent_lacks; exact Ef. }
  destruct (Peek s =? EOF); [discriminate H|].
  destruct (isDoubleQuotedIdentChar (Peek s)); [now apply Hident|].
  destruct (Peek s =? r "$").
  - unfold bind in H. destruct (scanVar n s) as [f s1| |] eqn:Ef;
      try discriminate. eapply IH; [| exact H].
    apply lacks_snoc; [exact Hacc|]. eapply scanVar_lacks; exact Ef.
  - destruct (Peek s =? dquote); [| now apply Hident].
    cbv [bind next ret] in H. now inversion H; subst.
Qed.

(** C1, as amended: a backslash inside a quoted region is not scanned as
    a literal. When a backslash comes before the closing quote, the scan
    of the region ends in an error: [scanSingleQuoted] returns the
    "expected IDENT" error, [scanDoubleQuoted] returns it too unless it
    has stopped earlier, at a [$] that no variable name follows. And no
    literal fragment that either quote scanner returns ever holds a
    backslash. *)
Theorem quoted_backslash_is_rejected (pre rest : list rune) (o : Position)
  (fuel : nat) :
  (length (pre ++ backslash :: rest) + 1 < fuel)%nat ->
  ~ In EOF pre ->
  (~ In squote pre ->
   scanSingleQuoted fuel
     {| src := squote :: pre ++ backslash :: rest; offset := o |}
   = Fail ExpectIdentError) /\
  (~ In dquote pre ->
   let res := scanDoubleQuoted fuel
                {| src := dquote :: pre ++ backslash :: rest; offset := o |} in
   res = Fail ExpectIdentError \/ res = Fail ExpectVarNameError) /\
  (forall budget s e s',
      scanSingleQuoted budget s = Done e s' \/
      scanDoubleQuoted budget s = Done e s' ->
      lacks backslash e).
Proof.
  intros Hfuel He. split; [|split].
  - intros Hq. unfold scanSingleQuoted. cbv [bind next]. rewrite Next_cons.
    now apply scanSingleQuoted_loop_backslash.
  - intros Hq. unfold scanDoubleQuoted. cbv [bind next]. rewrite Next_cons.
    now apply scanDoubleQuoted_loop_backslash.
  - intros budget s e s' [H|H].
    + unfold scanSingleQuoted in H. cbv [bind next] in H.
      eapply scanSingleQuoted_loop_lacks; [constructor | exact H].
    + unfold scanDoubleQuoted in H. cbv [bind next] in H.
      eapply scanDoubleQuoted_loop_lacks; [constructor | exact H].
Qed.

Lemma quoted_backslash_is_rejected_witness :
  scanSingleQuoted 6 (newScanner (runes "'a\b'")) = Fail ExpectIdentError /\
  (scanDoubleQuoted 6 (newScanner (dquote :: runes "a\b" ++ [dquote]))
   = Fail ExpectIdentError \/
   scanDoubleQuoted 6 (newScanner (dquote :: runes "a\b" ++ [dquote]))
   = Fail ExpectVarNameError).
Proof.
  assert (He : ~ In EOF (runes "a")) by (simpl; intros [H|[]]; discriminate H).
  destruct (quoted_backslash_is_rejected (runes "a") (runes "b" ++ [squote]) 0 6)
    as [Hs _]; [simpl; lia | exact He |].
  destruct (quoted_backslash_is_rejected (runes "a") (runes "b" ++ [dquote]) 0 6)
    as [_ [Hd _]]; [simpl; lia | exact He |].
  split.
  - apply Hs. simpl. intros [H|[]]; discriminate H.
  - apply Hd. simpl. intros [H|[]]; discriminate H.
Defined.

(** C1 as the specification states it fails: on the two inputs it names
    the scan does not succeed, it returns the "expected IDENT" error. *)
Lemma quoted_backslash_counterexample :
  scanDoubleQuoted 6 (newScanner (dquote :: runes "a\b" ++ [dquote]))
  = Fail ExpectIdentError /\
  scanSingleQuoted 6 (newScanner (runes "'a\b'")) = Fail ExpectIdentError.
Proof. split; reflexivity. Qed.

(* ------------------------------------------------------------------ *)
(** ** File descriptors *)

Lemma isNumber_spec (c : rune) : isNumber c = true <-> 48 <= c <= 57.
Proof.
  unfold isNumber. rewrite andb_true_iff, !Z.leb_le. reflexivity.
Qed.

Lemma fold_digits_mono (l : list rune) :
  Forall (fun c => isNumber c = true) l ->
  forall acc, 0 <= acc ->
    acc <= fold_left (fun a c => a * 10 + (c - r "0")) l acc.
Proof.
  induction 1 as [|c tl Hc _ IH]; intros acc Hacc; simpl; [lia|].
  apply isNumber_spec in Hc. change (r "0") with 48 in *.
  etransitivity; [| apply IH]; lia.
Qed.

Lemma parseDigits_digits (l : list rune) :
  Forall (fun c => isNumber c = true) l ->
  forall acc, 0 <= acc <= maxUint64 ->
    parseDigits acc l
    = let n := fold_left (fun a c => a * 10 + (c - r "0")) l acc in
      if n >? maxUint64 then inl ErrRange else inr n.
Proof.
  induction 1 as [|c tl Hc Htl IH]; intros acc Hacc.
  - cbn [parseDigits fold_left]. cbv zeta.
    replace (acc >? maxUint64) with false; [reflexivity|].
    symmetry. rewrite Z.gtb_ltb. apply Z.ltb_ge. lia.
  - cbn [parseDigits fold_left]. rewrite Hc.
    pose proof Hc as Hc'. apply isNumber_spec in Hc'. change (r "0") with 48 in *.
    destruct (acc * 10 + (c - 48) >? maxUint64) eqn:E.
    + pose proof (fold_digits_mono tl Htl (acc * 10 + (c - 48))) as Hm.
      change (r "0") with 48 in Hm. cbv zeta.
      rewrite Z.gtb_ltb in E. apply Z.ltb_lt in E.
      replace (_ >? maxUint64) with true; [reflexivity|].
      symmetry. rewrite Z.gtb_ltb. apply Z.ltb_lt. lia.
    + apply IH. rewrite Z.gtb_ltb in E. apply Z.ltb_ge in E. lia.
Qed.

(** On a run of digits [Atoi] fails in two cases only: the run is empty,
    or its value does not fit in an [int]. *)
Lemma Atoi_digits (run : list rune) :
  Forall (fun c => isNumber c = true) run ->
  Atoi run = match run with
             | [] => inl ErrSyntax
             | _ => if decimal run >? maxInt then inl ErrRange
                    else inr (decimal run)
             end.
Proof.
  intros H. destruct run as [|c tl]; [reflexivity|].
  pose proof (Forall_inv H) as Hc. apply isNumber_spec in Hc.
  unfold Atoi.
  replace (c =? r "-") with false by (symmetry; apply Z.eqb_neq; change (r "-") with 45; lia).
  replace (c =? r "+") with false by (symmetry; apply Z.eqb_neq; change (r "+") with 43; lia).
  cbn [orb]. rewrite parseDigits_digits by (assumption || (unfold maxUint64; lia)).
  fold (decimal (c :: tl)). cbv zeta.
  destruct (decimal (c :: tl) >? maxUint64) eqn:E.
  - rewrite Z.gtb_ltb in E. apply Z.ltb_lt in E.
    replace (_ >? maxInt) with true; [reflexivity|].
    symmetry. rewrite Z.gtb_ltb. apply Z.ltb_lt. unfold maxInt, maxUint64 in *. lia.
  - reflexivity.
Qed.

(** C5, as amended: the run [scanFD] collects holds digit characters
    only, but its conversion can fail: it fails exactly when the run is
    empty (no digit follows the [&]) or its value exceeds the largest
    [int], and [scanFD] then returns the conversion error; otherwise the
    scan returns the descriptor with the value of the run. *)
Theorem scanFD_conversion (fuel : nat) (s : Scanner) :
  (length (src s) < fuel)%nat ->
  Peek (Next s) <> r "-" ->
  let run := takeRun isNumber (src (Next s)) in
  Forall (fun c => isNumber c = true) run /\
  scanFD fuel s
  = if (length run =? 0)%nat then Fail (AtoiError ErrSyntax)
    else if decimal run >? maxInt then Fail (AtoiError ErrRange)
    else Done (FD (Pos s) (decimal run))
              (after (Next s) run (dropRun isNumber (src (Next s)))).
Proof.
  intros Hfuel Hdash run. split; [apply takeRun_Forall|].
  unfold scanFD. cbv [bind getPos next peek ret fail].
  apply Z.eqb_neq in Hdash. rewrite Hdash.
  rewrite scanRun_done by (try reflexivity; pose proof (Next_length s); lia).
  cbn [app]. fold run. rewrite (Atoi_digits run) by apply takeRun_Forall.
  destruct run as [|c tl]; [reflexivity|]. cbn [length Nat.eqb].
  destruct (decimal (c :: tl) >? maxInt); reflexivity.
Qed.

Lemma scanFD_conversion_witness :
  scanFD 3 {| src := runes "&3"; offset := 1 |}
  = Done (FD 1 3) {| src := []; offset := 3 |}.
Proof.
  destruct (scanFD_conversion 3 {| src := runes "&3"; offset := 1 |})
    as [_ H]; [simpl; lia | discriminate |].
  exact H.
Defined.

(** C5 as the specification states it fails: after [>&] with no digit
    (and no [-]) the run is empty and the conversion error is returned. *)
Lemma scanFD_conversion_counterexample :
  Peek (Next {| src := runes "&x"; offset := 1 |}) <> r "-" /\
  scanFD 3 {| src := runes "&x"; offset := 1 |} = Fail (AtoiError ErrSyntax) /\
  mainLex 4 lval0 (newScanner (runes ">&x")) = Fail (AtoiError ErrSyntax) /\
  mainLex 4 lval0 (newScanner (runes "^&")) = Fail (AtoiError ErrSyntax).
Proof. repeat split; try reflexivity. discriminate. Qed.

(* ------------------------------------------------------------------ *)
(** ** Keywords *)

Lemma rune_list_eqb_true (a b : list rune) : rune_list_eqb a b = true <-> a = b.
Proof.
  unfold rune_list_eqb. destruct (list_eq_dec Z.eq_dec a b); split;
    congruence.
Qed.

Lemma identLit_spec (e : StrExpr) :
  forall lit,
    identLit lit e
    = if forallb isIdent e then Some (lit ++ identText e) else None.
Proof.
  induction e as [|f tl IH]; intros lit; simpl.
  - now rewrite app_nil_r.
  - destruct f; simpl; try reflexivity.
    rewrite IH. destruct (forallb isIdent tl); [|reflexivity].
    now rewrite app_assoc.
Qed.

Lemma lookupKeyword_In (kw : list (Token * list rune)) (lit : list rune) (tok : Token) :
  lookupKeyword kw lit = Some tok -> In (tok, lit) kw.
Proof.
  induction kw as [|[t l] tl IH]; simpl; [discriminate|].
  destruct (rune_list_eqb l lit) eqn:E.
  - apply rune_list_eqb_true in E. intros [= ->]. left. now subst.
  - intros H. right. now apply IH.
Qed.

(** The keyword texts are pairwise distinct: whichever order the table is
    read in, [tokenOf] finds the same token. *)
Lemma keywords_In_lookup (tok : Token) (lit : list rune) :
  In (tok, lit) keywords -> lookupKeyword keywords lit = Some tok.
Proof.
  unfold keywords. simpl.
  intros [H|[H|[H|[H|[H|[]]]]]]; inversion H; subst; reflexivity.
Qed.

Lemma tokenOf_spec (e : StrExpr) (tok : Token) :
  tokenOf e = Some tok <->
  forallb isIdent e = true /\ In (tok, identText e) keywords.
Proof.
  unfold tokenOf. rewrite identLit_spec. cbn [app].
  destruct (forallb isIdent e); split.
  - intros H. split; [reflexivity | now apply lookupKeyword_In].
  - intros [_ H]. now apply keywords_In_lookup.
  - discriminate.
  - intros [H _]. discriminate H.
Qed.

Lemma startsWord_true (c : rune) :
  startsWord c = true ->
  (c =? EOF) = false /\ (c =? r "#") = false /\ (c =? r ">") = false /\
  (c =? r "^") = false /\
  ((c =? r ";") || (c =? newline) || (c =? r "|") || (c =? r "<")) = false.
Proof.
  unfold startsWord. rewrite negb_true_iff, !orb_false_iff. tauto.
Qed.

(** What [mainLex] does with a lookahead that starts a word. *)
Lemma mainLex_word (n : nat) (lval : yySymType) (s s2 : Scanner) :
  skipBrank n s = Done tt s2 ->
  startsWord (Peek s2) = true ->
  mainLex (S n) lval s
  = match scanStrs n s2 with
    | Done (STR, v) s' =>
        match tokenOf v with
        | Some kw => Done (kw, lval) s'
        | None => Done (STR, set_str lval v) s'
        end
    | Done (tok, v) s' => Done (tok, set_str lval v) s'
    | Fail e => Fail e
    | Timeout => Timeout
    end.
Proof.
  intros Hb Hw. apply startsWord_true in Hw.
  destruct Hw as (H1 & H2 & H3 & H4 & H5).
  cbn [mainLex]. cbv [bind peek]. rewrite Hb, H1, H2, H3, H4, H5.
  destruct (scanStrs n s2) as [[tok v] s'| |]; try reflexivity.
  destruct tok; try reflexivity. destruct (tokenOf v); reflexivity.
Qed.

(** C10: a word that [scanStrs] hands back as [STR] leaves [mainLex] as a
    keyword token, the value cell untouched, exactly when all its
    fragments are [Ident]s whose texts concatenate to a keyword;
    otherwise it stays [STR] with the word as payload. So [if] lexes as
    the keyword [IF] with no payload and [i$f] as a [STR] word. *)
Theorem keyword_resolution :
  (forall e tok,
      tokenOf e = Some tok <->
      forallb isIdent e = true /\ In (tok, identText e) keywords) /\
  (forall n lval s s2 v s',
      skipBrank n s = Done tt s2 ->
      startsWord (Peek s2) = true ->
      scanStrs n s2 = Done (STR, v) s' ->
      mainLex (S n) lval s
      = match tokenOf v with
        | Some kw => Done (kw, lval) s'
        | None => Done (STR, set_str lval v) s'
        end) /\
  (forall fuel lval,
      mainLex (5 + fuel) lval (newScanner (runes "if"))
      = Done (IF, lval) {| src := []; offset := 2 |}) /\
  (forall fuel lval,
      mainLex (5 + fuel) lval (newScanner (runes "i$f"))
      = Done (STR, set_str lval [Ident 0 (runes "i"); VarExpr 1 (runes "f")])
             {| src := []; offset := 3 |}).
Proof.
  split; [exact tokenOf_spec|]. split; [|split].
  - intros n lval s s2 v s' Hb Hw Hs.
    rewrite (mainLex_word n lval s s2 Hb Hw), Hs. reflexivity.
  - intros. reflexivity.
  - intros. reflexivity.
Qed.

Lemma keyword_resolution_witness :
  mainLex 8 lval0 (newScanner (runes " else;"))
  = Done (ELSE, lval0) {| src := runes ";"; offset := 5 |}.
Proof.
  destruct keyword_resolution as [_ [H _]].
  exact (H 7%nat lval0 (newScanner (runes " else;"))
           {| src := runes "else;"; offset := 1 |}
           [Ident 1 (runes "else")] {| src := runes ";"; offset := 5 |}
           eq_refl eq_refl eq_refl).
Defined.

(* ------------------------------------------------------------------ *)
(** ** Tokens of whole inputs *)

(** In front of a special character that neither [mainLex] nor
    [scanStrs] has a case for, [scanStrs] ends the word at once, and
    [mainLex] returns [STR] with an empty word and consumes nothing, so
    every later call returns the same token. *)
Lemma empty_STR_on_special :
  Forall (fun c =>
            forall fuel lval,
              mainLex (3 + fuel) lval (newScanner [c])
              = Done (STR, set_str lval []) (newScanner [c]))
         (runes "&?*~\{}[]") /\
  (forall calls fuel,
      lexStream calls (3 + fuel) lval0 (newScanner (runes "&"))
      = Done (repeat (STR, lval0) calls) (newScanner (runes "&"))).
Proof.
  split.
  - repeat constructor.
  - induction calls as [|k IH]; intros fuel; [reflexivity|].
    cbn [lexStream]. specialize (IH fuel).
    change (mainLex (3 + fuel) lval0 (newScanner (runes "&")))
      with (@Done (Token * yySymType) (STR, lval0) (newScanner (runes "&"))).
    cbv iota beta. rewrite IH. reflexivity.
Qed.

(** C3, as amended: [echo(x)] lexes as the word-then-( fusion token with
    the word [echo], a [STR] token with the word [x], then the
    )-then-word fusion token with an empty word, then end of input. *)
Theorem echo_paren_tokens :
  forall calls fuel,
    lexStream (4 + calls) (7 + fuel) lval0 (newScanner (runes "echo(x)"))
    = Done [ (STR_AND_LEFT_PAREN, set_str lval0 [Ident 0 (runes "echo")]);
             (STR, set_str lval0 [Ident 5 (runes "x")]);
             (RIGHT_PAREN_AND_STR, set_str lval0 []);
             (Char EOF, set_str lval0 []) ]
           {| src := []; offset := 7 |}.
Proof. intros. reflexivity. Qed.

(** C3 as the specification states it fails: the third token of
    [echo(x)] is not the bare [)]. *)
Lemma echo_paren_counterexample :
  tokensOf (lexStream 4 7 lval0 (newScanner (runes "echo(x)")))
  = Some [STR_AND_LEFT_PAREN; STR; RIGHT_PAREN_AND_STR; Char EOF] /\
  tokensOf (lexStream 4 7 lval0 (newScanner (runes "echo(x)")))
  <> Some [STR_AND_LEFT_PAREN; STR; Char (r ")"); Char EOF].
Proof. split; [reflexivity | discriminate]. Qed.

(** C4, which the code breaks for two of the three operators: [>&3] is
    one token, but [>&-] leaves its [-] behind and [>>] its second [>],
    and the next call lexes the leftover as a token of its own. *)
Theorem redirect_tokens :
  forall calls fuel,
    lexStream (3 + calls) (4 + fuel) lval0 (newScanner (runes ">&3"))
    = Done [ (REDIRECT_TO_FD, set_expr lval0 [FD 1 3]);
             (Char EOF, set_expr lval0 [FD 1 3]) ]
           {| src := []; offset := 3 |} /\
    lexStream (3 + calls) (4 + fuel) lval0 (newScanner (runes ">&-"))
    = Done [ (REDIRECT_TO_FD, set_expr lval0 [FD 1 (-1)]);
             (STR, {| str := [Ident 2 (runes "-")]; expr := [FD 1 (-1)] |});
             (Char EOF, {| str := [Ident 2 (runes "-")]; expr := [FD 1 (-1)] |}) ]
           {| src := []; offset := 3 |} /\
    lexStream (3 + calls) (4 + fuel) lval0 (newScanner (runes ">>"))
    = Done [ (APPEND_REDIRECT, lval0);
             (Char (r ">"), lval0);
             (Char EOF, lval0) ]
           {| src := []; offset := 2 |} /\
    mainLex (4 + fuel) lval0 (newScanner (runes ">&-"))
    = Done (REDIRECT_TO_FD, set_expr lval0 [FD 1 (-1)])
           {| src := runes "-"; offset := 2 |} /\
    mainLex (4 + fuel) lval0 (newScanner (runes ">>"))
    = Done (APPEND_REDIRECT, lval0) {| src := runes ">"; offset := 1 |}.
Proof. intros. repeat split. Qed.

(** A comment that no newline ends keeps [skipComment] at the end of the
    input for ever. *)
Lemma mainLex_unterminated_comment (body : list rune) (o : Position) :
  ~ In newline body ->
  forall fuel lval,
    mainLex fuel lval {| src := r "#" :: body; offset := o |} = Timeout.
Proof.
  intros Hnl [|n] lval; [reflexivity|].
  cbn [mainLex]. cbv [bind peek]. unfold skipBrank.
  destruct n as [|m]; [reflexivity|].
  cbn [skipRun]. rewrite Peek_cons. change (isBrank (r "#")) with false.
  cbv iota. rewrite Peek_cons.
  change (r "#" =? EOF) with false. change (r "#" =? r "#") with true.
  cbv iota. unfold skipComment. rewrite skipRun_stuck; [reflexivity| |reflexivity].
  cbn [src]. constructor; [reflexivity|].
  apply Forall_forall. intros c Hc. apply negb_true_iff, Z.eqb_neq.
  intros ->. now apply Hnl.
Qed.

(** A comment that a newline ends is skipped up to the newline, which is
    the token returned. *)
Lemma mainLex_comment_then_newline :
  forall fuel lval,
    mainLex (6 + fuel) lval (newScanner (runes "# c" ++ newline :: runes "x"))
    = Done (Char newline, lval) {| src := runes "x"; offset := 4 |}.
Proof. intros. reflexivity. Qed.

(** C6, which the code breaks: on a comment that runs to the end of the
    input without a newline the next-token operation does not return,
    whatever budget of loop iterations it is given. *)
Theorem comment_at_end_of_input_never_returns :
  forall fuel lval,
    mainLex fuel lval (newScanner (runes "# the end")) = Timeout /\
    mainLex fuel lval (newScanner (runes "#")) = Timeout.
Proof.
  intros fuel lval. split; apply mainLex_unterminated_comment.
  - simpl. intuition discriminate.
  - simpl. tauto.
Qed.

(* ------------------------------------------------------------------ *)
(** ** Termination of the scanning routines

    Every loop of the lexer but the one of [skipComment] consumes a rune
    per iteration or leaves, so a budget a little above the length of the
    input is never used up. *)

Lemma run_advances (p : rune -> bool) (l : list rune) :
  takeRun p l <> [] -> (length (dropRun p l) < length l)%nat.
Proof.
  intros H. rewrite <- (take_drop_run p l) at 2. rewrite length_app.
  destruct (takeRun p l); [congruence | simpl; lia].
Qed.

Ltac ident_advances lem :=
  intros fuel s H; rewrite lem by exact H;
  destruct (takeRun _ _) eqn:E; simpl; [exact I|];
  apply run_advances; rewrite E; discriminate.

Lemma scanSingleQuotedIdent_advances :
  forall fuel s, (length (src s) < fuel)%nat ->
                 advances (scanSingleQuotedIdent fuel s) s.
Proof. ident_advances scanSingleQuotedIdent_spec. Qed.

Lemma scanDoubleQuotedIdent_advances :
  forall fuel s, (length (src s) < fuel)%nat ->
                 advances (scanDoubleQuotedIdent fuel s) s.
Proof. ident_advances scanDoubleQuotedIdent_spec. Qed.

Lemma scanIdent_advances :
  forall fuel s, (length (src s) < fuel)%nat ->
                 advances (scanIdent fuel s) s.
Proof. ident_advances scanIdent_spec. Qed.

Lemma scanVar_advances :
  forall fuel s, (length (src s) < fuel)%nat ->
                 advances (scanVar fuel s) s.
Proof.
  intros fuel s H. rewrite scanVar_spec by exact H.
  destruct (takeRun _ _) eqn:E; simpl; [exact I|].
  pose proof (Next_length s).
  assert (length (dropRun isVarChar (src (Next s))) < length (src (Next s)))%nat
    by (apply run_advances; rewrite E; discriminate).
  lia.
Qed.

Lemma Next_advances (s : Scanner) :
  src s <> [] -> (length (src (Next s)) < length (src s))%nat.
Proof.
  intros H. unfold Next. destruct (src s) eqn:E; [congruence|]. simpl. lia.
Qed.

Lemma Peek_not_EOF (s : Scanner) : Peek s <> EOF -> src s <> [].
Proof. unfold Peek. destruct (src s); [intros H _; now apply H | discriminate]. Qed.

(** One more iteration: the loop goes on with [n] iterations left from a
    scanner that moved forward. *)
Lemma advances_bind {A B} (c : M A) (k : A -> M B) (s : Scanner) (n : nat) :
  (length (src s) < n)%nat ->
  advances (c s) s ->
  (forall a s1, (length (src s1) + 1 < n)%nat -> ends (k a s1) s1) ->
  ends (bind c k s) s.
Proof.
  intros Hn Hc Hk. unfold bind. destruct (c s) as [a s1| |]; simpl in *;
    [| exact I | exact Hc].
  specialize (Hk a s1). destruct (k a s1); simpl in *; try (apply Hk; lia).
  assert (length (src s0) <= length (src s1))%nat by (apply Hk; lia). lia.
Qed.

Lemma scanSingleQuoted_loop_ends :
  forall fuel acc s,
    (length (src s) + 1 < fuel)%nat ->
    ends (scanSingleQuoted_loop fuel acc s) s.
Proof.
  induction fuel as [|n IH]; intros acc s H; [lia|].
  cbn [scanSingleQuoted_loop].
  assert (Hident : ends ((ident <- scanSingleQuotedIdent n ;;
                          scanSingleQuoted_loop n (acc ++ [ident])) s) s).
  { apply advances_bind with (n := n); [lia | | intros; now apply IH].
    apply scanSingleQuotedIdent_advances; lia. }
  destruct (Peek s =? EOF); [exact I|].
  destruct (isSingleQuotedIdentChar (Peek s)); [exact Hident|].
  destruct (Peek s =? squote); [| exact Hident].
  cbv [bind next ret]. simpl. apply Next_length.
Qed.

Lemma scanDoubleQuoted_loop_ends :
  forall fuel acc s,
    (length (src s) + 1 < fuel)%nat ->
    ends (scanDoubleQuoted_loop fuel acc s) s.
Proof.
  induction fuel as [|n IH]; intros acc s H; [lia|].
  cbn [scanDoubleQuoted_loop].
  assert (Hident : ends ((ident <- scanDoubleQuotedIdent n ;;
                          scanDoubleQuoted_loop n (acc ++ [ident])) s) s).
  { apply advances_bind with (n := n); [lia | | intros; now apply IH].
    apply scanDoubleQuotedIdent_advances; lia. }
  destruct (Peek s =? EOF); [exact I|].
  destruct (isDoubleQuotedIdentChar (Peek s)); [exact Hident|].
  destruct (Peek s =? r "$").
  - apply advances_bind with (n := n); [lia | | intros; now apply IH].
    apply scanVar_advances; lia.
  - destruct (Peek s =? dquote); [| exact Hident].
    cbv [bind next ret]. simpl. apply Next_length.
Qed.

Lemma quoted_advances (loop : M StrExpr) (s : Scanner) :
  src s <> [] ->
  ends (loop (Next s)) (Next s) ->
  advances ((next ;;; loop) s) s.
Proof.
  intros Hne H. cbv [bind next]. pose proof (Next_advances s Hne).
  destruct (loop (Next s)); simpl in *; [lia | exact I | exact H].
Qed.

Lemma scanSingleQuoted_advances (fuel : nat) (s : Scanner) :
  src s <> [] -> (length (src s) < fuel)%nat ->
  advances (scanSingleQuoted fuel s) s.
Proof.
  intros Hne H. apply quoted_advances; [exact Hne|].
  apply scanSingleQuoted_loop_ends. pose proof (Next_advances s Hne). lia.
Qed.

Lemma scanDoubleQuoted_advances (fuel : nat) (s : Scanner) :
  src s <> [] -> (length (src s) < fuel)%nat ->
  advances (scanDoubleQuoted fuel s) s.
Proof.
  intros Hne H. apply quoted_advances; [exact Hne|].
  apply scanDoubleQuoted_loop_ends. pose proof (Next_advances s Hne). lia.
Qed.

Lemma Peek_eq_src (s : Scanner) (c : rune) :
  Peek s = c -> c <> EOF -> src s <> [].
Proof. intros <- H. now apply Peek_not_EOF. Qed.

Lemma scanStrs_loop_ends :
  forall fuel withRightParen acc s,
    (length (src s) + 1 < fuel)%nat ->
    ends (scanStrs_loop fuel withRightParen acc s) s.
Proof.
  induction fuel as [|n IH]; intros b acc s H; [lia|].
  cbn [scanStrs_loop].
  destruct (Peek s =? r "$") eqn:E1.
  { apply advances_bind with (n := n); [lia | | intros; now apply IH].
    apply scanVar_advances; lia. }
  destruct (Peek s =? dquote) eqn:E2.
  { apply advances_bind with (n := n); [lia | | intros; now apply IH].
    apply scanDoubleQuoted_advances; [|lia].
    apply Z.eqb_eq in E2. now apply (Peek_eq_src s dquote). }
  destruct (Peek s =? squote) eqn:E3.
  { apply advances_bind with (n := n); [lia | | intros; now apply IH].
    apply scanSingleQuoted_advances; [|lia].
    apply Z.eqb_eq in E3. now apply (Peek_eq_src s squote). }
  destruct (Peek s =? r ")") eqn:E4.
  { destruct (0 <? length acc)%nat; [simpl; lia|].
    destruct b; [destruct (length acc =? 0)%nat; simpl; lia|].
    apply Z.eqb_eq in E4.
    assert (Hne : src s <> []) by now apply (Peek_eq_src s (r ")")).
    pose proof (Next_advances s Hne) as Hn.
    specialize (IH true acc (Next s)).
    destruct (scanStrs_loop n true acc (Next s)); simpl in *;
      try (apply IH; lia).
    assert (length (src s0) <= length (src (Next s)))%nat by (apply IH; lia).
    lia. }
  destruct (Peek s =? r "(") eqn:E5.
  { pose proof (Next_length s).
    destruct ((length acc =? 0)%nat && negb b); [exact H0|].
    destruct b; exact H0. }
  destruct (isSpecialChar (Peek s)).
  { destruct b; simpl; lia. }
  apply advances_bind with (n := n); [lia | | intros; now apply IH].
  apply scanIdent_advances; lia.
Qed.

Lemma scanFD_ends (fuel : nat) (s : Scanner) :
  (length (src s) < fuel)%nat -> ends (scanFD fuel s) s.
Proof.
  intros H. unfold scanFD. cbv [bind getPos next peek ret fail].
  pose proof (Next_length s) as Hn.
  destruct (Peek (Next s) =? r "-"); [exact Hn|].
  rewrite scanRun_done by (try reflexivity; lia). cbn [app].
  destruct (Atoi _); simpl; [exact I|].
  pose proof (dropRun_length isNumber (src (Next s))). lia.
Qed.

Lemma skipBrank_done (fuel : nat) (s : Scanner) :
  (length (src s) < fuel)%nat ->
  skipBrank fuel s
  = Done tt (after s (takeRun isBrank (src s)) (dropRun isBrank (src s))).
Proof. intros H. apply skipRun_done; [now left | exact H]. Qed.

(** The token after a comment: the newline that ends it. *)
Lemma mainLex_newline (n : nat) (lval : yySymType) (l : list rune) (o : Position) :
  mainLex (S (S n)) lval {| src := newline :: l; offset := o |}
  = Done (Char newline, lval) {| src := l; offset := o + 1 |}.
Proof. reflexivity. Qed.

(** The next-token operation runs out of budget, however large, on an
    unterminated comment and on nothing else. *)
Lemma mainLex_timeout_iff (fuel : nat) (lval : yySymType) (s : Scanner) :
  (length (src s) + 2 < fuel)%nat ->
  mainLex fuel lval s = Timeout <-> unterminatedComment s.
Proof.
  intros Hfuel. destruct fuel as [|n]; [lia|].
  cbn [mainLex]. cbv [bind peek next ret].
  rewrite skipBrank_done by lia.
  pose proof (dropRun_length isBrank (src s)) as Hlen.
  unfold unterminatedComment.
  set (s2 := after s (takeRun isBrank (src s)) (dropRun isBrank (src s))).
  assert (Hs2 : src s2 = dropRun isBrank (src s)) by reflexivity.
  destruct (Peek s2 =? EOF) eqn:E1.
  { split; [discriminate|]. intros (body & Hb & _). exfalso.
    apply Z.eqb_eq in E1. unfold Peek in E1. rewrite Hs2, Hb in E1.
    discriminate E1. }
  destruct (Peek s2 =? r "#") eqn:E2.
  { apply Z.eqb_eq in E2. unfold Peek in E2. rewrite Hs2 in E2.
    destruct (dropRun isBrank (src s)) as [|c body] eqn:Ed; [discriminate E2|].
    subst c. unfold skipComment.
    destruct (in_dec Z.eq_dec newline body) as [Hin|Hnot].
    - split; [|intros (b & [= <-] & Hb); contradiction].
      intros H. exfalso.
      set (p := fun c => negb (c =? newline)) in *.
      assert (Hdrop : exists tl, dropRun p (src s2) = newline :: tl).
      { rewrite Hs2. clear - Hin. simpl.
        induction body as [|d tl IH]; [destruct Hin|]. simpl.
        destruct (p d) eqn:E.
        - destruct Hin as [->|Hin]; [discriminate E | now apply IH].
        - exists tl. f_equal. unfold p in E.
          now apply negb_false_iff, Z.eqb_eq in E. }
      destruct Hdrop as [tl Htl].
      assert (Hl0 : (length (src s2) < n)%nat).
      { rewrite Hs2. cbn [length] in *. lia. }
      assert (Hst : p EOF = false \/ dropRun p (src s2) <> []).
      { right. rewrite Htl. discriminate. }
      change (skipRun _ n s2) with (skipRun p n s2) in H.
      rewrite (skipRun_done p n s2 Hst Hl0) in H.
      rewrite Htl in H.
      pose proof (dropRun_length p (src s2)) as Hl. rewrite Htl, Hs2 in Hl.
      simpl in Hl.
      destruct n as [|[|m]]; try lia.
      unfold after in H. rewrite mainLex_newline in H. discriminate H.
    - split; [intros _; now exists body|]. intros _.
      rewrite skipRun_stuck; [reflexivity | | reflexivity].
      rewrite Hs2. constructor; [reflexivity|].
      apply Forall_forall. intros c Hc. apply negb_true_iff, Z.eqb_neq.
      intros ->. now apply Hnot. }
  assert (Hno : ~ exists body,
             dropRun isBrank (src s) = r "#" :: body /\ ~ In newline body).
  { intros (body & Hb & _). apply Z.eqb_neq in E2. apply E2.
    unfold Peek. now rewrite Hs2, Hb. }
  assert (HFD : forall s1 k,
             (length (src s1) <= length (src s2))%nat ->
             (fd <- scanFD n ;; ret (k fd)) s1 <> @Timeout (Token * yySymType)).
  { intros s1 k Hle. cbv [bind ret].
    pose proof (scanFD_ends n s1) as He.
    destruct (scanFD n s1); try discriminate.
    intros _. apply He. rewrite Hs2 in Hle. lia. }
  pose proof (Next_length s2) as Hnext.
  split; [|intros Hc; now elim Hno]. intros H. exfalso.
  destruct (Peek s2 =? r ">").
  { destruct (Peek (Next s2) =? r "&");
      [exact (HFD (Next s2) (fun fd => (REDIRECT_TO_FD, set_expr lval [fd])) Hnext H)|].
    destruct (Peek (Next s2) =? r ">"); discriminate H. }
  destruct (Peek s2 =? r "^").
  { destruct (Peek (Next s2) =? r "&");
      [exact (HFD (Next s2) (fun fd => (ERR_REDIRECT_TO_FD, set_expr lval [fd])) Hnext H)|].
    destruct (Peek (Next s2) =? r "^"); discriminate H. }
  destruct ((Peek s2 =? r ";") || (Peek s2 =? newline) ||
            (Peek s2 =? r "|") || (Peek s2 =? r "<")); [discriminate H|].
  pose proof (scanStrs_loop_ends n false [] s2) as He. fold (scanStrs n) in He.
  destruct (scanStrs n s2) as [[tok v] s'| |].
  - destruct tok; try discriminate H. destruct (tokenOf v); discriminate H.
  - discriminate H.
  - apply He. rewrite Hs2. lia.
Qed.

(* ------------------------------------------------------------------ *)
(** ** The budget

    A routine that has returned or failed within a budget does the same
    within every larger one: the budget only tells how long the model
    follows a loop, it never changes a result. *)

Lemma scanRun_stable (p : rune -> bool) :
  forall n m acc s,
    (n <= m)%nat -> scanRun p n acc s <> Timeout ->
    scanRun p m acc s = scanRun p n acc s.
Proof.
  induction n as [|n IH]; intros m acc s Hle H; [now elim H|].
  destruct m as [|m]; [lia|]. cbn [scanRun] in *.
  destruct (p (Peek s)); [apply IH; [lia | exact H] | reflexivity].
Qed.

Lemma skipRun_stable (p : rune -> bool) :
  forall n m s,
    (n <= m)%nat -> skipRun p n s <> Timeout ->
    skipRun p m s = skipRun p n s.
Proof.
  induction n as [|n IH]; intros m s Hle H; [now elim H|].
  destruct m as [|m]; [lia|]. cbn [skipRun] in *.
  destruct (p (Peek s)); [apply IH; [lia | exact H] | reflexivity].
Qed.

Lemma bind_stable {A B} (c1 c2 : M A) (k1 k2 : A -> M B) (s : Scanner) :
  (c1 s <> Timeout -> c2 s = c1 s) ->
  (forall a s1, k1 a s1 <> Timeout -> k2 a s1 = k1 a s1) ->
  bind c1 k1 s <> Timeout ->
  bind c2 k2 s = bind c1 k1 s.
Proof.
  intros Hc Hk H. unfold bind in *.
  destruct (c1 s) as [a s1| |] eqn:E.
  - rewrite Hc by discriminate. now apply Hk.
  - now rewrite Hc by discriminate.
  - now elim H.
Qed.

Ltac run_stable :=
  intros n m s Hle H;
  repeat (apply bind_stable;
          [ try reflexivity; intros; apply scanRun_stable; assumption
          | intros
          | try exact H ]);
  try reflexivity; try assumption.

Lemma scanSingleQuotedIdent_stable :
  forall n m s,
    (n <= m)%nat -> scanSingleQuotedIdent n s <> Timeout ->
    scanSingleQuotedIdent m s = scanSingleQuotedIdent n s.
Proof. unfold scanSingleQuotedIdent. run_stable. Qed.

Lemma scanDoubleQuotedIdent_stable :
  forall n m s,
    (n <= m)%nat -> scanDoubleQuotedIdent n s <> Timeout ->
    scanDoubleQuotedIdent m s = scanDoubleQuotedIdent n s.
Proof. unfold scanDoubleQuotedIdent. run_stable. Qed.

Lemma scanIdent_stable :
  forall n m s,
    (n <= m)%nat -> scanIdent n s <> Timeout ->
    scanIdent m s = scanIdent n s.
Proof. unfold scanIdent. run_stable. Qed.

Lemma scanVar_stable :
  forall n m s,
    (n <= m)%nat -> scanVar n s <> Timeout -> scanVar m s = scanVar n s.
Proof. unfold scanVar. run_stable. Qed.

Lemma scanFD_stable :
  forall n m s,
    (n <= m)%nat -> scanFD n s <> Timeout -> scanFD m s = scanFD n s.
Proof.
  unfold scanFD. intros n m s Hle H.
  cbv [bind getPos next peek] in *.
  destruct (Peek (Next s) =? r "-"); [reflexivity|].
  destruct (scanRun isNumber n [] (Next s)) as [run s1| |] eqn:E;
    [| | now elim H];
    rewrite (scanRun_stable isNumber n m [] (Next s) Hle)
      by (rewrite E; discriminate);
    now rewrite E.
Qed.

Lemma scanSingleQuoted_loop_stable :
  forall n m acc s,
    (n <= m)%nat -> scanSingleQuoted_loop n acc s <> Timeout ->
    scanSingleQuoted_loop m acc s = scanSingleQuoted_loop n acc s.
Proof.
  induction n as [|n IH]; intros m acc s Hle H; [now elim H|].
  destruct m as [|m]; [lia|]. cbn [scanSingleQuoted_loop] in *.
  assert (Hident :
    (ident <- scanSingleQuotedIdent n ;;
     scanSingleQuoted_loop n (acc ++ [ident])) s <> Timeout ->
    (ident <- scanSingleQuotedIdent m ;;
     scanSingleQuoted_loop m (acc ++ [ident])) s
    = (ident <- scanSingleQuotedIdent n ;;
       scanSingleQuoted_loop n (acc ++ [ident])) s).
  { apply bind_stable; intros.
    - apply scanSingleQuotedIdent_stable; [lia | assumption].
    - apply IH; [lia | assumption]. }
  destruct (Peek s =? EOF); [reflexivity|].
  destruct (isSingleQuotedIdentChar (Peek s)); [now apply Hident|].
  destruct (Peek s =? squote); [reflexivity | now apply Hident].
Qed.

Lemma scanDoubleQuoted_loop_stable :
  forall n m acc s,
    (n <= m)%nat -> scanDoubleQuoted_loop n acc s <> Timeout ->
    scanDoubleQuoted_loop m acc s = scanDoubleQuoted_loop n acc s.
Proof.
  induction n as [|n IH]; intros m acc s Hle H; [now elim H|].
  destruct m as [|m]; [lia|]. cbn [scanDoubleQuoted_loop] in *.
  assert (Hident :
    (ident <- scanDoubleQuotedIdent n ;;
     scanDoubleQuoted_loop n (acc ++ [ident])) s <> Timeout ->
    (ident <- scanDoubleQuotedIdent m ;;
     scanDoubleQuoted_loop m (acc ++ [ident])) s
    = (ident <- scanDoubleQuotedIdent n ;;
       scanDoubleQuoted_loop n (acc ++ [ident])) s).
  { apply bind_stable; intros.
    - apply scanDoubleQuotedIdent_stable; [lia | assumption].
    - apply IH; [lia | assumption]. }
  destruct (Peek s =? EOF); [reflexivity|].
  destruct (isDoubleQuotedIdentChar (Peek s)); [now apply Hident|].
  destruct (Peek s =? r "$").
  { apply bind_stable; intros; [| | exact H].
    - apply scanVar_stable; [lia | assumption].
    - apply IH; [lia | assumption]. }
  destruct (Peek s =? dquote); [reflexivity | now apply Hident].
Qed.

Lemma scanSingleQuoted_stable :
  forall n m s,
    (n <= m)%nat -> scanSingleQuoted n s <> Timeout ->
    scanSingleQuoted m s = scanSingleQuoted n s.
Proof.
  intros n m s Hle H. unfold scanSingleQuoted in *. cbv [bind next] in *.
  now apply scanSingleQuoted_loop_stable.
Qed.

Lemma scanDoubleQuoted_stable :
  forall n m s,
    (n <= m)%nat -> scanDoubleQuoted n s <> Timeout ->
    scanDoubleQuoted m s = scanDoubleQuoted n s.
Proof.
  intros n m s Hle H. unfold scanDoubleQuoted in *. cbv [bind next] in *.
  now apply scanDoubleQuoted_loop_stable.
Qed.

Lemma scanStrs_loop_stable :
  forall n m b acc s,
    (n <= m)%nat -> scanStrs_loop n b acc s <> Timeout ->
    scanStrs_loop m b acc s = scanStrs_loop n b acc s.
Proof.
  induction n as [|n IH]; intros m b acc s Hle H; [now elim H|].
  destruct m as [|m]; [lia|]. cbn [scanStrs_loop] in *.
  destruct (Peek s =? r "$").
  { apply bind_stable; intros; [| | exact H].
    - apply scanVar_stable; [lia | assumption].
    - apply IH; [lia | assumption]. }
  destruct (Peek s =? dquote).
  { apply bind_stable; intros; [| | exact H].
    - apply scanDoubleQuoted_stable; [lia | assumption].
    - apply IH; [lia | assumption]. }
  destruct (Peek s =? squote).
  { apply bind_stable; intros; [| | exact H].
    - apply scanSingleQuoted_stable; [lia | assumption].
    - apply IH; [lia | assumption]. }
  destruct (Peek s =? r ")").
  { destruct (0 <? length acc)%nat; [reflexivity|].
    destruct b; [reflexivity|]. apply IH; [lia | exact H]. }
  destruct (Peek s =? r "("); [reflexivity|].
  destruct (isSpecialChar (Peek s)); [reflexivity|].
  apply bind_stable; intros; [| | exact H].
  - apply scanIdent_stable; [lia | assumption].
  - apply IH; [lia | assumption].
Qed.

(** The result of the next-token operation does not depend on the
    budget it was computed in. *)
Lemma mainLex_stable :
  forall n m lval s,
    (n <= m)%nat -> mainLex n lval s <> Timeout ->
    mainLex m lval s = mainLex n lval s.
Proof.
  induction n as [|n IH]; intros m lval s Hle H; [now elim H|].
  destruct m as [|m]; [lia|]. cbn [mainLex] in *.
  apply bind_stable; [| | exact H].
  { intros Hb. apply skipRun_stable; [lia | exact Hb]. }
  intros [] s2 H2. cbv [bind peek next ret] in *.
  destruct (Peek s2 =? EOF); [reflexivity|].
  destruct (Peek s2 =? r "#").
  { destruct (skipComment n s2) as [[] s3| |] eqn:Ec; [| | now elim H2];
      unfold skipComment in *;
      rewrite (skipRun_stable _ n m s2) by (lia || (rewrite Ec; discriminate));
      rewrite Ec; [|reflexivity].
    apply IH; [lia | exact H2]. }
  assert (HFD : forall (k : Fragment -> Token * yySymType) s1,
             match scanFD n s1 with
             | Done a s' => Done (k a) s'
             | Fail e => Fail e
             | Timeout => Timeout
             end <> Timeout ->
             match scanFD m s1 with
             | Done a s' => Done (k a) s'
             | Fail e => Fail e
             | Timeout => Timeout
             end
             = match scanFD n s1 with
               | Done a s' => Done (k a) s'
               | Fail e => Fail e
               | Timeout => Timeout
               end).
  { intros k s1 Hk.
    rewrite (scanFD_stable n m s1); [reflexivity | lia |].
    intros E. rewrite E in Hk. now elim Hk. }
  destruct (Peek s2 =? r ">").
  { destruct (Peek (Next s2) =? r "&"); [|reflexivity].
    exact (HFD (fun fd => (REDIRECT_TO_FD, set_expr lval [fd])) (Next s2) H2). }
  destruct (Peek s2 =? r "^").
  { destruct (Peek (Next s2) =? r "&"); [|reflexivity].
    exact (HFD (fun fd => (ERR_REDIRECT_TO_FD, set_expr lval [fd])) (Next s2) H2). }
  destruct ((Peek s2 =? r ";") || (Peek s2 =? newline) ||
            (Peek s2 =? r "|") || (Peek s2 =? r "<")); [reflexivity|].
  unfold scanStrs in *.
  rewrite (scanStrs_loop_stable n m false [] s2); [reflexivity | lia |].
  intros E. rewrite E in H2. now elim H2.
Qed.

(* ------------------------------------------------------------------ *)
(** ** Words with an empty payload *)

Lemma skipRun_inv (p : rune -> bool) :
  forall fuel s s',
    skipRun p fuel s = Done tt s' -> src s' = dropRun p (src s).
Proof.
  induction fuel as [|n IH]; intros [l o] s' H; simpl in H; [discriminate|].
  destruct l as [|c tl].
  - unfold Peek in H; simpl in H. destruct (p EOF).
    + apply IH in H. exact H.
    + now inversion H.
  - rewrite Peek_cons, Next_cons in H. simpl. destruct (p c).
    + apply IH in H. exact H.
    + now inversion H.
Qed.

Lemma skipRun_exit (p : rune -> bool) :
  forall fuel s s',
    skipRun p fuel s = Done tt s' -> p (Peek s') = false.
Proof.
  induction fuel as [|n IH]; intros s s' H; simpl in H; [discriminate|].
  destruct (p (Peek s)) eqn:E; [now apply IH in H | now inversion H; subst].
Qed.

Lemma scanSingleQuoted_loop_grows :
  forall fuel acc s e s',
    scanSingleQuoted_loop fuel acc s = Done e s' ->
    (length acc <= length e)%nat /\
    (length e = length acc -> Peek s = squote /\ s' = Next s).
Proof.
  induction fuel as [|n IH]; intros acc s e s' H; [discriminate H|].
  cbn [scanSingleQuoted_loop] in H.
  assert (Hident :
    (ident <- scanSingleQuotedIdent n ;;
     scanSingleQuoted_loop n (acc ++ [ident])) s = Done e s' ->
    (length acc < length e)%nat).
  { unfold bind. destruct (scanSingleQuotedIdent n s) as [f s1| |];
      try discriminate. intros Hk.
    apply IH in Hk. rewrite length_app in Hk. simpl in Hk. lia. }
  destruct (Peek s =? EOF); [discriminate H|].
  destruct (isSingleQuotedIdentChar (Peek s)); [apply Hident in H; lia|].
  destruct (Peek s =? squote) eqn:E; [|apply Hident in H; lia].
  cbv [bind next ret] in H. inversion H; subst.
  apply Z.eqb_eq in E. auto.
Qed.

Lemma scanDoubleQuoted_loop_grows :
  forall fuel acc s e s',
    scanDoubleQuoted_loop fuel acc s = Done e s' ->
    (length acc <= length e)%nat /\
    (length e = length acc -> Peek s = dquote /\ s' = Next s).
Proof.
  induction fuel as [|n IH]; intros acc s e s' H; [discriminate H|].
  cbn [scanDoubleQuoted_loop] in H.
  assert (Hgrow : forall c : M Fragment,
    (f <- c ;; scanDoubleQuoted_loop n (acc ++ [f])) s = Done e s' ->
    (length acc < length e)%nat).
  { intros c. unfold bind. destruct (c s) as [f s1| |]; try discriminate.
    intros Hk. apply IH in Hk. rewrite length_app in Hk. simpl in Hk. lia. }
  destruct (Peek s =? EOF); [discriminate H|].
  destruct (isDoubleQuotedIdentChar (Peek s)); [apply Hgrow in H; lia|].
  destruct (Peek s =? r "$"); [apply Hgrow in H; lia|].
  destruct (Peek s =? dquote) eqn:E; [|apply Hgrow in H; lia].
  cbv [bind next ret] in H. inversion H; subst.
  apply Z.eqb_eq in E. auto.
Qed.

Lemma Peek_Next_src (s : Scanner) (c : rune) :
  Peek s = c -> c <> EOF -> src s = c :: src (Next s).
Proof.
  unfold Peek, Next. destruct (src s) as [|d tl] eqn:E; simpl.
  - intros <- H. now elim H.
  - now intros ->.
Qed.

(** An empty region: the closing quote follows the opening one. *)
Lemma scanDoubleQuoted_empty (fuel : nat) (s s' : Scanner) :
  Peek s = dquote ->
  scanDoubleQuoted fuel s = Done [] s' ->
  src s = dquote :: dquote :: src s'.
Proof.
  intros Hp H. unfold scanDoubleQuoted in H. cbv [bind next] in H.
  apply scanDoubleQuoted_loop_grows in H. destruct H as [_ H].
  destruct (H eq_refl) as [Hq ->].
  rewrite (Peek_Next_src s dquote Hp) by discriminate.
  now rewrite (Peek_Next_src (Next s) dquote Hq) by discriminate.
Qed.

Lemma scanSingleQuoted_empty (fuel : nat) (s s' : Scanner) :
  Peek s = squote ->
  scanSingleQuoted fuel s = Done [] s' ->
  src s = squote :: squote :: src s'.
Proof.
  intros Hp H. unfold scanSingleQuoted in H. cbv [bind next] in H.
  apply scanSingleQuoted_loop_grows in H. destruct H as [_ H].
  destruct (H eq_refl) as [Hq ->].
  rewrite (Peek_Next_src s squote Hp) by discriminate.
  now rewrite (Peek_Next_src (Next s) squote Hq) by discriminate.
Qed.

Ltac step_bind H c :=
  unfold bind in H;
  let f := fresh "f" in
  let s1 := fresh "s1" in
  let E := fresh "E" in
  destruct c as [f s1| |] eqn:E; try discriminate H.

(** The word only grows from one iteration of [scanStrs] to the next. *)
Lemma scanStrs_loop_grows :
  forall fuel b acc s tok v s',
    scanStrs_loop fuel b acc s = Done (tok, v) s' ->
    (length acc <= length v)%nat.
Proof.
  induction fuel as [|n IH]; intros b acc s tok v s' H; [discriminate H|].
  cbn [scanStrs_loop] in H.
  destruct (Peek s =? r "$").
  { step_bind H (scanVar n s). apply IH in H. rewrite length_app in H.
    simpl in H. lia. }
  destruct (Peek s =? dquote).
  { step_bind H (scanDoubleQuoted n s). apply IH in H.
    rewrite length_app in H. lia. }
  destruct (Peek s =? squote).
  { step_bind H (scanSingleQuoted n s). apply IH in H.
    rewrite length_app in H. lia. }
  destruct (Peek s =? r ")").
  { destruct (0 <? length acc)%nat; [inversion H; subst; lia|].
    destruct b; [destruct (length acc =? 0)%nat; inversion H; subst; lia|].
    now apply IH in H. }
  destruct (Peek s =? r "(").
  { destruct ((length acc =? 0)%nat && negb b); [inversion H; subst; lia|].
    destruct b; inversion H; subst; lia. }
  destruct (isSpecialChar (Peek s)).
  { destruct b; inversion H; subst; lia. }
  step_bind H (scanIdent n s). apply IH in H. rewrite length_app in H.
  simpl in H. lia.
Qed.

(** Once a [)] is pending, [STR] is only returned with a word. *)
Lemma scanStrs_loop_pending :
  forall fuel acc s v s',
    scanStrs_loop fuel true acc s = Done (STR, v) s' -> v <> [].
Proof.
  induction fuel as [|n IH]; intros acc s v s' H; [discriminate H|].
  cbn [scanStrs_loop] in H.
  destruct (Peek s =? r "$").
  { step_bind H (scanVar n s). now apply IH in H. }
  destruct (Peek s =? dquote).
  { step_bind H (scanDoubleQuoted n s). now apply IH in H. }
  destruct (Peek s =? squote).
  { step_bind H (scanSingleQuoted n s). now apply IH in H. }
  destruct (Peek s =? r ")").
  { destruct (0 <? length acc)%nat eqn:E.
    - inversion H; subst. apply Nat.ltb_lt in E. destruct v; simpl in *;
        [lia | discriminate].
    - destruct (length acc =? 0)%nat; discriminate H. }
  destruct (Peek s =? r "(").
  { rewrite andb_false_r in H. discriminate H. }
  destruct (isSpecialChar (Peek s)); [discriminate H|].
  step_bind H (scanIdent n s). now apply IH in H.
Qed.

(** [scanStrs] returns [STR] with an empty word only for text made of
    empty quoted regions. *)
Lemma scanStrs_loop_empty :
  forall fuel s s',
    scanStrs_loop fuel false [] s = Done (STR, []) s' ->
    exists w, emptyQuotes w /\ src s = w ++ src s'.
Proof.
  induction fuel as [|n IH]; intros s s' H; [discriminate H|].
  cbn [scanStrs_loop] in H.
  destruct (Peek s =? r "$").
  { step_bind H (scanVar n s). apply scanStrs_loop_grows in H. simpl in H. lia. }
  destruct (Peek s =? dquote) eqn:E2.
  { step_bind H (scanDoubleQuoted n s). pose proof H as Hg.
    apply scanStrs_loop_grows in Hg. cbn [app] in *.
    destruct f; [|simpl in Hg; lia].
    apply Z.eqb_eq in E2. apply (scanDoubleQuoted_empty n s s1 E2) in E.
    destruct (IH _ _ H) as (w & Hw & Hs).
    exists (dquote :: dquote :: w). split; [now constructor|].
    rewrite E, Hs. reflexivity. }
  destruct (Peek s =? squote) eqn:E3.
  { step_bind H (scanSingleQuoted n s). pose proof H as Hg.
    apply scanStrs_loop_grows in Hg. cbn [app] in *.
    destruct f; [|simpl in Hg; lia].
    apply Z.eqb_eq in E3. apply (scanSingleQuoted_empty n s s1 E3) in E.
    destruct (IH _ _ H) as (w & Hw & Hs).
    exists (squote :: squote :: w). split; [now constructor|].
    rewrite E, Hs. reflexivity. }
  destruct (Peek s =? r ")").
  { cbn in H. apply scanStrs_loop_pending in H. now elim H. }
  destruct (Peek s =? r "("); [discriminate H|].
  destruct (isSpecialChar (Peek s)).
  { inversion H; subst. exists []. split; [constructor | reflexivity]. }
  step_bind H (scanIdent n s). apply scanStrs_loop_grows in H. simpl in H. lia.
Qed.

Lemma tokenOf_not_STR (e : StrExpr) : tokenOf e <> Some STR.
Proof.
  intros H. apply tokenOf_spec in H. destruct H as [_ H].
  unfold keywords in H. simpl in H.
  repeat (destruct H as [H|H]; [discriminate H|]). exact H.
Qed.

(** After a comment [mainLex] returns the newline that ended it. *)
Lemma mainLex_at_newline (fuel : nat) (lval lval' : yySymType) (s s' : Scanner)
  (tok : Token) :
  Peek s = newline ->
  mainLex fuel lval s = Done (tok, lval') s' -> tok = Char newline.
Proof.
  intros Hp H. destruct fuel as [|[|m]]; try discriminate H.
  cbn [mainLex skipBrank skipRun] in H. cbv [bind peek next ret] in H.
  rewrite Hp in H. cbn in H. rewrite Hp in H. cbn in H. now inversion H.
Qed.

(** [mainLex] returns [STR] only from its last case, with the word that
    [scanStrs] assembled after the blanks as payload. *)
Lemma mainLex_STR_inv (fuel : nat) (lval lval' : yySymType) (s s' : Scanner) :
  mainLex fuel lval s = Done (STR, lval') s' ->
  exists n s2 v,
    src s2 = dropRun isBrank (src s) /\
    scanStrs n s2 = Done (STR, v) s' /\
    lval' = set_str lval v.
Proof.
  intros H. destruct fuel as [|n]; [discriminate H|].
  cbn [mainLex] in H. cbv [bind peek next ret] in H.
  destruct (skipBrank n s) as [[] s2| |] eqn:Eb; try discriminate H.
  apply skipRun_inv in Eb.
  destruct (Peek s2 =? EOF); [discriminate H|].
  destruct (Peek s2 =? r "#").
  { destruct (skipComment n s2) as [[] s3| |] eqn:Ec; try discriminate H.
    apply skipRun_exit in Ec. apply negb_false_iff, Z.eqb_eq in Ec.
    apply (mainLex_at_newline _ _ _ _ _ _ Ec) in H. discriminate H. }
  destruct (Peek s2 =? r ">").
  { destruct (Peek (Next s2) =? r "&");
      [destruct (scanFD n (Next s2)); discriminate H|].
    destruct (Peek (Next s2) =? r ">"); discriminate H. }
  destruct (Peek s2 =? r "^").
  { destruct (Peek (Next s2) =? r "&");
      [destruct (scanFD n (Next s2)); discriminate H|].
    destruct (Peek (Next s2) =? r "^"); discriminate H. }
  destruct ((Peek s2 =? r ";") || (Peek s2 =? newline) ||
            (Peek s2 =? r "|") || (Peek s2 =? r "<")); [discriminate H|].
  destruct (scanStrs n s2) as [[tok v] s1| |] eqn:Es; try discriminate H.
  destruct tok; try discriminate H.
  destruct (tokenOf v) as [kw|] eqn:Ek.
  - inversion H; subst. now elim (tokenOf_not_STR v).
  - inversion H; subst. now exists n, s2, v.
Qed.

(** C2, as amended: whenever the next-token operation returns [STR]
    with an empty fragment sequence as payload, the word it consumed
    consists of nothing but empty quoted regions, so every other word
    returned as [STR] has a non-empty payload; and the empty quoted word
    (two double quotes, or two single quotes) is returned as [STR] with
    the empty sequence as payload. *)
Theorem STR_payload :
  (forall fuel lval lval' s s',
      mainLex fuel lval s = Done (STR, lval') s' ->
      str lval' = [] ->
      exists w, emptyQuotes w /\ dropRun isBrank (src s) = w ++ src s') /\
  (forall fuel lval,
      mainLex (4 + fuel) lval (newScanner [dquote; dquote])
      = Done (STR, set_str lval []) {| src := []; offset := 2 |} /\
      mainLex (4 + fuel) lval (newScanner [squote; squote])
      = Done (STR, set_str lval []) {| src := []; offset := 2 |}).
Proof.
  split.
  - intros fuel lval lval' s s' H Hempty.
    destruct (mainLex_STR_inv _ _ _ _ _ H) as (n & s2 & v & Hs2 & Hscan & ->).
    cbn in Hempty. subst v. rewrite <- Hs2.
    now apply scanStrs_loop_empty with (fuel := n).
  - intros. split; reflexivity.
Qed.

Lemma STR_payload_witness :
  exists w,
    emptyQuotes w /\
    dropRun isBrank (src (newScanner (r " " :: dquote :: dquote :: runes " x")))
    = w ++ runes " x".
Proof.
  destruct STR_payload as [H _].
  exact (H 4%nat lval0 (set_str lval0 [])
           (newScanner (r " " :: dquote :: dquote :: runes " x"))
           {| src := runes " x"; offset := 3 |} eq_refl eq_refl).
Defined.

(** C2 as the specification states it fails: the empty quoted word is
    returned as [STR] with an empty fragment sequence as payload. *)
Lemma STR_payload_counterexample :
  mainLex 4 lval0 (newScanner [dquote; dquote])
  = Done (STR, {| str := []; expr := [] |}) {| src := []; offset := 2 |}.
Proof. reflexivity. Qed.

(* ------------------------------------------------------------------ *)
(** ** The walker *)

Lemma Node_induction (P : Node -> Prop) :
  P Nil ->
  (forall e, P (Leaf e)) ->
  (forall n, Forall P n -> P (Exprs n)) ->
  (forall n, Forall P n -> P (Stmts n)) ->
  (forall cmd args, P cmd -> Forall P args -> P (CmdStmt cmd args)) ->
  (forall body, Forall P body -> P (BeginStmt body)) ->
  (forall cond body els,
      P cond -> Forall P body -> Forall P els -> P (IfStmt cond body els)) ->
  (forall args body, Forall P args -> Forall P body -> P (FunctionStmt args body)) ->
  (forall lhs rhs, P lhs -> P rhs -> P (PipeStmt lhs rhs)) ->
  (forall lhs rhs, P lhs -> P rhs -> P (RedirectStmt lhs rhs)) ->
  forall node, P node.
Proof.
  intros HNil HLeaf HExprs HStmts HCmd HBegin HIf HFun HPipe HRedir.
  fix IH 1.
  assert (IHs : forall l, Forall P l).
  { fix IHl 1. intros [|e tl]; [constructor | constructor; [apply IH | apply IHl]]. }
  intros [ | e | n | n | cmd args | body | cond body els | args body
         | lhs rhs | lhs rhs ].
  - exact HNil.
  - apply HLeaf.
  - apply HExprs, IHs.
  - apply HStmts, IHs.
  - apply HCmd; [apply IH | apply IHs].
  - apply HBegin, IHs.
  - apply HIf; [apply IH | apply IHs | apply IHs].
  - apply HFun; apply IHs.
  - apply HPipe; apply IH.
  - apply HRedir; apply IH.
Qed.

Lemma Bracketed_app (a b : list Node) :
  Bracketed a -> Bracketed b -> Bracketed (a ++ b).
Proof.
  induction 1 as [|n inner rest Hn Hi _ Hr IH]; intros Hb; [exact Hb|].
  cbn [app]. rewrite <- app_assoc. cbn [app].
  apply Bracketed_pair; auto.
Qed.

Lemma Bracketed_one (n : Node) (inner : list Node) :
  isExit n = false -> Bracketed inner -> Bracketed (n :: inner ++ [Nil]).
Proof. intros Hn Hi. apply Bracketed_pair; [assumption.. | constructor]. Qed.

(** A trace of the grammar passes the depth check, from any depth and
    in front of any continuation. *)
Lemma Bracketed_bracketed (t : list Node) :
  Bracketed t ->
  forall depth rest, bracketed depth (t ++ rest) = bracketed depth rest.
Proof.
  induction 1 as [|n inner rest0 Hn _ IHi _ IHr]; intros depth rest;
    [reflexivity|].
  cbn [app]. rewrite <- app_assoc. cbn [app].
  destruct n; try discriminate Hn; cbn [bracketed]; rewrite IHi;
    cbn [bracketed]; apply IHr.
Qed.

Lemma Bracketed_entries_exits (t : list Node) :
  Bracketed t -> entries t = exits t.
Proof.
  unfold entries, exits.
  induction 1 as [|n inner rest Hn _ IHi _ IHr]; [reflexivity|].
  cbn [filter]. rewrite Hn. cbn [negb length].
  rewrite !filter_app, !length_app. cbn [filter isExit negb length]. lia.
Qed.

Section WalkerProperties.

Context {St V : Type} (call : V -> Node -> St -> St * option V).

Lemma Walk_Nil (v : option V) : Walk call v Nil = retW tt.
Proof. reflexivity. Qed.

(** The sequences that [Walk] boxes itself are walked as [Walk] walks a
    sequence node. *)
Lemma Walk_Exprs (v : option V) (n : list Node) :
  Walk call v (Exprs n) = walkBox call (Walk call) v (Exprs n) n.
Proof. reflexivity. Qed.

Lemma Walk_Stmts (v : option V) (n : list Node) :
  Walk call v (Stmts n) = walkBox call (Walk call) v (Stmts n) n.
Proof. reflexivity. Qed.

Lemma walkStmts_eq (f : option V) (stmts : list Node) :
  walkStmts call f stmts
  = ifNonEmpty stmts (walkBox call (Walk call) f (Stmts stmts) stmts).
Proof. reflexivity. Qed.

Lemma walkExprs_eq (f : option V) (exprs : list Node) :
  walkExprs call f exprs
  = ifNonEmpty exprs (walkBox call (Walk call) f (Exprs exprs) exprs).
Proof. reflexivity. Qed.

(** [Walk] on the statements with bodies, in the words of the source. *)
Lemma Walk_IfStmt (v : option V) (cond : Node) (body els : list Node) :
  Walk call v (IfStmt cond body els)
  = bindW (invoke call v (IfStmt cond body els)) (fun f =>
    bindW (bindW (Walk call f cond) (fun _ =>
           bindW (walkStmts call f body) (fun _ =>
           walkStmts call f els))) (fun _ =>
    bindW (invoke call v Nil) (fun _ => retW tt))).
Proof. reflexivity. Qed.

Lemma Walk_BeginStmt (v : option V) (body : list Node) :
  Walk call v (BeginStmt body)
  = bindW (invoke call v (BeginStmt body)) (fun f =>
    bindW (Walk call f (Stmts body)) (fun _ =>
    bindW (invoke call v Nil) (fun _ => retW tt))).
Proof. reflexivity. Qed.

Lemma Walk_FunctionStmt (v : option V) (args body : list Node) :
  Walk call v (FunctionStmt args body)
  = bindW (invoke call v (FunctionStmt args body)) (fun f =>
    bindW (bindW (walkExprs call f args) (fun _ =>
           walkStmts call f body)) (fun _ =>
    bindW (invoke call v Nil) (fun _ => retW tt))).
Proof. reflexivity. Qed.

Lemma Walk_CmdStmt (v : option V) (cmd : Node) (args : list Node) :
  Walk call v (CmdStmt cmd args)
  = bindW (invoke call v (CmdStmt cmd args)) (fun f =>
    bindW (bindW (Walk call f cmd) (fun _ => walkExprs call f args)) (fun _ =>
    bindW (invoke call v Nil) (fun _ => retW tt))).
Proof. reflexivity. Qed.

(** An empty body is skipped by [walkStmts] and [walkExprs]. *)
Lemma walkStmts_empty (f : option V) (w : World St) :
  walkStmts call f [] w = Ret tt w /\ walkExprs call f [] w = Ret tt w.
Proof. split; reflexivity. Qed.

Lemma traced_ret : traced (St := St) (retW tt).
Proof.
  intros [st t]. exists st, []. cbn. rewrite app_nil_r.
  split; [reflexivity | constructor].
Qed.

Lemma traced_bind (c1 c2 : W St unit) :
  traced c1 -> traced c2 -> traced (bindW c1 (fun _ => c2)).
Proof.
  intros H1 H2 w. unfold bindW.
  destruct (H1 w) as (st1 & t1 & E1 & B1). rewrite E1.
  destruct (H2 (mkWorld st1 (trace w ++ t1))) as (st2 & t2 & E2 & B2).
  rewrite E2. exists st2, (t1 ++ t2). cbn [trace]. rewrite app_assoc.
  split; [reflexivity | now apply Bracketed_app].
Qed.

Lemma traced_ifNonEmpty (n : list Node) (c : W St unit) :
  traced c -> traced (ifNonEmpty n c).
Proof.
  intros H. unfold ifNonEmpty. destruct (0 <? length n)%nat;
    [exact H | apply traced_ret].
Qed.

Lemma traced_paired (node : Node) (c : W St unit) :
  isExit node = false -> paired node c -> traced c.
Proof.
  intros Hn H w. destruct (H w) as (st' & inner & E & B).
  exists st', (node :: inner ++ [Nil]).
  split; [exact E | now apply Bracketed_one].
Qed.

Ltac from_paired :=
  match goal with
  | |- traced (Walk ?call ?v ?node) /\ _ =>
      cut (paired node (Walk call v node));
      [ let Hp := fresh "Hp" in
        intros Hp; split;
        [ apply (traced_paired node); [reflexivity | exact Hp]
        | intros _; exact Hp ]
      | ]
  end.

Section NeverStop.

(** The visitors that never signal "stop": a set of visitors, each
    of which returns a visitor of the set on every call. *)
Variable keeps : V -> Prop.
Hypothesis continues :
  forall c node st,
    keeps c -> exists c', snd (call c node st) = Some c' /\ keeps c'.

Lemma traced_forEach (n : list Node) :
  Forall (walksWell call keeps) n ->
  forall g, keeps g -> traced (forEach (Walk call) (Some g) n).
Proof.
  induction 1 as [|e tl He _ IH]; intros g Hg.
  - apply traced_ret.
  - change (forEach (Walk call) (Some g) (e :: tl))
      with (bindW (Walk call (Some g) e)
                  (fun _ => forEach (Walk call) (Some g) tl)).
    apply traced_bind; [now apply He | now apply IH].
Qed.

(** Entry, children, exit: the shape of every walk of a node. *)
Lemma paired_enter_exit (node : Node) (body : option V -> W St unit) (v : V) :
  keeps v ->
  (forall g, keeps g -> traced (body (Some g))) ->
  paired node
    (bindW (invoke call (Some v) node) (fun f =>
     bindW (body f) (fun _ =>
     bindW (invoke call (Some v) Nil) (fun _ => retW tt)))).
Proof.
  intros Hv Hbody w. unfold bindW, invoke.
  destruct (continues v node (user w) Hv) as (g & Hc & Hg).
  destruct (call v node (user w)) as [st1 f]. cbn [snd] in Hc. subst f.
  destruct (Hbody g Hg (mkWorld st1 (trace w ++ [node]))) as (st2 & t & E & B).
  rewrite E. cbn [user trace].
  destruct (call v Nil st2) as [st3 f3]. cbn [retW].
  exists st3, t. split; [|exact B].
  unfold retW. rewrite <- !app_assoc. reflexivity.
Qed.

Lemma paired_walkBox (box : Node) (n : list Node) (v : V) :
  keeps v ->
  Forall (walksWell call keeps) n ->
  paired box (walkBox call (Walk call) (Some v) box n).
Proof.
  intros Hv Hn. unfold walkBox.
  apply (paired_enter_exit box (fun f => forEach (Walk call) f n));
    [exact Hv|].
  now apply traced_forEach.
Qed.

Lemma traced_walkBox (box : Node) (n : list Node) (v : V) :
  keeps v ->
  isExit box = false ->
  Forall (walksWell call keeps) n ->
  traced (ifNonEmpty n (walkBox call (Walk call) (Some v) box n)).
Proof.
  intros Hv Hb Hn. apply traced_ifNonEmpty.
  apply (traced_paired box); [exact Hb | now apply paired_walkBox].
Qed.

(** Every node is walked well by visitors that never stop. *)
Lemma Walk_walksWell : forall node, walksWell call keeps node.
Proof.
  apply Node_induction.
  - intros v _. split; [rewrite Walk_Nil; apply traced_ret | discriminate].
  - intros e v Hv. from_paired.
    apply (paired_enter_exit (Leaf e) (fun _ => retW tt)); [exact Hv|].
    intros _ _. apply traced_ret.
  - intros n Hn v Hv. from_paired.
    rewrite Walk_Exprs. now apply paired_walkBox.
  - intros n Hn v Hv. from_paired.
    rewrite Walk_Stmts. now apply paired_walkBox.
  - intros cmd args Hcmd Hargs v Hv. from_paired.
    rewrite Walk_CmdStmt.
    apply (paired_enter_exit _
             (fun f => bindW (Walk call f cmd) (fun _ => walkExprs call f args)));
      [exact Hv|].
    intros g Hg. apply traced_bind; [now apply Hcmd|].
    rewrite walkExprs_eq. now apply traced_walkBox.
  - intros body Hbody v Hv. from_paired.
    rewrite Walk_BeginStmt.
    apply (paired_enter_exit _ (fun f => Walk call f (Stmts body)));
      [exact Hv|].
    intros g Hg. rewrite Walk_Stmts.
    apply (traced_paired (Stmts body)); [reflexivity|].
    now apply paired_walkBox.
  - intros cond body els Hcond Hbody Hels v Hv. from_paired.
    rewrite Walk_IfStmt.
    apply (paired_enter_exit _
             (fun f => bindW (Walk call f cond) (fun _ =>
                       bindW (walkStmts call f body) (fun _ =>
                       walkStmts call f els))));
      [exact Hv|].
    intros g Hg. apply traced_bind; [now apply Hcond|].
    rewrite !walkStmts_eq.
    apply traced_bind; now apply traced_walkBox.
  - intros args body Hargs Hbody v Hv. from_paired.
    rewrite Walk_FunctionStmt.
    apply (paired_enter_exit _
             (fun f => bindW (walkExprs call f args) (fun _ =>
                       walkStmts call f body)));
      [exact Hv|].
    intros g Hg. rewrite walkExprs_eq, walkStmts_eq.
    apply traced_bind; now apply traced_walkBox.
  - intros lhs rhs Hl Hr v Hv. from_paired.
    apply (paired_enter_exit (PipeStmt lhs rhs)
             (fun f => bindW (Walk call f lhs) (fun _ => Walk call f rhs)));
      [exact Hv|].
    intros g Hg. apply traced_bind; [now apply Hl | now apply Hr].
  - intros lhs rhs Hl Hr v Hv. from_paired.
    apply (paired_enter_exit (RedirectStmt lhs rhs)
             (fun f => bindW (Walk call f lhs) (fun _ => Walk call f rhs)));
      [exact Hv|].
    intros g Hg. apply traced_bind; [now apply Hl | now apply Hr].
Qed.

End NeverStop.

End WalkerProperties.

(** C7, which the code breaks: when the callback signals "stop" on a
    node that has a child, [Walk] hands the nil visitor to the walk of
    the child, which calls it: the traversal panics right after the
    callback's invocation on the parent, for the boolean wrapper
    ([Inspect]) and for a visitor that returns nil alike. *)
Theorem stop_on_parent_panics :
  forall (St : Type) (w : World St) (e : StrExpr) (args : list Node) (rhs : Node),
    Inspect (CmdStmt (Leaf e) args) (fun _ st => (st, false)) w
    = Panic (mkWorld (user w) (trace w ++ [CmdStmt (Leaf e) args])) /\
    Walk (fun (_ : unit) (_ : Node) (st : St) => (st, None)) (Some tt)
         (PipeStmt (Leaf e) rhs) w
    = Panic (mkWorld (user w) (trace w ++ [PipeStmt (Leaf e) rhs])).
Proof. intros. split; reflexivity. Qed.

(** C8, which the code breaks for a block: [Walk] hands the body of a
    [BeginStmt] to [Walk] itself, not to [walkStmts], so the callback is
    invoked on the empty [Stmts] of an empty block (entry and exit),
    while the empty bodies of a conditional, a function definition and a
    command are skipped. *)
Theorem empty_block_body_is_visited :
  forall (St : Type) (w : World St),
    Inspect (BeginStmt []) (fun _ st => (st, true)) w
    = Ret tt (mkWorld (user w)
                (trace w ++ [BeginStmt []; Stmts []; Nil; Nil])) /\
    Inspect (IfStmt Nil [] []) (fun _ st => (st, true)) w
    = Ret tt (mkWorld (user w) (trace w ++ [IfStmt Nil [] []; Nil])) /\
    Inspect (FunctionStmt [] []) (fun _ st => (st, true)) w
    = Ret tt (mkWorld (user w) (trace w ++ [FunctionStmt [] []; Nil])).
Proof.
  intros St w. unfold Inspect. cbn. rewrite <- !app_assoc. cbn.
  repeat split.
Qed.

(** C9: when neither the visitor nor any visitor it returns ever signals
    "stop", the walk of any node returns; among the callback invocations
    it makes there are as many entries as exits, they are well
    bracketed, and the invocations for the children of the walked node
    lie, well bracketed themselves, between its entry and its exit. *)
Theorem walk_bracketing {St V : Type} (call : V -> Node -> St -> St * option V)
  (keeps : V -> Prop) :
  (forall c node st,
      keeps c -> exists c', snd (call c node st) = Some c' /\ keeps c') ->
  forall v node w,
    keeps v ->
    exists st' t,
      Walk call (Some v) node w = Ret tt (mkWorld st' (trace w ++ t)) /\
      entries t = exits t /\
      bracketed 0 t = true /\
      (isExit node = false ->
       exists inner, t = node :: inner ++ [Nil] /\ bracketed 0 inner = true).
Proof.
  intros Hcont v node w Hv.
  destruct (Walk_walksWell call keeps Hcont node v Hv) as [Ht Hp].
  assert (Hb0 : forall t, Bracketed t -> bracketed 0 t = true).
  { intros t Ht0. rewrite <- (app_nil_r t). now rewrite Bracketed_bracketed. }
  destruct (isExit node) eqn:Ex.
  - destruct (Ht w) as (st' & t & E & B). exists st', t.
    repeat split; [exact E | now apply Bracketed_entries_exits | now apply Hb0
                  | discriminate].
  - destruct (Hp eq_refl w) as (st' & inner & E & B).
    exists st', (node :: inner ++ [Nil]).
    assert (Bracketed (node :: inner ++ [Nil])) by now apply Bracketed_one.
    repeat split; [exact E | now apply Bracketed_entries_exits | now apply Hb0 |].
    intros _. exists inner. split; [reflexivity | now apply Hb0].
Qed.

Lemma walk_bracketing_witness :
  let f : inspector unit := fun _ st => (st, true) in
  let node := IfStmt (Leaf [Ident 3 (runes "x")])
                     [CmdStmt (Leaf [Ident 5 (runes "ls")]) []] [] in
  exists st' t,
    Inspect node f (mkWorld tt []) = Ret tt (mkWorld st' ([] ++ t)) /\
    entries t = exits t /\
    bracketed 0 t = true /\
    (isExit node = false ->
     exists inner, t = node :: inner ++ [Nil] /\ bracketed 0 inner = true).
Proof.
  intros f node.
  apply (walk_bracketing visit (fun c => c = f)); [|reflexivity].
  intros c n st ->. exists f. split; reflexivity.
Defined.

(* ------------------------------------------------------------------ *)
(** ** Further properties of the lexer: what a scan consumes *)

Lemma reads_nil (s : Scanner) : reads s [] s.
Proof. split; simpl; [reflexivity | lia]. Qed.

Lemma reads_app (s s1 s2 : Scanner) (a b : list rune) :
  reads s a s1 -> reads s1 b s2 -> reads s (a ++ b) s2.
Proof.
  intros [Ha Oa] [Hb Ob]. split.
  - now rewrite Ha, Hb, app_assoc.
  - rewrite length_app. lia.
Qed.

Lemma reads_Next (s : Scanner) (c : rune) :
  Peek s = c -> c <> EOF -> reads s [c] (Next s).
Proof.
  unfold Peek, Next, reads. destruct (src s) as [|d tl] eqn:E; simpl.
  - intros <- H. now elim H.
  - intros -> _. split; [reflexivity | lia].
Qed.

Lemma ahead_refl (s : Scanner) : ahead s s.
Proof. exists []. apply reads_nil. Qed.

Lemma ahead_trans (s s1 s2 : Scanner) : ahead s s1 -> ahead s1 s2 -> ahead s s2.
Proof. intros [a Ha] [b Hb]. exists (a ++ b). now apply reads_app with s1. Qed.

Lemma ahead_reads (s s' : Scanner) (pre : list rune) : reads s pre s' -> ahead s s'.
Proof. intros H. now exists pre. Qed.

Lemma ahead_Next (s : Scanner) : ahead s (Next s).
Proof.
  unfold ahead, reads, Next. destruct (src s) as [|c tl] eqn:E.
  - exists []. rewrite ?E. simpl. split; [reflexivity | lia].
  - exists [c]. simpl. split; [reflexivity | lia].
Qed.

Lemma ahead_In (s s' : Scanner) (c : rune) :
  ahead s s' -> In c (src s') -> In c (src s).
Proof. intros [pre [H _]] Hin. rewrite H. apply in_or_app. now right. Qed.

Lemma Peek_In (s : Scanner) (c : rune) : Peek s = c -> c <> EOF -> In c (src s).
Proof.
  unfold Peek. destruct (src s); [intros <- H; now elim H | intros ->; now left].
Qed.

(** Whatever the budget, a run loop that returns has appended to [acc]
    the runes it consumed, all of which pass the test, and stands in
    front of a rune (or the end) that fails it. *)
Lemma scanRun_inv (p : rune -> bool) :
  forall fuel acc s run s',
    scanRun p fuel acc s = Done run s' ->
    exists got,
      run = acc ++ got /\ reads s got s' /\
      Forall (fun c => p c = true) got /\ p (Peek s') = false.
Proof.
  induction fuel as [|n IH]; intros acc s run s' H; [discriminate H|].
  cbn [scanRun] in H. destruct (p (Peek s)) eqn:E.
  - apply IH in H. destruct H as (got & -> & Hr & Hall & Hstop).
    destruct (src s) as [|c tl] eqn:Es.
    + exfalso. assert (Hn : Next s = s) by (unfold Next; now rewrite Es).
      rewrite Hn in Hr. destruct Hr as [Hsrc _]. rewrite Es in Hsrc.
      symmetry in Hsrc. apply app_eq_nil in Hsrc. destruct Hsrc as [_ Hs'].
      unfold Peek in Hstop, E. rewrite Hs' in Hstop. rewrite Es in E.
      congruence.
    + assert (Hc : Peek s = c) by (unfold Peek; now rewrite Es).
      exists (c :: got). rewrite Hc, <- app_assoc. split; [reflexivity|].
      split; [|split; [constructor; [congruence | exact Hall] | exact Hstop]].
      change (c :: got) with ([c] ++ got). apply reads_app with (Next s);
        [|exact Hr].
      unfold reads, Next. rewrite Es. simpl. split; [reflexivity | lia].
  - inversion H; subst. exists []. rewrite app_nil_r.
    repeat split; [simpl; lia | constructor | exact E].
Qed.

Lemma skipRun_ahead (p : rune -> bool) :
  forall fuel s s', skipRun p fuel s = Done tt s' -> ahead s s'.
Proof.
  induction fuel as [|n IH]; intros s s' H; [discriminate H|].
  cbn [skipRun] in H. destruct (p (Peek s)).
  - apply IH in H. eapply ahead_trans; [apply ahead_Next | exact H].
  - inversion H; subst. apply ahead_refl.
Qed.

(** The shape of what a run scanner returns, for the scanner's test [p]
    and the fragment [mk] it builds. *)
Lemma run_scanner_inv (p : rune -> bool) (mk : list rune -> Fragment)
  (err : Error) (fuel : nat) (s s' : Scanner) (f : Fragment) :
  (run <- scanRun p fuel [] ;;
   if (length run =? 0)%nat then fail err else ret (mk run)) s
  = Done f s' ->
  exists name,
    f = mk name /\ name <> [] /\ reads s name s' /\
    Forall (fun c => p c = true) name /\ p (Peek s') = false.
Proof.
  unfold bind. intros H.
  destruct (scanRun p fuel [] s) as [run s1| |] eqn:E; try discriminate H.
  apply scanRun_inv in E. destruct E as (got & -> & Hr & Hall & Hstop).
  cbn [app] in H. destruct got as [|c tl]; [discriminate H|].
  cbn in H. inversion H; subst. exists (c :: tl).
  repeat split; try assumption; try discriminate; apply Hr.
Qed.

(** What the three literal-run scanners return, for the proofs below. *)
Lemma ident_scanners_inv (fuel : nat) (s s' : Scanner) (f : Fragment) :
  (scanIdent fuel s = Done f s' ->
   exists name,
     f = Ident (Pos s) name /\ name <> [] /\ reads s name s' /\
     Forall (fun c => isIdentChar c = true) name /\
     isIdentChar (Peek s') = false) /\
  (scanSingleQuotedIdent fuel s = Done f s' ->
   exists name,
     f = Ident (Pos s) name /\ name <> [] /\ reads s name s' /\
     Forall (fun c => isSingleQuotedIdentChar c = true) name /\
     isSingleQuotedIdentChar (Peek s') = false) /\
  (scanDoubleQuotedIdent fuel s = Done f s' ->
   exists name,
     f = Ident (Pos s) name /\ name <> [] /\ reads s name s' /\
     Forall (fun c => isDoubleQuotedIdentChar c = true) name /\
     isDoubleQuotedIdentChar (Peek s') = false).
Proof.
  repeat split; intros H;
    apply (run_scanner_inv _ (newIdent (Pos s)) ExpectIdentError fuel s s' f);
    exact H.
Qed.

(** The three literal-run scanners return maximal non-empty runs: the
    [Ident] starts where the scan started, its name is exactly the text
    consumed, every rune of it is an identifier character of the
    scanner's context, and the next rune (or the end) is not. *)
Theorem ident_scanners_maximal (fuel : nat) (s s' : Scanner) (f : Fragment) :
  (scanIdent fuel s = Done f s' ->
   exists name,
     f = Ident (Pos s) name /\ name <> [] /\ reads s name s' /\
     Forall (fun c => isIdentChar c = true) name /\
     isIdentChar (Peek s') = false) /\
  (scanSingleQuotedIdent fuel s = Done f s' ->
   exists name,
     f = Ident (Pos s) name /\ name <> [] /\ reads s name s' /\
     Forall (fun c => isSingleQuotedIdentChar c = true) name /\
     isSingleQuotedIdentChar (Peek s') = false) /\
  (scanDoubleQuotedIdent fuel s = Done f s' ->
   exists name,
     f = Ident (Pos s) name /\ name <> [] /\ reads s name s' /\
     Forall (fun c => isDoubleQuotedIdentChar c = true) name /\
     isDoubleQuotedIdentChar (Peek s') = false).
Proof. exact (ident_scanners_inv fuel s s' f). Qed.

Lemma ident_scanners_maximal_witness :
  exists name,
    Ident 0 (runes "ab") = Ident 0 name /\ name <> [] /\
    reads (newScanner (runes "ab c")) name {| src := runes " c"; offset := 2 |} /\
    Forall (fun c => isIdentChar c = true) name /\
    isIdentChar (Peek {| src := runes " c"; offset := 2 |}) = false.
Proof.
  exact (proj1 (ident_scanners_maximal 3 (newScanner (runes "ab c"))
                  {| src := runes " c"; offset := 2 |} (Ident 0 (runes "ab")))
               eq_refl).
Defined.

Lemma run_scanner_fails (p : rune -> bool) (mk : list rune -> Fragment)
  (err e : Error) (fuel : nat) (s : Scanner) :
  (run <- scanRun p fuel [] ;;
   if (length run =? 0)%nat then fail err else ret (mk run)) s
  = Fail e ->
  e = err /\ p (Peek s) = false.
Proof.
  unfold bind. intros H.
  destruct (scanRun p fuel [] s) as [run s1| |] eqn:E; try discriminate H.
  - apply scanRun_inv in E. destruct E as (got & -> & Hr & Hall & Hstop).
    cbn [app] in H. destruct got as [|c tl]; [|discriminate H].
    cbn in H. inversion H; subst. split; [reflexivity|].
    destruct Hr as [Hsrc _]. cbn in Hsrc. unfold Peek in *. now rewrite Hsrc.
  - exfalso. clear H. revert s E. generalize (@nil rune).
    induction fuel as [|n IH]; intros acc s E; [discriminate E|].
    cbn [scanRun] in E. destruct (p (Peek s)); [now apply IH in E | discriminate E].
Qed.

(** The outcomes of [scanVar], for the proofs below. *)
Lemma scanVar_cases (fuel : nat) (s : Scanner) :
  (forall f s',
      scanVar fuel s = Done f s' ->
      exists name,
        f = VarExpr (Pos s) name /\ name <> [] /\ reads (Next s) name s' /\
        Forall (fun c => isVarChar c = true) name /\
        isVarChar (Peek s') = false) /\
  (forall e, scanVar fuel s = Fail e ->
             e = ExpectVarNameError /\ isVarChar (Peek (Next s)) = false) /\
  ((length (src s) < fuel)%nat ->
   isVarChar (Peek (Next s)) = false ->
   scanVar fuel s = Fail ExpectVarNameError).
Proof.
  split; [|split].
  - intros f s' H.
    exact (run_scanner_inv isVarChar (newVar (Pos s)) ExpectVarNameError
             fuel (Next s) s' f H).
  - intros e H.
    exact (run_scanner_fails isVarChar (newVar (Pos s)) ExpectVarNameError
             e fuel (Next s) H).
  - intros Hfuel Hp. rewrite scanVar_spec by exact Hfuel.
    now rewrite takeRun_Peek_false.
Qed.

(** [scanVar] at a [$]: the variable reference starts at the [$], its
    name is the maximal run of letters, digits and underscores after it,
    which is not empty; with no such character after the [$] the scan
    fails with the variable-name error, and with no other error ever. *)
Theorem scanVar_shape (fuel : nat) (s : Scanner) :
  (forall f s',
      scanVar fuel s = Done f s' ->
      exists name,
        f = VarExpr (Pos s) name /\ name <> [] /\ reads (Next s) name s' /\
        Forall (fun c => isVarChar c = true) name /\
        isVarChar (Peek s') = false) /\
  (forall e, scanVar fuel s = Fail e ->
             e = ExpectVarNameError /\ isVarChar (Peek (Next s)) = false) /\
  ((length (src s) < fuel)%nat ->
   isVarChar (Peek (Next s)) = false ->
   scanVar fuel s = Fail ExpectVarNameError).
Proof. exact (scanVar_cases fuel s). Qed.

Lemma scanVar_shape_witness :
  scanVar 4 (newScanner (runes "$ x")) = Fail ExpectVarNameError.
Proof.
  apply (proj2 (proj2 (scanVar_shape 4 (newScanner (runes "$ x")))));
    [simpl; lia | reflexivity].
Defined.

(* ------------------------------------------------------------------ *)
(** ** Further properties of the lexer: quoted regions *)

Lemma takeRun_app (p : rune -> bool) (body tail : list rune) :
  Forall (fun c => p c = true) body ->
  takeRun p (body ++ tail) = body ++ takeRun p tail /\
  dropRun p (body ++ tail) = dropRun p tail.
Proof.
  induction 1 as [|c tl Hc _ [IH1 IH2]]; [split; reflexivity|].
  cbn [app takeRun dropRun]. rewrite Hc, IH1, IH2. split; reflexivity.
Qed.

Lemma run_scanner_starts (p : rune -> bool) (name : list rune) (s s' : Scanner) :
  name <> [] -> reads s name s' -> Forall (fun c => p c = true) name ->
  p (Peek s) = true.
Proof.
  intros Hne [Hsrc _] Hall. destruct name as [|c tl]; [now elim Hne|].
  unfold Peek. rewrite Hsrc. cbn. now inversion Hall.
Qed.

Lemma isSingleQuotedIdentChar_squote : isSingleQuotedIdentChar squote = false.
Proof. reflexivity. Qed.

Lemma isDoubleQuotedIdentChar_dquote : isDoubleQuotedIdentChar dquote = false.
Proof. reflexivity. Qed.

(** The loop of [scanSingleQuoted] returns at the closing quote, after at
    most one literal run. *)
Lemma scanSingleQuoted_loop_inv :
  forall fuel acc s e s',
    scanSingleQuoted_loop fuel acc s = Done e s' ->
    exists body,
      e = acc ++ literal (Pos s) body /\
      reads s (body ++ [squote]) s' /\
      Forall (fun c => isSingleQuotedIdentChar c = true) body.
Proof.
  intros fuel acc s e s' H.
  assert (Hclose : forall k a s0 e0 s0',
             isSingleQuotedIdentChar (Peek s0) = false ->
             scanSingleQuoted_loop k a s0 = Done e0 s0' ->
             e0 = a /\ reads s0 [squote] s0').
  { intros [|k] a s0 e0 s0' Hp H0; [discriminate H0|].
    cbn [scanSingleQuoted_loop] in H0. rewrite Hp in H0.
    destruct (Peek s0 =? EOF); [discriminate H0|].
    destruct (Peek s0 =? squote) eqn:Eq.
    - cbv [bind next ret] in H0. inversion H0; subst. split; [reflexivity|].
      apply Z.eqb_eq in Eq. apply reads_Next; [exact Eq | discriminate].
    - unfold bind in H0.
      destruct (scanSingleQuotedIdent k s0) as [f s1| |] eqn:E;
        try discriminate H0.
      apply (proj1 (proj2 (ident_scanners_inv k s0 s1 f))) in E.
      destruct E as (name & _ & Hne & Hr & Hall & _).
      rewrite (run_scanner_starts _ name s0 s1 Hne Hr Hall) in Hp.
      discriminate Hp. }
  destruct fuel as [|n]; [discriminate H|].
  destruct (isSingleQuotedIdentChar (Peek s)) eqn:Ep.
  - cbn [scanSingleQuoted_loop] in H. rewrite Ep in H.
    destruct (Peek s =? EOF); [discriminate H|].
    unfold bind in H.
    destruct (scanSingleQuotedIdent n s) as [f s1| |] eqn:E;
      try discriminate H.
    apply (proj1 (proj2 (ident_scanners_inv n s s1 f))) in E.
    destruct E as (name & -> & Hne & Hr & Hall & Hstop).
    destruct (Hclose _ _ _ _ _ Hstop H) as [-> Hq].
    exists name. split; [|split; [now apply reads_app with s1 | exact Hall]].
    destruct name; [now elim Hne | reflexivity].
  - destruct (Hclose _ _ _ _ _ Ep H) as [-> Hq].
    exists []. cbn. rewrite app_nil_r. repeat split; try apply Hq. constructor.
Qed.

(** The loop of [scanDoubleQuoted] returns at the closing quote; the
    fragments it appended spell the text it read before it. *)
Lemma scanDoubleQuoted_loop_inv :
  forall fuel acc s e s',
    scanDoubleQuoted_loop fuel acc s = Done e s' ->
    exists got,
      e = acc ++ got /\
      reads s (render got ++ [dquote]) s' /\
      Forall (fragmentOver isDoubleQuotedIdentChar) got.
Proof.
  induction fuel as [|n IH]; intros acc s e s' H; [discriminate H|].
  cbn [scanDoubleQuoted_loop] in H.
  assert (Hident :
    (ident <- scanDoubleQuotedIdent n ;;
     scanDoubleQuoted_loop n (acc ++ [ident])) s = Done e s' ->
    exists got,
      e = acc ++ got /\ reads s (render got ++ [dquote]) s' /\
      Forall (fragmentOver isDoubleQuotedIdentChar) got).
  { unfold bind. intros H0.
    destruct (scanDoubleQuotedIdent n s) as [f s1| |] eqn:E;
      try discriminate H0.
    apply (proj2 (proj2 (ident_scanners_inv n s s1 f))) in E.
    destruct E as (name & -> & Hne & Hr & Hall & _).
    apply IH in H0. destruct H0 as (got & -> & Hr2 & Hgot).
    exists (Ident (Pos s) name :: got). rewrite <- app_assoc.
    split; [reflexivity|]. split; [|constructor; [now split | exact Hgot]].
    cbn [render flat_map renderFragment]. rewrite <- app_assoc.
    now apply reads_app with s1. }
  destruct (Peek s =? EOF); [discriminate H|].
  destruct (isDoubleQuotedIdentChar (Peek s)); [now apply Hident|].
  destruct (Peek s =? r "$") eqn:Ed.
  - unfold bind in H.
    destruct (scanVar n s) as [f s1| |] eqn:E; try discriminate H.
    apply (proj1 (scanVar_cases n s)) in E.
    destruct E as (name & -> & Hne & Hr & Hall & _).
    apply IH in H. destruct H as (got & -> & Hr2 & Hgot).
    exists (VarExpr (Pos s) name :: got). rewrite <- app_assoc.
    split; [reflexivity|]. split; [|constructor; [now split | exact Hgot]].
    cbn [render flat_map renderFragment]. rewrite <- app_assoc.
    apply reads_app with s1; [|exact Hr2].
    change (r "$" :: name) with ([r "$"] ++ name).
    apply reads_app with (Next s); [|exact Hr].
    apply Z.eqb_eq in Ed. apply reads_Next; [exact Ed | discriminate].
  - destruct (Peek s =? dquote) eqn:Eq; [|now apply Hident].
    cbv [bind next ret] in H. inversion H; subst.
    exists []. rewrite app_nil_r. split; [reflexivity|].
    split; [|constructor]. cbn. apply Z.eqb_eq in Eq.
    apply reads_Next; [exact Eq | discriminate].
Qed.

Lemma reads_opening (s s1 : Scanner) (pre : list rune) :
  pre <> [] -> reads (Next s) pre s1 ->
  exists q, reads s (q :: pre) s1 /\ Pos (Next s) = Pos s + 1.
Proof.
  intros Hne Hr. destruct (src s) as [|q tl] eqn:E.
  - exfalso. assert (Hn : Next s = s) by (unfold Next; now rewrite E).
    rewrite Hn in Hr. destruct Hr as [Hsrc _]. rewrite E in Hsrc.
    destruct pre; [now elim Hne | discriminate Hsrc].
  - exists q. split.
    + change (q :: pre) with ([q] ++ pre). apply reads_app with (Next s);
        [|exact Hr].
      unfold reads, Next. rewrite E. simpl. split; [reflexivity | lia].
    + unfold Pos, Next. now rewrite E.
Qed.

(** What the two quote scanners consumed, for the proofs below. *)
Lemma quote_scanners_inv (fuel : nat) (s s' : Scanner) (e : StrExpr) :
  (scanSingleQuoted fuel s = Done e s' ->
   exists q body,
     reads s (q :: body ++ [squote]) s' /\
     e = literal (Pos s + 1) body /\
     Forall (fun c => isSingleQuotedIdentChar c = true) body) /\
  (scanDoubleQuoted fuel s = Done e s' ->
   exists q,
     reads s (q :: render e ++ [dquote]) s' /\
     Forall (fragmentOver isDoubleQuotedIdentChar) e).
Proof.
  split; intros H.
  - unfold scanSingleQuoted in H. cbv [bind next] in H.
    apply scanSingleQuoted_loop_inv in H.
    destruct H as (body & -> & Hr & Hall).
    destruct (reads_opening s s' (body ++ [squote])) as (q & Hq & Hpos);
      [now destruct body | exact Hr |].
    exists q, body. split; [exact Hq|].
    split; [cbn [app]; now rewrite Hpos | exact Hall].
  - unfold scanDoubleQuoted in H. cbv [bind next] in H.
    apply scanDoubleQuoted_loop_inv in H.
    destruct H as (got & -> & Hr & Hall). cbn [app] in *.
    destruct (reads_opening s s' (render got ++ [dquote])) as (q & Hq & _);
      [now destruct (render got) | exact Hr |].
    exists q. split; [exact Hq | exact Hall].
Qed.

(** Whenever a quote scanner returns, the input it consumed is the
    opening character, the text that its fragments spell, and the
    closing quote. A single-quoted region gives one [Ident] with the
    whole text between the quotes (none when that is empty), a
    double-quoted region the literal runs and the variable references
    between the quotes, in order, none of them empty. *)
Theorem quoted_round_trip (fuel : nat) (s s' : Scanner) (e : StrExpr) :
  (scanSingleQuoted fuel s = Done e s' ->
   exists q body,
     reads s (q :: body ++ [squote]) s' /\
     e = literal (Pos s + 1) body /\
     Forall (fun c => isSingleQuotedIdentChar c = true) body) /\
  (scanDoubleQuoted fuel s = Done e s' ->
   exists q,
     reads s (q :: render e ++ [dquote]) s' /\
     Forall (fragmentOver isDoubleQuotedIdentChar) e).
Proof. exact (quote_scanners_inv fuel s s' e). Qed.

Lemma quoted_round_trip_witness :
  exists q,
    reads (newScanner (dquote :: runes "a$b c" ++ dquote :: runes ";"))
          (q :: render [Ident 1 (runes "a"); VarExpr 2 (runes "b");
                        Ident 4 (runes " c")] ++ [dquote])
          {| src := runes ";"; offset := 7 |} /\
    Forall (fragmentOver isDoubleQuotedIdentChar)
           [Ident 1 (runes "a"); VarExpr 2 (runes "b"); Ident 4 (runes " c")].
Proof.
  exact (proj2 (quoted_round_trip 8
                  (newScanner (dquote :: runes "a$b c" ++ dquote :: runes ";"))
                  {| src := runes ";"; offset := 7 |}
                  [Ident 1 (runes "a"); VarExpr 2 (runes "b");
                   Ident 4 (runes " c")])
               eq_refl).
Defined.

Lemma dropRun_none (p : rune -> bool) (l : list rune) :
  takeRun p l = [] -> dropRun p l = l.
Proof. intros H. rewrite <- (take_drop_run p l) at 2. now rewrite H. Qed.

Lemma not_EOF_of (p : rune -> bool) (c : rune) :
  p EOF = false -> p c = true -> (c =? EOF) = false.
Proof. intros HE Hc. apply Z.eqb_neq. intros ->. congruence. Qed.

(** One iteration of either quote loop over a literal run that ends at
    [tail]. *)
Lemma scanSingleQuoted_loop_literal (n : nat) (acc : StrExpr)
  (c : rune) (body tail : list rune) (o : Position) :
  Forall (fun c => isSingleQuotedIdentChar c = true) (c :: body) ->
  takeRun isSingleQuotedIdentChar tail = [] ->
  (length ((c :: body) ++ tail) < n)%nat ->
  scanSingleQuoted_loop (S n) acc {| src := (c :: body) ++ tail; offset := o |}
  = scanSingleQuoted_loop n (acc ++ [Ident o (c :: body)])
      {| src := tail; offset := o + Z.of_nat (length (c :: body)) |}.
Proof.
  intros Hall Htail Hlen. pose proof (Forall_inv Hall) as Hc.
  cbn [scanSingleQuoted_loop]. rewrite <- app_comm_cons, Peek_cons, Hc.
  rewrite (not_EOF_of isSingleQuotedIdentChar c eq_refl Hc).
  unfold bind. rewrite scanSingleQuotedIdent_spec by exact Hlen.
  cbn [src]. rewrite app_comm_cons.
  destruct (takeRun_app isSingleQuotedIdentChar (c :: body) tail Hall) as [-> ->].
  rewrite Htail, (dropRun_none _ _ Htail), app_nil_r. reflexivity.
Qed.

Lemma scanDoubleQuoted_loop_literal (n : nat) (acc : StrExpr)
  (c : rune) (body tail : list rune) (o : Position) :
  Forall (fun c => isDoubleQuotedIdentChar c = true) (c :: body) ->
  takeRun isDoubleQuotedIdentChar tail = [] ->
  (length ((c :: body) ++ tail) < n)%nat ->
  scanDoubleQuoted_loop (S n) acc {| src := (c :: body) ++ tail; offset := o |}
  = scanDoubleQuoted_loop n (acc ++ [Ident o (c :: body)])
      {| src := tail; offset := o + Z.of_nat (length (c :: body)) |}.
Proof.
  intros Hall Htail Hlen. pose proof (Forall_inv Hall) as Hc.
  cbn [scanDoubleQuoted_loop]. rewrite <- app_comm_cons, Peek_cons, Hc.
  rewrite (not_EOF_of isDoubleQuotedIdentChar c eq_refl Hc).
  unfold bind. rewrite scanDoubleQuotedIdent_spec by exact Hlen.
  cbn [src]. rewrite app_comm_cons.
  destruct (takeRun_app isDoubleQuotedIdentChar (c :: body) tail Hall) as [-> ->].
  rewrite Htail, (dropRun_none _ _ Htail), app_nil_r. reflexivity.
Qed.

Lemma Done_eq {A} (a a' : A) (l l' : list rune) (o o' : Position) :
  a = a' -> l = l' -> o = o' ->
  Done a {| src := l; offset := o |} = Done a' {| src := l'; offset := o' |}.
Proof. now intros -> -> ->. Qed.

(** Literal quoted regions, for the proofs below. *)
Lemma quote_scanners_literal (q : rune) (body rest : list rune) (o : Position)
  (fuel : nat) :
  (length body + length rest + 3 < fuel)%nat ->
  (Forall (fun c => isSingleQuotedIdentChar c = true) body ->
   scanSingleQuoted fuel
     {| src := q :: body ++ squote :: rest; offset := o |}
   = Done (literal (o + 1) body)
          {| src := rest; offset := o + Z.of_nat (length body) + 2 |}) /\
  (Forall (fun c => isDoubleQuotedIdentChar c = true) body ->
   scanDoubleQuoted fuel
     {| src := q :: body ++ dquote :: rest; offset := o |}
   = Done (literal (o + 1) body)
          {| src := rest; offset := o + Z.of_nat (length body) + 2 |}).
Proof.
  intros Hfuel.
  destruct fuel as [|[|n]]; try lia.
  split; intros Hall.
  - unfold scanSingleQuoted. cbv [bind next]. rewrite Next_cons.
    destruct body as [|c body].
    + cbn. apply Done_eq; [reflexivity | reflexivity | lia].
    + cbn [Nat.add]. rewrite scanSingleQuoted_loop_literal;
        [| exact Hall | reflexivity
         | cbn [length] in *; rewrite length_app; cbn [length] in *; lia].
      cbn. apply Done_eq; [reflexivity | reflexivity | lia].
  - unfold scanDoubleQuoted. cbv [bind next]. rewrite Next_cons.
    destruct body as [|c body].
    + cbn. apply Done_eq; [reflexivity | reflexivity | lia].
    + cbn [Nat.add]. rewrite scanDoubleQuoted_loop_literal;
        [| exact Hall | reflexivity
         | cbn [length] in *; rewrite length_app; cbn [length] in *; lia].
      cbn. apply Done_eq; [reflexivity | reflexivity | lia].
Qed.

(** A quoted region whose text holds no character that is special
    inside the quotes scans to one [Ident] with the whole text, placed
    after the opening quote (to no fragment when the text is empty), and
    the scanner is left behind the closing quote. *)
Theorem quoted_literal (q : rune) (body rest : list rune) (o : Position)
  (fuel : nat) :
  (length body + length rest + 3 < fuel)%nat ->
  (Forall (fun c => isSingleQuotedIdentChar c = true) body ->
   scanSingleQuoted fuel
     {| src := q :: body ++ squote :: rest; offset := o |}
   = Done (literal (o + 1) body)
          {| src := rest; offset := o + Z.of_nat (length body) + 2 |}) /\
  (Forall (fun c => isDoubleQuotedIdentChar c = true) body ->
   scanDoubleQuoted fuel
     {| src := q :: body ++ dquote :: rest; offset := o |}
   = Done (literal (o + 1) body)
          {| src := rest; offset := o + Z.of_nat (length body) + 2 |}).
Proof. exact (quote_scanners_literal q body rest o fuel). Qed.

Lemma quoted_literal_witness :
  scanSingleQuoted 10 (newScanner (runes "'a $b' c"))
  = Done [Ident 1 (runes "a $b")] {| src := runes " c"; offset := 6 |}.
Proof.
  apply (proj1 (quoted_literal squote (runes "a $b") (runes " c") 0 10
                  ltac:(simpl; lia))).
  repeat constructor.
Defined.

(** An unterminated quoted region is an error, never a word: a quote
    scanner cannot return when no closing quote follows the opening
    character, and on literal text that runs to the end of the input it
    returns the "unexpected EOF" error. *)
Theorem unterminated_quote (q : rune) (body : list rune) (o : Position)
  (fuel : nat) :
  (length body + 2 < fuel)%nat ->
  (forall budget e s',
      (~ In squote body ->
       scanSingleQuoted budget {| src := q :: body; offset := o |} <> Done e s') /\
      (~ In dquote body ->
       scanDoubleQuoted budget {| src := q :: body; offset := o |} <> Done e s')) /\
  (Forall (fun c => isSingleQuotedIdentChar c = true) body ->
   scanSingleQuoted fuel {| src := q :: body; offset := o |}
   = Fail UnexpectedEOF) /\
  (Forall (fun c => isDoubleQuotedIdentChar c = true) body ->
   scanDoubleQuoted fuel {| src := q :: body; offset := o |}
   = Fail UnexpectedEOF).
Proof.
  intros Hfuel. split; [|split].
  - intros budget e s'. split; intros Hq H.
    + apply (proj1 (quote_scanners_inv _ _ _ _)) in H.
      destruct H as (q' & text & [Hsrc _] & _). cbn in Hsrc.
      inversion Hsrc; subst. apply Hq. rewrite <- app_assoc.
      apply in_or_app. right. now left.
    + apply (proj2 (quote_scanners_inv _ _ _ _)) in H.
      destruct H as (q' & [Hsrc _] & _). cbn in Hsrc.
      inversion Hsrc; subst. apply Hq. rewrite <- app_assoc.
      apply in_or_app. right. now left.
  - intros Hall. destruct fuel as [|[|n]]; try lia.
    unfold scanSingleQuoted. cbv [bind next]. rewrite Next_cons.
    destruct body as [|c body]; [reflexivity|].
    rewrite <- (app_nil_r (c :: body)), scanSingleQuoted_loop_literal;
      [reflexivity | exact Hall | reflexivity
      | rewrite app_nil_r; cbn [length] in *; lia].
  - intros Hall. destruct fuel as [|[|n]]; try lia.
    unfold scanDoubleQuoted. cbv [bind next]. rewrite Next_cons.
    destruct body as [|c body]; [reflexivity|].
    rewrite <- (app_nil_r (c :: body)), scanDoubleQuoted_loop_literal;
      [reflexivity | exact Hall | reflexivity
      | rewrite app_nil_r; cbn [length] in *; lia].
Qed.

Lemma unterminated_quote_witness :
  scanDoubleQuoted 6 (newScanner (dquote :: runes "abc")) = Fail UnexpectedEOF.
Proof.
  apply (proj2 (proj2 (unterminated_quote dquote (runes "abc") 0 6
                         ltac:(simpl; lia)))).
  repeat constructor.
Defined.

(* ------------------------------------------------------------------ *)
(** ** Further properties of the lexer: words *)

Lemma fragmentOver_word (p : rune -> bool) (f : Fragment) :
  fragmentOver p f -> wordFragment f.
Proof. destruct f; simpl; tauto. Qed.

Lemma literal_word (pos : Position) (body : list rune) :
  Forall wordFragment (literal pos body).
Proof.
  destruct body; simpl; constructor; [discriminate | constructor].
Qed.

Lemma length_zero_nil {A} (l : list A) : (length l =? 0)%nat = true -> l = [].
Proof. destruct l; [reflexivity | discriminate]. Qed.

(** What holds of the token, the word and the scanner whenever the loop
    of [scanStrs] returns. *)
Lemma scanStrs_loop_inv :
  forall fuel b acc s tok v s',
    scanStrs_loop fuel b acc s = Done (tok, v) s' ->
    (exists got, v = acc ++ got /\ Forall wordFragment got) /\
    ahead s s' /\ wordToken tok /\
    (forall c, tok = Char c -> v = []) /\
    (tok = STR_AND_LEFT_PAREN -> v <> []).
Proof.
  induction fuel as [|n IH]; intros b acc s tok v s' H; [discriminate H|].
  cbn [scanStrs_loop] in H.
  assert (Hnext : forall (more : StrExpr) s1,
             Forall wordFragment more -> ahead s s1 ->
             scanStrs_loop n b (acc ++ more) s1 = Done (tok, v) s' ->
             (exists got, v = acc ++ got /\ Forall wordFragment got) /\
             ahead s s' /\ wordToken tok /\
             (forall c, tok = Char c -> v = []) /\
             (tok = STR_AND_LEFT_PAREN -> v <> [])).
  { intros more s1 Hmore Hs1 H1. apply IH in H1.
    destruct H1 as ((got & -> & Hgot) & Ha & Ht & Hc & Hp).
    split; [|split; [now apply ahead_trans with s1 | now repeat split]].
    exists (more ++ got). rewrite app_assoc. split; [reflexivity|].
    now apply Forall_app. }
  assert (Hhere : forall t,
             wordToken t -> (forall c, t = Char c -> acc = []) ->
             (t = STR_AND_LEFT_PAREN -> acc <> []) ->
             forall s1, ahead s s1 ->
             Done (t, acc) s1 = Done (tok, v) s' ->
             (exists got, v = acc ++ got /\ Forall wordFragment got) /\
             ahead s s' /\ wordToken tok /\
             (forall c, tok = Char c -> v = []) /\
             (tok = STR_AND_LEFT_PAREN -> v <> [])).
  { intros t Ht Hc Hp s1 Hs1 H1. inversion H1; subst.
    split; [exists []; rewrite app_nil_r; split; [reflexivity | constructor]|].
    now repeat split. }
  unfold wordToken in Hhere.
  destruct (Peek s =? r "$").
  { step_bind H (scanVar n s).
    apply (proj1 (scanVar_cases n s)) in E.
    destruct E as (name & -> & Hne & Hr & Hall & _).
    apply (Hnext [VarExpr (Pos s) name] s1);
      [repeat constructor; assumption | | exact H].
    eapply ahead_trans; [apply ahead_Next | now exists name]. }
  destruct (Peek s =? dquote).
  { step_bind H (scanDoubleQuoted n s).
    apply (proj2 (quote_scanners_inv n s s1 f)) in E.
    destruct E as (q & Hr & Hall).
    apply (Hnext f s1); [| now apply ahead_reads in Hr | exact H].
    eapply Forall_impl; [|exact Hall]. apply fragmentOver_word. }
  destruct (Peek s =? squote).
  { step_bind H (scanSingleQuoted n s).
    apply (proj1 (quote_scanners_inv n s s1 f)) in E.
    destruct E as (q & body & Hr & -> & Hall).
    apply (Hnext (literal (Pos s + 1) body) s1);
      [apply literal_word | now apply ahead_reads in Hr | exact H]. }
  destruct (Peek s =? r ")").
  { destruct (0 <? length acc)%nat.
    - apply (Hhere STR) with (s1 := s); try (intros; discriminate); auto using ahead_refl.
    - destruct b.
      + destruct (length acc =? 0)%nat eqn:E0.
        * apply length_zero_nil in E0.
          apply (Hhere (Char (r ")"))) with (s1 := s); try (intros; discriminate);
            auto 7 using ahead_refl.
        * apply (Hhere RIGHT_PAREN_AND_STR) with (s1 := s); try (intros; discriminate);
            auto 7 using ahead_refl.
      + apply IH in H. destruct H as (Hg & Ha & Hrest).
        split; [exact Hg|]. split; [|exact Hrest].
        eapply ahead_trans; [apply ahead_Next | exact Ha]. }
  destruct (Peek s =? r "(").
  { destruct (length acc =? 0)%nat eqn:E0; cbn [andb] in H.
    - apply length_zero_nil in E0. destruct b; cbn [negb] in H.
      + apply (Hhere RIGHT_PAREN_AND_STR_AND_LEFT_PAREN) with (s1 := Next s);
          try (intros; discriminate); auto 7 using ahead_Next.
      + apply (Hhere (Char (r "("))) with (s1 := Next s);
          try (intros; discriminate); auto 7 using ahead_Next.
    - assert (Hacc : acc <> []) by (intros ->; discriminate E0).
      destruct b.
      + apply (Hhere RIGHT_PAREN_AND_STR_AND_LEFT_PAREN) with (s1 := Next s);
          try (intros; discriminate); auto 7 using ahead_Next.
      + apply (Hhere STR_AND_LEFT_PAREN) with (s1 := Next s);
          try (intros; discriminate); auto 7 using ahead_Next. }
  destruct (isSpecialChar (Peek s)).
  { destruct b.
    - apply (Hhere RIGHT_PAREN_AND_STR) with (s1 := s); try (intros; discriminate);
        auto 7 using ahead_refl.
    - apply (Hhere STR) with (s1 := s); try (intros; discriminate); auto using ahead_refl. }
  step_bind H (scanIdent n s).
  apply (proj1 (ident_scanners_inv n s s1 f)) in E.
  destruct E as (name & -> & Hne & Hr & Hall & _).
  apply (Hnext [Ident (Pos s) name] s1);
    [repeat constructor; assumption | now exists name | exact H].
Qed.

(** The tokens of [scanStrs] and their words: it returns [STR], a bare
    parenthesis or one of the three fusion tokens; a bare parenthesis
    comes with an empty word, the word-then-( token with a word that is
    not empty. *)
Theorem scanStrs_tokens (fuel : nat) (s s' : Scanner) (tok : Token) (v : StrExpr) :
  scanStrs fuel s = Done (tok, v) s' ->
  wordToken tok /\
  (forall c, tok = Char c -> v = []) /\
  (tok = STR_AND_LEFT_PAREN -> v <> []).
Proof.
  intros H. apply scanStrs_loop_inv in H. tauto.
Qed.

Lemma scanStrs_tokens_witness :
  wordToken STR_AND_LEFT_PAREN /\
  (forall c, STR_AND_LEFT_PAREN = Char c -> [Ident 0 (runes "echo")] = []) /\
  (STR_AND_LEFT_PAREN = STR_AND_LEFT_PAREN -> [Ident 0 (runes "echo")] <> []).
Proof.
  exact (scanStrs_tokens 6 (newScanner (runes "echo(x)"))
           {| src := runes "x)"; offset := 5 |} STR_AND_LEFT_PAREN
           [Ident 0 (runes "echo")] eq_refl).
Defined.

(** The fragments of a word: whatever token [scanStrs] returns, every
    fragment of its word is literal text or a variable reference with a
    name that is not empty (letters, digits and underscores for a
    variable); a file descriptor is never part of a word. *)
Theorem scanStrs_fragments (fuel : nat) (s s' : Scanner) (tok : Token) (v : StrExpr) :
  scanStrs fuel s = Done (tok, v) s' ->
  Forall wordFragment v.
Proof.
  intros H. apply scanStrs_loop_inv in H.
  destruct H as ((got & -> & Hgot) & _). exact Hgot.
Qed.

Lemma scanStrs_fragments_witness :
  Forall wordFragment [Ident 0 (runes "a"); VarExpr 1 (runes "b_1"); Ident 6 (runes "c d")].
Proof.
  exact (scanStrs_fragments 12 (newScanner (runes "a$b_1'c d' x"))
           {| src := runes " x"; offset := 10 |} STR
           [Ident 0 (runes "a"); VarExpr 1 (runes "b_1"); Ident 6 (runes "c d")]
           eq_refl).
Defined.

Lemma isIdentChar_tests (c : rune) :
  isIdentChar c = true ->
  (c =? r "$") = false /\ (c =? dquote) = false /\ (c =? squote) = false /\
  (c =? r ")") = false /\ (c =? r "(") = false /\ isSpecialChar c = false.
Proof.
  intros H.
  repeat split;
    try (apply Z.eqb_neq; intros ->; discriminate H).
  unfold isIdentChar in H. now apply negb_true_iff in H.
Qed.

Lemma endsWord_tests (c : rune) :
  endsWord c = true ->
  (c =? r "$") = false /\ (c =? dquote) = false /\ (c =? squote) = false /\
  (c =? r ")") = false /\ (c =? r "(") = false /\ isSpecialChar c = true.
Proof.
  unfold endsWord. rewrite andb_true_iff, negb_true_iff, !orb_false_iff. tauto.
Qed.

Lemma takeRun_special (p : rune -> bool) (l : list rune) :
  p (hd EOF l) = false -> takeRun p l = [].
Proof. destruct l as [|c tl]; [reflexivity|]. simpl. now intros ->. Qed.

Lemma Peek_hd (l : list rune) (o : Position) :
  Peek {| src := l; offset := o |} = hd EOF l.
Proof. now destruct l. Qed.

(** The first iteration of [scanStrs] over a bare word. *)
Lemma scanStrs_loop_bare (n : nat) (b : bool) (acc : StrExpr)
  (c : rune) (w rest : list rune) (o : Position) :
  Forall (fun c => isIdentChar c = true) (c :: w) ->
  isSpecialChar (hd EOF rest) = true ->
  (length ((c :: w) ++ rest) < n)%nat ->
  scanStrs_loop (S n) b acc {| src := (c :: w) ++ rest; offset := o |}
  = scanStrs_loop n b (acc ++ [Ident o (c :: w)])
      {| src := rest; offset := o + Z.of_nat (length (c :: w)) |}.
Proof.
  intros Hall Hrest Hlen. pose proof (Forall_inv Hall) as Hc.
  destruct (isIdentChar_tests c Hc) as (H1 & H2 & H3 & H4 & H5 & H6).
  cbn [scanStrs_loop]. rewrite <- app_comm_cons, Peek_cons.
  rewrite H1, H2, H3, H4, H5, H6.
  unfold bind. rewrite scanIdent_spec by exact Hlen.
  cbn [src]. rewrite app_comm_cons.
  destruct (takeRun_app isIdentChar (c :: w) rest Hall) as [-> ->].
  assert (Ht : takeRun isIdentChar rest = []).
  { apply takeRun_special. unfold isIdentChar. now rewrite Hrest. }
  rewrite Ht, (dropRun_none _ _ Ht), app_nil_r. reflexivity.
Qed.

(** A bare word, a non-empty run of characters none of which is special,
    is one [Ident] spanning the whole run. In front of a character that
    ends a word (a blank, the end of the input, [;], ...) or of a [)],
    which is left in the input, the token is [STR]; in front of a [(],
    which is consumed, it is the word-then-( token. *)
Theorem bare_word (c : rune) (w rest : list rune) (o : Position) (fuel : nat) :
  Forall (fun c => isIdentChar c = true) (c :: w) ->
  (length ((c :: w) ++ rest) + 2 < fuel)%nat ->
  let word := [Ident o (c :: w)] in
  let o' := o + Z.of_nat (length (c :: w)) in
  (endsWord (hd EOF rest) = true \/ hd EOF rest = r ")" ->
   scanStrs fuel {| src := (c :: w) ++ rest; offset := o |}
   = Done (STR, word) {| src := rest; offset := o' |}) /\
  (scanStrs fuel {| src := (c :: w) ++ r "(" :: rest; offset := o |}
   = Done (STR_AND_LEFT_PAREN, word) {| src := rest; offset := o' + 1 |}).
Proof.
  intros Hall Hfuel word o'. destruct fuel as [|[|n]]; try lia.
  unfold scanStrs. split.
  - intros Hend.
    assert (Hsp : isSpecialChar (hd EOF rest) = true).
    { destruct Hend as [He| ->]; [apply endsWord_tests in He; tauto | reflexivity]. }
    rewrite scanStrs_loop_bare by (assumption || lia).
    cbn [scanStrs_loop app]. rewrite Peek_hd.
    destruct Hend as [He|Hp].
    + destruct (endsWord_tests _ He) as (H1 & H2 & H3 & H4 & H5 & H6).
      now rewrite H1, H2, H3, H4, H5, H6.
    + rewrite Hp. reflexivity.
  - rewrite scanStrs_loop_bare;
      [reflexivity | exact Hall | reflexivity
      | rewrite length_app in *; cbn [length] in *; lia].
Qed.

Lemma bare_word_witness :
  scanStrs 8 (newScanner (runes "ls -l"))
  = Done (STR, [Ident 0 (runes "ls")]) {| src := runes " -l"; offset := 2 |}.
Proof.
  apply (proj1 (bare_word (r "l") (runes "s") (runes " -l") 0 8
                  ltac:(repeat constructor) ltac:(simpl; lia))).
  left. reflexivity.
Defined.

(* ------------------------------------------------------------------ *)
(** ** Further properties of the lexer: the next-token operation *)

Lemma takeRun_dropRun (p : rune -> bool) (l : list rune) :
  takeRun p (dropRun p l) = [].
Proof.
  induction l as [|c tl IH]; [reflexivity|]. simpl.
  destruct (p c) eqn:E; [exact IH | simpl; now rewrite E].
Qed.

Lemma after_nil (s : Scanner) : after s [] (src s) = s.
Proof. destruct s as [l o]. unfold after. simpl. now rewrite Z.add_0_r. Qed.

(** Blanks and tabs in front of a token do not change it: [mainLex]
    does on an input what it does on the input without its leading
    blanks, scanned from behind them. On blanks alone it returns the
    end-of-input token, the value cell untouched, with the scanner at the
    end, where every further call returns the same. *)
Theorem mainLex_blanks (fuel : nat) (lval : yySymType) (s : Scanner) :
  (length (src s) + 1 < fuel)%nat ->
  let blanks := takeRun isBrank (src s) in
  let s2 := after s blanks (dropRun isBrank (src s)) in
  mainLex fuel lval s = mainLex fuel lval s2 /\
  (dropRun isBrank (src s) = [] ->
   mainLex fuel lval s = Done (Char EOF, lval) s2 /\
   mainLex fuel lval s2 = Done (Char EOF, lval) s2).
Proof.
  intros Hfuel blanks s2. destruct fuel as [|n]; [lia|].
  assert (H1 : skipBrank n s = Done tt s2) by (apply skipBrank_done; lia).
  assert (H2 : skipBrank n s2 = Done tt s2).
  { rewrite skipBrank_done
      by (cbn [src s2 after]; pose proof (dropRun_length isBrank (src s)); lia).
    cbn [src s2 after]. rewrite takeRun_dropRun.
    rewrite (dropRun_none _ _ (takeRun_dropRun isBrank (src s))).
    f_equal. apply (after_nil s2). }
  assert (Heq : mainLex (S n) lval s = mainLex (S n) lval s2).
  { cbn [mainLex]. unfold bind at 1. rewrite H1.
    symmetry. unfold bind at 1. now rewrite H2. }
  split; [exact Heq|]. intros Hnil. rewrite Heq.
  assert (Hend : mainLex (S n) lval s2 = Done (Char EOF, lval) s2).
  { cbn [mainLex]. unfold bind at 1. rewrite H2. cbv [bind peek ret].
    replace (Peek s2) with EOF
      by (unfold Peek; cbn [src s2 after]; now rewrite Hnil).
    reflexivity. }
  split; exact Hend.
Qed.

Lemma mainLex_blanks_witness :
  mainLex 5 lval0 (newScanner (runes "   "))
  = Done (Char EOF, lval0) {| src := []; offset := 3 |}.
Proof.
  exact (proj1 (proj2 (mainLex_blanks 5 lval0 (newScanner (runes "   "))
                         ltac:(simpl; lia)) eq_refl)).
Defined.

Lemma decimal_nonneg (run : list rune) :
  Forall (fun c => isNumber c = true) run -> 0 <= decimal run.
Proof. intros H. apply (fold_digits_mono run H 0). lia. Qed.

(** What [scanFD] returns: a descriptor placed at the [&], the close
    sentinel or the value of a digit run that an [int] holds. *)
Lemma scanFD_inv (fuel : nat) (s s' : Scanner) (f : Fragment) :
  scanFD fuel s = Done f s' ->
  ahead s s' /\
  exists n, f = FD (Pos s) n /\ (n = -1 \/ 0 <= n <= maxInt).
Proof.
  unfold scanFD. cbv [bind getPos next peek ret fail]. intros H.
  destruct (Peek (Next s) =? r "-").
  - inversion H; subst. split; [apply ahead_Next|]. exists (-1). auto.
  - destruct (scanRun isNumber fuel [] (Next s)) as [run s1| |] eqn:E;
      try discriminate H.
    apply scanRun_inv in E. destruct E as (got & -> & Hr & Hall & _).
    cbn [app] in H. rewrite (Atoi_digits got Hall) in H.
    destruct got as [|c tl]; [discriminate H|].
    destruct (decimal (c :: tl) >? maxInt) eqn:Eg; [discriminate H|].
    inversion H; subst. split.
    + eapply ahead_trans; [apply ahead_Next | now exists (c :: tl)].
    + exists (decimal (c :: tl)). split; [reflexivity|]. right.
      rewrite Z.gtb_ltb in Eg. apply Z.ltb_ge in Eg.
      split; [now apply decimal_nonneg | exact Eg].
Qed.



Lemma keyword_tokens (v : StrExpr) (kw : Token) :
  tokenOf v = Some kw ->
  kw = IF \/ kw = ELSE \/ kw = BEGIN \/ kw = END \/ kw = FUNCTION.
Proof.
  intros H. apply tokenOf_spec in H. destruct H as [_ H].
  unfold keywords in H. simpl in H.
  repeat (destruct H as [H|H]; [inversion H; tauto|]). destruct H.
Qed.

(** Token and payload go together: the value cell that [mainLex] leaves
    is what its token says ([carries]). A to-fd redirect carries one
    file descriptor (-1 or a number of the [int] range) in [expr]; a
    word token carries its word in [str], without file descriptors and
    without empty names; a bare parenthesis an empty word; punctuation,
    end of input, keywords and the other redirects leave the cell
    untouched. *)
Theorem mainLex_value_cell :
  forall fuel lval s tok lval' s',
    mainLex fuel lval s = Done (tok, lval') s' ->
    carries tok lval lval'.
Proof.
  induction fuel as [|n IH]; intros lval s tok lval' s' H; [discriminate H|].
  cbn [mainLex] in H. cbv [bind peek next ret] in H.
  destruct (skipBrank n s) as [[] s2| |]; try discriminate H.
  destruct (Peek s2 =? EOF) eqn:E0.
  { apply Z.eqb_eq in E0. inversion H; subst. rewrite E0. right. simpl. auto. }
  destruct (Peek s2 =? r "#").
  { destruct (skipComment n s2) as [[] s3| |]; try discriminate H.
    now apply IH in H. }
  assert (HFD : forall s1 t,
             t = REDIRECT_TO_FD \/ t = ERR_REDIRECT_TO_FD ->
             match scanFD n s1 with
             | Done a s0 => Done (t, set_expr lval [a]) s0
             | Fail e => Fail e
             | Timeout => Timeout
             end = Done (tok, lval') s' -> carries tok lval lval').
  { intros s1 t Ht H1.
    destruct (scanFD n s1) as [fd s0| |] eqn:Ef; try discriminate H1.
    apply scanFD_inv in Ef. destruct Ef as (_ & m & -> & Hm).
    inversion H1; subst. destruct Ht as [-> | ->]; now exists (Pos s1), m. }
  destruct (Peek s2 =? r ">").
  { destruct (Peek (Next s2) =? r "&"); [apply (HFD _ _ (or_introl eq_refl) H)|].
    destruct (Peek (Next s2) =? r ">"); inversion H; subst;
      [reflexivity | right; simpl; auto]. }
  destruct (Peek s2 =? r "^").
  { destruct (Peek (Next s2) =? r "&"); [apply (HFD _ _ (or_intror eq_refl) H)|].
    destruct (Peek (Next s2) =? r "^"); inversion H; subst;
      [reflexivity | right; simpl; auto]. }
  destruct ((Peek s2 =? r ";") || (Peek s2 =? newline) ||
            (Peek s2 =? r "|") || (Peek s2 =? r "<")) eqn:Ep.
  { inversion H; subst. right. split; [|reflexivity].
    rewrite !orb_true_iff, !Z.eqb_eq in Ep.
    destruct Ep as [[[Ep | Ep] | Ep] | Ep]; rewrite Ep; simpl; auto 10. }
  destruct (scanStrs n s2) as [[t v] s1| |] eqn:Es; try discriminate H.
  apply scanStrs_loop_inv in Es.
  destruct Es as ((got & Hv & Hgot) & _ & Ht & Hc & _). cbn [app] in Hv. subst got.
  assert (Hword : carries t lval (set_str lval v)).
  { destruct Ht as [-> | [-> | [-> | [-> | [-> | ->]]]]]; cbn [carries];
      try (now exists v);
      left; rewrite (Hc _ eq_refl); simpl; auto. }
  destruct t; try (inversion H; subst; exact Hword).
  destruct (tokenOf v) as [kw|] eqn:Ek; inversion H; subst; [|exact Hword].
  destruct (keyword_tokens _ _ Ek) as [-> | [-> | [-> | [-> | ->]]]];
    reflexivity.
Qed.

Lemma mainLex_value_cell_witness :
  carries ERR_REDIRECT_TO_FD lval0 (set_expr lval0 [FD 1 12]).
Proof.
  exact (mainLex_value_cell 5 lval0 (newScanner (runes "^&12 x"))
           ERR_REDIRECT_TO_FD (set_expr lval0 [FD 1 12])
           {| src := runes " x"; offset := 4 |} eq_refl).
Defined.

(* ------------------------------------------------------------------ *)
(** ** Further properties of the lexer: where errors come from *)

Lemma isSingleQuotedIdentChar_false (c : rune) :
  isSingleQuotedIdentChar c = false -> c = EOF \/ c = backslash \/ c = squote.
Proof.
  unfold isSingleQuotedIdentChar, isSingleQuotedSpecialChar, singleQuotedSpecials.
  rewrite negb_false_iff. cbn [existsb]. rewrite !orb_true_iff, !Z.eqb_eq.
  unfold EOF. intuition congruence.
Qed.

Lemma isDoubleQuotedIdentChar_false (c : rune) :
  isDoubleQuotedIdentChar c = false ->
  c = EOF \/ c = backslash \/ c = dquote \/ c = r "$".
Proof.
  unfold isDoubleQuotedIdentChar, isDoubleQuotedSpecialChar, doubleQuotedSpecials.
  rewrite negb_false_iff. cbn [existsb]. rewrite !orb_true_iff, !Z.eqb_eq.
  unfold EOF. intuition congruence.
Qed.

Lemma skipRun_no_fail (p : rune -> bool) :
  forall fuel s e, skipRun p fuel s <> Fail e.
Proof.
  induction fuel as [|n IH]; intros s e; [discriminate|].
  cbn [skipRun]. destruct (p (Peek s)); [apply IH | discriminate].
Qed.

Lemma scanSingleQuoted_loop_fails :
  forall fuel acc s e,
    scanSingleQuoted_loop fuel acc s = Fail e ->
    e = UnexpectedEOF \/ (e = ExpectIdentError /\ In backslash (src s)).
Proof.
  induction fuel as [|n IH]; intros acc s e H; [discriminate H|].
  cbn [scanSingleQuoted_loop] in H.
  assert (Hident :
    (ident <- scanSingleQuotedIdent n ;;
     scanSingleQuoted_loop n (acc ++ [ident])) s = Fail e ->
    e = UnexpectedEOF \/
    (e = ExpectIdentError /\
     (In backslash (src s) \/ isSingleQuotedIdentChar (Peek s) = false))).
  { unfold bind. intros H0.
    destruct (scanSingleQuotedIdent n s) as [f s1| |] eqn:E;
      try discriminate H0.
    - apply (proj1 (proj2 (ident_scanners_inv n s s1 f))) in E.
      destruct E as (name & _ & _ & Hr & _).
      apply IH in H0. destruct H0 as [-> | [-> Hin]]; [now left|].
      right. split; [reflexivity|]. left.
      exact (ahead_In s s1 _ (ahead_reads _ _ _ Hr) Hin).
    - inversion H0; subst.
      apply (run_scanner_fails isSingleQuotedIdentChar (newIdent (Pos s))
               ExpectIdentError) in E.
      destruct E as [-> Hp]. auto. }
  destruct (Peek s =? EOF) eqn:E0; [inversion H; now left|].
  destruct (isSingleQuotedIdentChar (Peek s)) eqn:Ep.
  - destruct (Hident H) as [-> | [-> [Hin | Hp]]]; auto. discriminate Hp.
  - destruct (Peek s =? squote) eqn:Eq; [discriminate H|].
    destruct (Hident H) as [-> | [-> [Hin | _]]]; auto.
    right. split; [reflexivity|].
    apply Z.eqb_neq in E0, Eq.
    destruct (isSingleQuotedIdentChar_false _ Ep) as [Hc | [Hc | Hc]];
      try contradiction.
    apply Peek_In; [exact Hc | discriminate].
Qed.

Lemma scanDoubleQuoted_loop_fails :
  forall fuel acc s e,
    scanDoubleQuoted_loop fuel acc s = Fail e ->
    e = UnexpectedEOF \/ (e = ExpectIdentError /\ In backslash (src s)) \/
    (e = ExpectVarNameError /\ In (r "$") (src s)).
Proof.
  induction fuel as [|n IH]; intros acc s e H; [discriminate H|].
  cbn [scanDoubleQuoted_loop] in H.
  assert (Hlater : forall more s1,
             ahead s s1 ->
             scanDoubleQuoted_loop n (acc ++ more) s1 = Fail e ->
             e = UnexpectedEOF \/ (e = ExpectIdentError /\ In backslash (src s)) \/
             (e = ExpectVarNameError /\ In (r "$") (src s))).
  { intros more s1 Ha H1. apply IH in H1.
    destruct H1 as [-> | [[-> Hin] | [-> Hin]]];
      [now left | right; left | right; right];
      (split; [reflexivity | exact (ahead_In s s1 _ Ha Hin)]). }
  assert (Hident :
    (ident <- scanDoubleQuotedIdent n ;;
     scanDoubleQuoted_loop n (acc ++ [ident])) s = Fail e ->
    isDoubleQuotedIdentChar (Peek s) = false \/
    e = UnexpectedEOF \/ (e = ExpectIdentError /\ In backslash (src s)) \/
    (e = ExpectVarNameError /\ In (r "$") (src s))).
  { unfold bind. intros H0.
    destruct (scanDoubleQuotedIdent n s) as [f s1| |] eqn:E;
      try discriminate H0.
    - apply (proj2 (proj2 (ident_scanners_inv n s s1 f))) in E.
      destruct E as (name & _ & _ & Hr & _).
      right. exact (Hlater [f] s1 (ahead_reads _ _ _ Hr) H0).
    - apply (run_scanner_fails isDoubleQuotedIdentChar (newIdent (Pos s))
               ExpectIdentError) in E.
      destruct E as [_ Hp]. now left. }
  destruct (Peek s =? EOF) eqn:E0; [inversion H; now left|].
  destruct (isDoubleQuotedIdentChar (Peek s)) eqn:Ep.
  - destruct (Hident H) as [Hp | Hres]; [discriminate Hp | exact Hres].
  - destruct (Peek s =? r "$") eqn:Ed.
    + apply Z.eqb_eq in Ed.
      assert (Hd : In (r "$") (src s)) by (apply Peek_In; [exact Ed | discriminate]).
      step_bind H (scanVar n s).
      * apply (proj1 (scanVar_cases n s)) in E.
        destruct E as (name & _ & _ & Hr & _).
        apply (Hlater [f] s1); [|exact H].
        exact (ahead_trans _ _ _ (ahead_Next s) (ahead_reads _ _ _ Hr)).
      * inversion H; subst.
        apply (proj1 (proj2 (scanVar_cases n s))) in E. destruct E as [-> _].
        auto.
    + destruct (Peek s =? dquote) eqn:Eq; [discriminate H|].
      assert (Hb : In backslash (src s)).
      { apply Z.eqb_neq in E0, Ed, Eq.
        destruct (isDoubleQuotedIdentChar_false _ Ep) as [Hc | [Hc | [Hc | Hc]]];
          try contradiction.
        apply Peek_In; [exact Hc | discriminate]. }
      unfold bind in H.
      destruct (scanDoubleQuotedIdent n s) as [f s1| |] eqn:E;
        try discriminate H.
      * apply (proj2 (proj2 (ident_scanners_inv n s s1 f))) in E.
        destruct E as (name & _ & _ & Hr & _).
        exact (Hlater [f] s1 (ahead_reads _ _ _ Hr) H).
      * inversion H; subst.
        apply (run_scanner_fails isDoubleQuotedIdentChar (newIdent (Pos s))
                 ExpectIdentError) in E.
        destruct E as [-> _]. auto.
Qed.

Lemma blame_ahead (e : Error) (s s1 : Scanner) :
  ahead s s1 -> blame e (src s1) -> blame e (src s).
Proof.
  intros Ha Hb.
  assert (Hin : forall c, In c (src s1) -> In c (src s))
    by (intros c; apply ahead_In; exact Ha).
  destruct e; cbn [blame] in *; intuition.
Qed.

Lemma scanStrs_loop_fails :
  forall fuel b acc s e,
    scanStrs_loop fuel b acc s = Fail e ->
    blame e (src s) /\ (forall ne, e <> AtoiError ne).
Proof.
  induction fuel as [|n IH]; intros b acc s e H; [discriminate H|].
  cbn [scanStrs_loop] in H.
  assert (Hnext : forall more s1,
             ahead s s1 -> scanStrs_loop n b (acc ++ more) s1 = Fail e ->
             blame e (src s) /\ (forall ne, e <> AtoiError ne)).
  { intros more s1 Ha H1. apply IH in H1. destruct H1 as [Hb Hne].
    split; [|exact Hne]. now apply blame_ahead with s1. }
  destruct (Peek s =? r "$") eqn:Ed.
  { apply Z.eqb_eq in Ed.
    step_bind H (scanVar n s).
    - apply (proj1 (scanVar_cases n s)) in E.
      destruct E as (name & _ & _ & Hr & _).
      apply (Hnext [f] s1); [|exact H].
      exact (ahead_trans _ _ _ (ahead_Next s) (ahead_reads _ _ _ Hr)).
    - inversion H; subst.
      apply (proj1 (proj2 (scanVar_cases n s))) in E. destruct E as [-> _].
      split; [|discriminate]. apply Peek_In; [exact Ed | discriminate]. }
  destruct (Peek s =? dquote) eqn:Eq.
  { apply Z.eqb_eq in Eq.
    assert (Hq : In dquote (src s)) by (apply Peek_In; [exact Eq | discriminate]).
    step_bind H (scanDoubleQuoted n s).
    - apply (proj2 (quote_scanners_inv n s s1 f)) in E.
      destruct E as (q & Hr & _).
      exact (Hnext f s1 (ahead_reads _ _ _ Hr) H).
    - inversion H; subst. unfold scanDoubleQuoted in E. cbv [bind next] in E.
      apply scanDoubleQuoted_loop_fails in E.
      pose proof (ahead_In s (Next s)) as Hin.
      destruct E as [-> | [[-> Hb] | [-> Hb]]];
        (split; [|discriminate]); cbn [blame]; auto using ahead_Next. }
  destruct (Peek s =? squote) eqn:Es.
  { apply Z.eqb_eq in Es.
    assert (Hq : In squote (src s)) by (apply Peek_In; [exact Es | discriminate]).
    step_bind H (scanSingleQuoted n s).
    - apply (proj1 (quote_scanners_inv n s s1 f)) in E.
      destruct E as (q & body & Hr & _).
      exact (Hnext f s1 (ahead_reads _ _ _ Hr) H).
    - inversion H; subst. unfold scanSingleQuoted in E. cbv [bind next] in E.
      apply scanSingleQuoted_loop_fails in E.
      pose proof (ahead_In s (Next s)) as Hin.
      destruct E as [-> | [-> Hb]];
        (split; [|discriminate]); cbn [blame]; auto using ahead_Next. }
  destruct (Peek s =? r ")").
  { destruct (0 <? length acc)%nat; [discriminate H|].
    destruct b; [destruct (length acc =? 0)%nat; discriminate H|].
    apply IH in H. destruct H as [Hb Hne]. split; [|exact Hne].
    exact (blame_ahead e s (Next s) (ahead_Next s) Hb). }
  destruct (Peek s =? r "(").
  { destruct ((length acc =? 0)%nat && negb b); [discriminate H|].
    destruct b; discriminate H. }
  destruct (isSpecialChar (Peek s)) eqn:Esp; [destruct b; discriminate H|].
  step_bind H (scanIdent n s).
  - apply (proj1 (ident_scanners_inv n s s1 f)) in E.
    destruct E as (name & _ & _ & Hr & _).
    exact (Hnext [f] s1 (ahead_reads _ _ _ Hr) H).
  - exfalso.
    apply (run_scanner_fails isIdentChar (newIdent (Pos s)) ExpectIdentError) in E.
    destruct E as [_ Hp]. unfold isIdentChar in Hp. rewrite Esp in Hp.
    discriminate Hp.
Qed.

Lemma scanFD_fails (fuel : nat) (s : Scanner) (e : Error) :
  scanFD fuel s = Fail e -> exists ne, e = AtoiError ne.
Proof.
  unfold scanFD. cbv [bind getPos next peek ret fail]. intros H.
  destruct (Peek (Next s) =? r "-"); [discriminate H|].
  destruct (scanRun isNumber fuel [] (Next s)) as [run s1| |] eqn:E;
    try discriminate H.
  - destruct (Atoi run) as [ne|]; inversion H. now exists ne.
  - exfalso. clear H. revert E. generalize (@nil rune) (Next s).
    induction fuel as [|n IH]; intros acc s0 E; [discriminate E|].
    cbn [scanRun] in E. destruct (isNumber (Peek s0));
      [now apply IH in E | discriminate E].
Qed.

Lemma mainLex_fails :
  forall fuel lval s e, mainLex fuel lval s = Fail e -> blame e (src s).
Proof.
  induction fuel as [|n IH]; intros lval s e H; [discriminate H|].
  cbn [mainLex] in H. cbv [bind peek next ret] in H.
  destruct (skipBrank n s) as [[] s2| |] eqn:Eb; try discriminate H;
    [|now elim (skipRun_no_fail isBrank n s e0)].
  apply skipRun_ahead in Eb. apply blame_ahead with s2; [exact Eb|]. clear Eb.
  destruct (Peek s2 =? EOF); [discriminate H|].
  destruct (Peek s2 =? r "#").
  { destruct (skipComment n s2) as [[] s3| |] eqn:Ec; try discriminate H;
      [|now elim (skipRun_no_fail (fun c => negb (c =? newline)) n s2 e0)].
    apply skipRun_ahead in Ec. apply IH in H. now apply blame_ahead with s3. }
  assert (HFD : forall (k : Fragment -> Token * yySymType),
             Peek (Next s2) = r "&" ->
             match scanFD n (Next s2) with
             | Done a s0 => Done (k a) s0
             | Fail e => Fail e
             | Timeout => Timeout
             end = Fail e -> blame e (src s2)).
  { intros k Hamp H1.
    destruct (scanFD n (Next s2)) as [fd s0| |] eqn:Ef; try discriminate H1.
    inversion H1; subst. apply scanFD_fails in Ef. destruct Ef as [ne ->].
    cbn [blame]. apply (ahead_In s2 (Next s2)); [apply ahead_Next|].
    apply Peek_In; [exact Hamp | discriminate]. }
  destruct (Peek s2 =? r ">").
  { destruct (Peek (Next s2) =? r "&") eqn:Ea;
      [apply Z.eqb_eq in Ea; exact (HFD _ Ea H)|].
    destruct (Peek (Next s2) =? r ">"); discriminate H. }
  destruct (Peek s2 =? r "^").
  { destruct (Peek (Next s2) =? r "&") eqn:Ea;
      [apply Z.eqb_eq in Ea; exact (HFD _ Ea H)|].
    destruct (Peek (Next s2) =? r "^"); discriminate H. }
  destruct ((Peek s2 =? r ";") || (Peek s2 =? newline) ||
            (Peek s2 =? r "|") || (Peek s2 =? r "<")); [discriminate H|].
  destruct (scanStrs n s2) as [[t v] s1| |] eqn:Es; try discriminate H.
  - destruct t; try discriminate H. destruct (tokenOf v); discriminate H.
  - inversion H; subst. now apply scanStrs_loop_fails in Es.
Qed.

(** Every error of the lexer is raised for characters of the input:
    when [Lex] panics, with "unexpected EOF" the input holds a quote,
    with "expected IDENT" a backslash and a quote, with the variable-name
    error a [$], with a conversion error an [&]. So on an input without
    quotes, [$] and [&] the lexer never panics. *)
Theorem Lex_panics_for_a_reason (fuel : nat) (lval : yySymType) (s : Scanner)
  (e : Error) :
  Lex fuel lval s = LexPanic e ->
  blame e (src s) /\
  (In dquote (src s) \/ In squote (src s) \/ In (r "$") (src s) \/
   In (r "&") (src s)).
Proof.
  intros H. unfold Lex in H.
  destruct (mainLex fuel lval s) as [[tok lval'] s'| |] eqn:E;
    try discriminate H.
  inversion H; subst. apply mainLex_fails in E. split; [exact E|].
  destruct e; cbn [blame] in E; tauto.
Qed.

Lemma Lex_panics_for_a_reason_witness :
  blame ExpectVarNameError (src (newScanner (runes "a$ b"))) /\
  (In dquote (src (newScanner (runes "a$ b"))) \/
   In squote (src (newScanner (runes "a$ b"))) \/
   In (r "$") (src (newScanner (runes "a$ b"))) \/
   In (r "&") (src (newScanner (runes "a$ b")))).
Proof.
  exact (Lex_panics_for_a_reason 6 lval0 (newScanner (runes "a$ b"))
           ExpectVarNameError eq_refl).
Defined.

(* ------------------------------------------------------------------ *)
(** ** Further properties of the lexer: the keyword table *)

Lemma lookupKeyword_NoDup (kw : list (Token * list rune)) (lit : list rune)
  (tok : Token) :
  NoDup (map snd kw) -> In (tok, lit) kw -> lookupKeyword kw lit = Some tok.
Proof.
  induction kw as [|[t l] tl IH]; intros Hnd Hin; [destruct Hin|].
  cbn [map snd] in Hnd. inversion Hnd as [|? ? Hnot Hnd']; subst.
  cbn [lookupKeyword]. destruct (rune_list_eqb l lit) eqn:E.
  - apply rune_list_eqb_true in E. subst l.
    destruct Hin as [[= -> ]|Hin]; [reflexivity|].
    exfalso. apply Hnot. change lit with (snd (tok, lit)). now apply in_map.
  - destruct Hin as [[= -> ->]|Hin]; [|now apply IH].
    assert (rune_list_eqb lit lit = true) by now apply rune_list_eqb_true.
    congruence.
Qed.

(** The keyword lookup of [tokenOf] does not depend on the order in
    which the [keywords] map is iterated: the texts of the table are
    pairwise distinct, so every order of its entries gives the same
    token, or none, for a text. *)
Theorem keyword_lookup_order (kw : list (Token * list rune)) (lit : list rune) :
  Permutation keywords kw ->
  lookupKeyword kw lit = lookupKeyword keywords lit.
Proof.
  intros Hperm.
  assert (Hnd0 : NoDup (map snd keywords)).
  { unfold keywords. cbn. repeat constructor; simpl; intuition discriminate. }
  assert (Hnd : NoDup (map snd kw)).
  { eapply Permutation_NoDup; [apply Permutation_map; exact Hperm | exact Hnd0]. }
  destruct (lookupKeyword keywords lit) as [tok|] eqn:E.
  - apply lookupKeyword_In in E. apply lookupKeyword_NoDup; [exact Hnd|].
    eapply Permutation_in; eauto.
  - destruct (lookupKeyword kw lit) as [tok|] eqn:E'; [|reflexivity].
    apply lookupKeyword_In in E'.
    apply (Permutation_in _ (Permutation_sym Hperm)) in E'.
    apply (lookupKeyword_NoDup _ _ _ Hnd0) in E'. congruence.
Qed.

Lemma keyword_lookup_order_witness :
  lookupKeyword (rev keywords) (runes "end") = lookupKeyword keywords (runes "end").
Proof.
  apply keyword_lookup_order. apply Permutation_rev.
Defined.

(* ------------------------------------------------------------------ *)
(** ** Further properties of the walker *)

Section WalkOrder.

Context {St V : Type} (call : V -> Node -> St -> St * option V).
Variable keeps : V -> Prop.
Variable step : Node -> St -> St.
Hypothesis continues :
  forall c node st,
    keeps c -> exists c', snd (call c node st) = Some c' /\ keeps c'.

Lemma tracedAs_ret : tracedAs call keeps step [] (retW tt).
Proof.
  intros [st t]. exists st. cbn. rewrite app_nil_r. split; reflexivity.
Qed.

Lemma tracedAs_bind (t1 t2 : list Node) (c1 c2 : W St unit) :
  tracedAs call keeps step t1 c1 -> tracedAs call keeps step t2 c2 ->
  tracedAs call keeps step (t1 ++ t2) (bindW c1 (fun _ => c2)).
Proof.
  intros H1 H2 w. unfold bindW.
  destruct (H1 w) as (st1 & E1 & S1). rewrite E1.
  destruct (H2 (mkWorld st1 (trace w ++ t1))) as (st2 & E2 & S2).
  rewrite E2. exists st2. cbn [trace user] in *. rewrite app_assoc.
  split; [reflexivity|]. intros Hu.
  rewrite fold_left_app, <- (S1 Hu). exact (S2 Hu).
Qed.

Lemma tracedAs_enter_exit (node : Node) (t : list Node)
  (body : option V -> W St unit) (v : V) :
  keeps v ->
  (forall g, keeps g -> tracedAs call keeps step t (body (Some g))) ->
  tracedAs call keeps step (node :: t ++ [Nil])
    (bindW (invoke call (Some v) node) (fun f =>
     bindW (body f) (fun _ =>
     bindW (invoke call (Some v) Nil) (fun _ => retW tt)))).
Proof.
  intros Hv Hbody w. unfold bindW, invoke.
  destruct (continues v node (user w) Hv) as (g & Hc & Hg).
  destruct (call v node (user w)) as [st1 f] eqn:E1. cbn [snd] in Hc. subst f.
  destruct (Hbody g Hg (mkWorld st1 (trace w ++ [node]))) as (st2 & E & S2).
  rewrite E. cbn [user trace] in *.
  destruct (call v Nil st2) as [st3 f3] eqn:E3. unfold retW.
  exists st3. split; [now rewrite <- !app_assoc|].
  intros Hu. cbn [fold_left]. rewrite fold_left_app. cbn [fold_left].
  rewrite <- (Hu v node (user w) Hv), E1. cbn [fst].
  rewrite <- (S2 Hu), <- (Hu v Nil st2 Hv), E3. reflexivity.
Qed.

Lemma tracedAs_forEach (n : list Node) :
  Forall (fun e => forall g, keeps g ->
                   tracedAs call keeps step (events e) (Walk call (Some g) e)) n ->
  forall g, keeps g ->
    tracedAs call keeps step (flat_map events n) (forEach (Walk call) (Some g) n).
Proof.
  induction 1 as [|e tl He _ IH]; intros g Hg.
  - apply tracedAs_ret.
  - change (forEach (Walk call) (Some g) (e :: tl))
      with (bindW (Walk call (Some g) e)
                  (fun _ => forEach (Walk call) (Some g) tl)).
    cbn [flat_map]. apply tracedAs_bind; [now apply He | now apply IH].
Qed.

Lemma tracedAs_walkBox (box : Node) (n : list Node) (v : V) :
  keeps v ->
  Forall (fun e => forall g, keeps g ->
                   tracedAs call keeps step (events e) (Walk call (Some g) e)) n ->
  tracedAs call keeps step (box :: flat_map events n ++ [Nil])
    (walkBox call (Walk call) (Some v) box n).
Proof.
  intros Hv Hn. unfold walkBox.
  apply (tracedAs_enter_exit box _ (fun f => forEach (Walk call) f n));
    [exact Hv|].
  now apply tracedAs_forEach.
Qed.

Lemma tracedAs_guarded (box : Node) (n : list Node) (v : V) :
  keeps v ->
  Forall (fun e => forall g, keeps g ->
                   tracedAs call keeps step (events e) (Walk call (Some g) e)) n ->
  tracedAs call keeps step
    (if (0 <? length n)%nat then box :: flat_map events n ++ [Nil] else [])
    (ifNonEmpty n (walkBox call (Walk call) (Some v) box n)).
Proof.
  intros Hv Hn. unfold ifNonEmpty. destruct (0 <? length n)%nat.
  - now apply tracedAs_walkBox.
  - apply tracedAs_ret.
Qed.

(** The walk of a node by visitors that never stop makes exactly the
    invocations [events] lists. *)
Lemma Walk_tracedAs :
  forall node v,
    keeps v -> tracedAs call keeps step (events node) (Walk call (Some v) node).
Proof.
  apply (Node_induction
           (fun node => forall v, keeps v ->
              tracedAs call keeps step (events node) (Walk call (Some v) node))).
  - intros v _. apply tracedAs_ret.
  - intros e v Hv.
    apply (tracedAs_enter_exit (Leaf e) [] (fun _ => retW tt)); [exact Hv|].
    intros _ _. apply tracedAs_ret.
  - intros n Hn v Hv. rewrite Walk_Exprs. now apply tracedAs_walkBox.
  - intros n Hn v Hv. rewrite Walk_Stmts. now apply tracedAs_walkBox.
  - intros cmd args Hcmd Hargs v Hv. rewrite Walk_CmdStmt.
    apply (tracedAs_enter_exit _ _
             (fun f => bindW (Walk call f cmd) (fun _ => walkExprs call f args)));
      [exact Hv|].
    intros g Hg. apply tracedAs_bind; [now apply Hcmd|].
    rewrite walkExprs_eq. now apply tracedAs_guarded.
  - intros body Hbody v Hv. rewrite Walk_BeginStmt.
    apply (tracedAs_enter_exit _ _ (fun f => Walk call f (Stmts body)));
      [exact Hv|].
    intros g Hg. rewrite Walk_Stmts. now apply tracedAs_walkBox.
  - intros cond body els Hcond Hbody Hels v Hv. rewrite Walk_IfStmt.
    apply (tracedAs_enter_exit _ _
             (fun f => bindW (Walk call f cond) (fun _ =>
                       bindW (walkStmts call f body) (fun _ =>
                       walkStmts call f els))));
      [exact Hv|].
    intros g Hg. apply tracedAs_bind; [now apply Hcond|].
    rewrite !walkStmts_eq. apply tracedAs_bind; now apply tracedAs_guarded.
  - intros args body Hargs Hbody v Hv. rewrite Walk_FunctionStmt.
    apply (tracedAs_enter_exit _ _
             (fun f => bindW (walkExprs call f args) (fun _ =>
                       walkStmts call f body)));
      [exact Hv|].
    intros g Hg. rewrite walkExprs_eq, walkStmts_eq.
    apply tracedAs_bind; now apply tracedAs_guarded.
  - intros lhs rhs Hl Hr v Hv.
    apply (tracedAs_enter_exit (PipeStmt lhs rhs) _
             (fun f => bindW (Walk call f lhs) (fun _ => Walk call f rhs)));
      [exact Hv|].
    intros g Hg. apply tracedAs_bind; [now apply Hl | now apply Hr].
  - intros lhs rhs Hl Hr v Hv.
    apply (tracedAs_enter_exit (RedirectStmt lhs rhs) _
             (fun f => bindW (Walk call f lhs) (fun _ => Walk call f rhs)));
      [exact Hv|].
    intros g Hg. apply tracedAs_bind; [now apply Hl | now apply Hr].
Qed.

End WalkOrder.

(** The order of a walk is fixed by the tree: whatever visitors the
    callbacks return, as long as none signals "stop", [Walk] invokes them
    on the node, then for its children in the order of the node's fields
    (the condition, the body, the else-body; the command, its arguments;
    left, right), and last on the exit marker; a sequence is entered as
    a node of its own, except an empty one behind [walkStmts] or
    [walkExprs], and nil children are passed over. *)
Theorem Walk_order {St V : Type} (call : V -> Node -> St -> St * option V)
  (keeps : V -> Prop) :
  (forall c node st,
      keeps c -> exists c', snd (call c node st) = Some c' /\ keeps c') ->
  forall v node w,
    keeps v ->
    exists st',
      Walk call (Some v) node w = Ret tt (mkWorld st' (trace w ++ events node)).
Proof.
  intros Hcont v node w Hv.
  destruct (Walk_tracedAs call keeps (fun _ st => st) Hcont node v Hv w)
    as (st' & E & _).
  now exists st'.
Qed.

Lemma Walk_order_witness :
  exists st',
    Walk (fun (_ : unit) (_ : Node) (st : nat) => (S st, Some tt)) (Some tt)
         (IfStmt (Leaf []) [PipeStmt (Leaf []) Nil] []) (mkWorld O [])
    = Ret tt (mkWorld st'
                ([] ++ events (IfStmt (Leaf []) [PipeStmt (Leaf []) Nil] []))).
Proof.
  apply (Walk_order _ (fun _ => True)); [|exact I].
  intros c node st _. exists tt. split; [reflexivity | exact I].
Defined.

(** [Inspect] with a callback that always answers "descend" applies it
    to the events of the tree in order, threading the callback's state
    from one invocation to the next, and returns. *)
Theorem Inspect_folds {St : Type} (f : inspector St) (node : Node) (w : World St) :
  (forall n st, snd (f n st) = true) ->
  Inspect node f w
  = Ret tt (mkWorld (fold_left (fun st n => fst (f n st)) (events node) (user w))
              (trace w ++ events node)).
Proof.
  intros Htrue.
  assert (Hvisit : forall n st, visit f n st = (fst (f n st), Some f)).
  { intros n st. unfold visit. specialize (Htrue n st).
    destruct (f n st) as [st' b]. cbn in *. now subst b. }
  destruct (Walk_tracedAs visit (fun c => c = f) (fun n st => fst (f n st))) with
    (node := node) (v := f) (w := w) as (st' & E & Hst); [|reflexivity|].
  - intros c n st ->. exists f. now rewrite Hvisit.
  - unfold Inspect. rewrite E. rewrite Hst; [reflexivity|].
    intros v n st ->. now rewrite Hvisit.
Qed.

Lemma Inspect_folds_witness :
  Inspect (CmdStmt (Leaf []) [Leaf []]) (fun _ (st : nat) => (S st, true))
          (mkWorld O [])
  = Ret tt (mkWorld 8%nat
              [CmdStmt (Leaf []) [Leaf []]; Leaf []; Nil; Exprs [Leaf []];
               Leaf []; Nil; Nil; Nil]).
Proof.
  exact (Inspect_folds (fun _ (st : nat) => (S st, true))
           (CmdStmt (Leaf []) [Leaf []]) (mkWorld O []) (fun _ _ => eq_refl)).
Defined.

(** A node with nothing to descend into is walked the same way whatever
    the callback answers, "stop" included: the callback is invoked on
    the node and on the exit marker, and the walk returns. *)
Theorem stop_without_children {St V : Type}
  (call : V -> Node -> St -> St * option V) (v : V) (node : Node) (w : World St) :
  childless node = true ->
  isExit node = false ->
  Walk call (Some v) node w
  = Ret tt (mkWorld (fst (call v Nil (fst (call v node (user w)))))
              (trace w ++ [node; Nil])).
Proof.
  intros Hc Hx.
  assert (Hgo : forall body : option V -> W St unit,
             (forall f w0, body f w0 = Ret tt w0) ->
             bindW (invoke call (Some v) node) (fun f =>
             bindW (body f) (fun _ =>
             bindW (invoke call (Some v) Nil) (fun _ => retW tt))) w
             = Ret tt (mkWorld (fst (call v Nil (fst (call v node (user w)))))
                         (trace w ++ [node; Nil]))).
  { intros body Hbody. unfold bindW, invoke.
    destruct (call v node (user w)) as [st1 f1]. rewrite Hbody. cbn [user trace fst].
    destruct (call v Nil st1) as [st2 f2]. unfold retW. cbn [fst].
    now rewrite <- app_assoc. }
  destruct node as [ | e | [|? ?] | [|? ?] | [ | | | | | | | | | ] [|? ?]
                   | body | [ | | | | | | | | | ] [|? ?] [|? ?]
                   | [|? ?] [|? ?] | [ | | | | | | | | | ] [ | | | | | | | | | ]
                   | [ | | | | | | | | | ] [ | | | | | | | | | ] ];
    try discriminate Hc; try discriminate Hx;
    try (apply (Hgo (fun _ => retW tt)); reflexivity).
Qed.

Lemma stop_without_children_witness :
  Inspect (IfStmt Nil [] []) (fun _ (st : nat) => (S st, false)) (mkWorld O [])
  = Ret tt (mkWorld 2%nat [IfStmt Nil [] []; Nil]).
Proof.
  exact (stop_without_children visit (fun _ (st : nat) => (S st, false))
           (IfStmt Nil [] []) (mkWorld O []) eq_refl eq_refl).
Defined.

(* ------------------------------------------------------------------ *)
(** ** Further properties of the lexer: comments, fusion, composition *)

Lemma mainLex_timeout_iff_witness :
  mainLex 9 lval0 (newScanner (runes " # x")) = Timeout.
Proof.
  apply (proj2 (mainLex_timeout_iff 9 lval0 (newScanner (runes " # x"))
                  ltac:(simpl; lia))).
  exists (runes " x"). split; [reflexivity|].
  simpl. intros [H|[H|[]]]; discriminate H.
Defined.

(** A comment produces no token: from [#] on, the text up to the next
    newline is skipped, whatever it holds, and the token returned is that
    newline, with the value cell untouched. *)
Theorem comment_is_skipped (body rest : list rune) (o : Position)
  (lval : yySymType) (fuel : nat) :
  ~ In newline body ->
  (length body + length rest + 4 < fuel)%nat ->
  mainLex fuel lval {| src := r "#" :: body ++ newline :: rest; offset := o |}
  = Done (Char newline, lval)
         {| src := rest; offset := o + Z.of_nat (length body) + 2 |}.
Proof.
  intros Hnl Hfuel. destruct fuel as [|m]; [lia|].
  set (p := fun c : rune => negb (c =? newline)).
  assert (Hall : Forall (fun c => p c = true) (r "#" :: body)).
  { constructor; [reflexivity|]. apply Forall_forall. intros c Hc.
    apply negb_true_iff, Z.eqb_neq. intros ->. now apply Hnl. }
  set (s := {| src := r "#" :: body ++ newline :: rest; offset := o |}).
  assert (Hb : skipBrank m s = Done tt s)
    by (destruct m; [lia | reflexivity]).
  assert (Hc : skipComment m s
               = Done tt {| src := newline :: rest;
                            offset := o + Z.of_nat (length (r "#" :: body)) |}).
  { unfold skipComment. fold p. rewrite skipRun_done.
    - subst s. cbn [src]. rewrite app_comm_cons.
      destruct (takeRun_app p (r "#" :: body) (newline :: rest) Hall) as [-> ->].
      cbn [takeRun dropRun]. change (p newline) with false. cbv iota.
      rewrite app_nil_r. reflexivity.
    - right. subst s. cbn [src]. rewrite app_comm_cons.
      destruct (takeRun_app p (r "#" :: body) (newline :: rest) Hall) as [_ ->].
      discriminate.
    - subst s. cbn [src length]. rewrite length_app. cbn [length]. lia. }
  cbn [mainLex]. unfold bind at 1. rewrite Hb. unfold bind at 1, peek.
  change (Peek s) with (r "#"). change (r "#" =? EOF) with false.
  change (r "#" =? r "#") with true. cbv iota. unfold bind at 1. rewrite Hc.
  destruct m as [|[|n]]; try lia.
  rewrite mainLex_newline. apply Done_eq; [reflexivity | reflexivity |].
  cbn [length]. lia.
Qed.

Lemma comment_is_skipped_witness :
  mainLex 9 lval0 (newScanner (runes "# if" ++ newline :: runes "x"))
  = Done (Char newline, lval0) {| src := runes "x"; offset := 5 |}.
Proof.
  apply (comment_is_skipped (runes " if") (runes "x") 0 lval0 9).
  - simpl. intros [H|[H|[H|[]]]]; discriminate H.
  - simpl. lia.
Defined.

Lemma scanStrs_loop_right_paren (n : nat) (l : list rune) (o : Position) :
  scanStrs_loop (S n) false [] {| src := r ")" :: l; offset := o |}
  = scanStrs_loop n true [] {| src := l; offset := o + 1 |}.
Proof. reflexivity. Qed.

(** A [)] glued to a bare word: [scanStrs] consumes the [)] and the
    word and returns the )-then-word token with the word as one [Ident];
    when a [(] follows the word it is consumed as well and the token is
    the )-then-word-then-( token. *)
Theorem right_paren_fusion (c : rune) (w rest : list rune) (o : Position)
  (fuel : nat) :
  Forall (fun c => isIdentChar c = true) (c :: w) ->
  (length ((c :: w) ++ rest) + 3 < fuel)%nat ->
  let word := [Ident (o + 1) (c :: w)] in
  let o' := o + 1 + Z.of_nat (length (c :: w)) in
  (endsWord (hd EOF rest) = true ->
   scanStrs fuel {| src := r ")" :: (c :: w) ++ rest; offset := o |}
   = Done (RIGHT_PAREN_AND_STR, word) {| src := rest; offset := o' |}) /\
  (scanStrs fuel {| src := r ")" :: (c :: w) ++ r "(" :: rest; offset := o |}
   = Done (RIGHT_PAREN_AND_STR_AND_LEFT_PAREN, word)
          {| src := rest; offset := o' + 1 |}).
Proof.
  intros Hall Hfuel word o'. destruct fuel as [|[|[|n]]]; try lia.
  unfold scanStrs. rewrite !scanStrs_loop_right_paren. split.
  - intros He. destruct (endsWord_tests _ He) as (H1 & H2 & H3 & H4 & H5 & H6).
    assert (Hsp : isSpecialChar (hd EOF rest) = true)
      by (apply endsWord_tests in He; tauto).
    rewrite scanStrs_loop_bare by (assumption || lia).
    cbn [scanStrs_loop app]. rewrite Peek_hd.
    now rewrite H1, H2, H3, H4, H5, H6.
  - rewrite scanStrs_loop_bare;
      [reflexivity | exact Hall | reflexivity
      | rewrite length_app in *; cbn [length] in *; lia].
Qed.

Lemma right_paren_fusion_witness :
  scanStrs 11 (newScanner (runes ")foo bar"))
  = Done (RIGHT_PAREN_AND_STR, [Ident 1 (runes "foo")])
         {| src := runes " bar"; offset := 4 |}.
Proof.
  apply (proj1 (right_paren_fusion (r "f") (runes "oo") (runes " bar") 0 11
                  ltac:(repeat constructor) ltac:(simpl; lia))).
  reflexivity.
Defined.

(** A bare word glued to a single-quoted literal is one word: [scanStrs]
    returns one word token whose fragments are the bare text and then the
    quoted text (nothing for empty quotes), and stops at the terminator
    behind the closing quote. *)
Theorem word_concatenation (c : rune) (w body rest : list rune) (o : Position)
  (fuel : nat) :
  Forall (fun c => isIdentChar c = true) (c :: w) ->
  Forall (fun c => isSingleQuotedIdentChar c = true) body ->
  endsWord (hd EOF rest) = true ->
  (length (c :: w) + length body + length rest + 6 < fuel)%nat ->
  let o1 := o + Z.of_nat (length (c :: w)) in
  scanStrs fuel
    {| src := (c :: w) ++ squote :: body ++ squote :: rest; offset := o |}
  = Done (STR, Ident o (c :: w) :: literal (o1 + 1) body)
         {| src := rest; offset := o1 + Z.of_nat (length body) + 2 |}.
Proof.
  intros Hw Hbody Hend Hfuel o1. destruct fuel as [|m]; [lia|].
  unfold scanStrs. rewrite scanStrs_loop_bare;
    [| exact Hw | reflexivity
     | rewrite !length_app in *; cbn [length] in *;
       rewrite length_app; cbn [length]; lia].
  fold o1. destruct m as [|m]; [cbn [length] in Hfuel; lia|].
  cbn [scanStrs_loop app]. rewrite Peek_cons.
  change (squote =? r "$") with false. change (squote =? dquote) with false.
  change (squote =? squote) with true. cbv iota. unfold bind at 1.
  rewrite (proj1 (quote_scanners_literal squote body rest o1 m
                    ltac:(cbn [length] in Hfuel; lia)) Hbody).
  destruct m as [|m]; [cbn [length] in Hfuel; lia|].
  destruct (endsWord_tests _ Hend) as (H1 & H2 & H3 & H4 & H5 & H6).
  cbn [scanStrs_loop app]. rewrite Peek_hd.
  now rewrite H1, H2, H3, H4, H5, H6.
Qed.

Lemma word_concatenation_witness :
  scanStrs 14 (newScanner (runes "ab'c d' e"))
  = Done (STR, [Ident 0 (runes "ab"); Ident 3 (runes "c d")])
         {| src := runes " e"; offset := 7 |}.
Proof.
  apply (word_concatenation (r "a") (runes "b") (runes "c d") (runes " e") 0 14);
    [repeat constructor | repeat constructor | reflexivity | simpl; lia].
Defined.
